(** * WebDAW core engine (script.js): scheduling and synthesis

  A shallow embedding of the engine of [script.js].  Every definition is
  named after the class member it embeds ([Channel.playNote],
  [Sequencer.scheduler], [PianoRoll.handleInput], ...).

  Conventions.
  - A JavaScript number that carries a time, a tempo, a gain, a pitch or a
    sample is a real number: the arithmetic of the source is taken exactly,
    so rounding, NaN and the infinities of IEEE doubles are not represented.
  - A number that the source only uses as a counter or an array index (the
    step cursor, a channel id, a mixer track index, a sample index) is a
    [nat].
  - The singleton [DAW] is passed explicitly.  The audio context is a log of
    the voices built on it, the window is its set of live timers.
  - The audio nodes are taken to accept the calls made on them.  The
    [RangeError] that [start], [stop] and the automation calls raise on a
    negative time, and the infinite step that a tempo of 0 gives in
    JavaScript, belong to what the reals do not represent: the embedding
    describes the runs with a non-zero tempo and times that are not
    negative, and a property that would otherwise speak of another run
    carries that as a hypothesis. *)

From Stdlib Require Import Reals Lra Lia ZArith List String Permutation.
From stdpp Require Import base list gmap strings.

Open Scope R_scope.

(** ** JavaScript values *)

Module JS.

(** An array of booleans that may have holes: [None] is a hole, which reads
    as [undefined]. *)
Abbreviation array := (list (option bool)).

(** [a[i]]: [None] stands for [undefined] (a hole, or [i] past the end). *)
Definition get (a : array) (i : nat) : option bool :=
  match a !! i with
  | Some (Some b) => Some b
  | _ => None
  end.

(** Truthiness of [a[i]]: [undefined] is falsy. *)
Definition truthy (v : option bool) : bool :=
  match v with
  | Some b => b
  | None => false
  end.

(** [a[i] = v]: in range the slot is overwritten; past the end the array
    grows, the slots in between staying holes. *)
Definition set (a : array) (i : nat) (v : bool) : array :=
  if decide (i < length a)%nat
  then <[i := Some v]> a
  else a ++ replicate (i - length a) None ++ [Some v].

(** [new Array(n).fill(v)] *)
Definition filled (n : nat) (v : bool) : array := replicate n (Some v).

(** [Math.pow(b, x)] for a positive base. *)
Definition Math_pow (b x : R) : R := Rpower b x.

(** [Math.abs] *)
Definition Math_abs (x : R) : R := Rabs x.

(** [s.substring(0, n)] *)
Definition substring0 (n : nat) (s : string) : string := String.substring 0 n s.

End JS.

(** ** The audio graph *)

Module AudioBuffer.

(** A decoded or generated PCM buffer ([AudioBuffer]); [data] is channel 0,
    the only channel the source writes. *)
Record t := mk {
  numberOfChannels : nat;
  sampleRate : R;
  data : list R
}.

(** [buffer.length]: the number of sample frames. *)
Definition frames (b : t) : nat := length (data b).

(** [buffer.duration] in seconds. *)
Definition duration (b : t) : R := INR (frames b) / sampleRate b.

End AudioBuffer.

(** Where the gain node of a voice is connected. *)
Inductive Destination :=
| TrackInput (index : nat)
| MasterGain.

(** The node that produces the signal of a voice. *)
Inductive SourceNode :=
| BufferSource (buffer : AudioBuffer.t) (playbackRate : R)
| Oscillator (wave : string) (frequency : R).

(** Automation calls on [gain.gain]. *)
Inductive ParamEvent :=
| setValueAtTime (value time : R)
| linearRampToValueAtTime (value time : R)
| exponentialRampToValueAtTime (value time : R).

Inductive GainParam :=
| GainValue (value : R)
| GainAutomation (events : list ParamEvent).

(** One voice: the nodes [playNote] creates and connects for one note. *)
Record Voice := mkVoice {
source : SourceNode;
filtered : bool;
gain : GainParam;
dest : Destination;
startAt : R;
stopAt : R
}.

Module AudioContext.

Record t := mk {
  currentTime : R;
  suspended : bool;
  sampleRate : R;
  voices : list Voice
}.

(** Connecting a finished voice to the graph. *)
Definition connect (v : Voice) (ctx : t) : t :=
  mk (currentTime ctx) (suspended ctx) (sampleRate ctx) (voices ctx ++ [v]).

(** [ctx.resume()] *)
Definition resume (ctx : t) : t :=
  mk (currentTime ctx) false (sampleRate ctx) (voices ctx).

(** The audio clock, advanced by the rendering thread between two tasks. *)
Definition at_time (now : R) (ctx : t) : t :=
  mk now (suspended ctx) (sampleRate ctx) (voices ctx).

End AudioContext.

Module MixerTrack.

Record t := mk {
  index : nat;
  volume : R;
  pan : R;
  effects : list unit
}.

(** [new MixerTrack(index)] *)
Definition new (index : nat) : t := mk index 0.8 0 [].

(** [setVolume(val)] *)
Definition setVolume (val : R) (this : t) : t :=
  mk (index this) val (pan this) (effects this).

(** [track.input], the node a channel connects to. *)
Definition input (this : t) : Destination := TrackInput (index this).

End MixerTrack.

(** ** Channels *)

Module Note.

(** A piano-roll note [{ start, duration, pitch, velocity }]. *)
Record t := mk {
  start : R;
  duration : R;
  pitch : R;
  velocity : R
}.

End Note.

Module Channel.

Record t := mk {
  id : nat;
  name : string;
  type : string;
  buffer : option AudioBuffer.t;
  volume : R;
  pan : R;
  pitch : R;
  targetMixerTrack : nat;
  steps : JS.array;
  pianoRollNotes : list Note.t
}.

(** [new Channel(id, name, type)] *)
Definition new (id : nat) (name type : string) : t :=
  mk id name type None 0.8 0 0 (id mod 16 + 1) (JS.filled 16 false) [].

Definition set_buffer (b : option AudioBuffer.t) (this : t) : t :=
  mk (id this) (name this) (type this) b (volume this) (pan this)
     (pitch this) (targetMixerTrack this) (steps this) (pianoRollNotes this).

Definition set_steps (s : JS.array) (this : t) : t :=
  mk (id this) (name this) (type this) (buffer this) (volume this) (pan this)
     (pitch this) (targetMixerTrack this) s (pianoRollNotes this).

Definition set_pianoRollNotes (ns : list Note.t) (this : t) : t :=
  mk (id this) (name this) (type this) (buffer this) (volume this) (pan this)
     (pitch this) (targetMixerTrack this) (steps this) ns.

(** The route of a voice: [track ? track.input : DAW.masterGain]. *)
Definition route (mixerTracks : list MixerTrack.t) (this : t) : Destination :=
  match mixerTracks !! targetMixerTrack this with
  | Some track => MixerTrack.input track
  | None => MasterGain
  end.

(** The sampler branch of [playNote]. *)
Definition samplerVoice (this : t) (buf : AudioBuffer.t) (dest : Destination)
    (time pitch' velocity : R) : Voice :=
  let playbackRate := JS.Math_pow 2 ((pitch this + (pitch' - 60)) / 12) in
  mkVoice (BufferSource buf playbackRate) false
          (GainValue (volume this * velocity)) dest
          time (time + AudioBuffer.duration buf / playbackRate).

(** The synth branch of [playNote]. *)
Definition synthVoice (this : t) (dest : Destination)
    (time duration pitch' velocity : R) : Voice :=
  let attack := 0.01 in
  let decay := 0.1 in
  let sustain := 0.5 in
  let release := 0.2 in
  let stopTime := time + duration in
  mkVoice (Oscillator "sawtooth" (440 * JS.Math_pow 2 ((pitch' - 69) / 12))) true
          (GainAutomation
             [ setValueAtTime 0 time;
               linearRampToValueAtTime (volume this * velocity) (time + attack);
               exponentialRampToValueAtTime (volume this * velocity * sustain)
                                            (time + attack + decay);
               setValueAtTime (volume this * velocity * sustain) stopTime;
               exponentialRampToValueAtTime 0.001 (stopTime + release) ])
          dest time (stopTime + release + 0.1).

(** [playNote(time, duration, pitch, velocity)].  It reads
    [DAW.mixerTracks] and builds its nodes on [DAW.ctx].  Every caller
    passes the four arguments, so the defaults of [pitch] and [velocity]
    never apply. *)
Definition playNote (mixerTracks : list MixerTrack.t) (ctx : AudioContext.t)
    (this : t) (time duration pitch' velocity : R) : AudioContext.t :=
  let dest := route mixerTracks this in
  match String.eqb (type this) "sampler", buffer this with
  | true, Some buf =>
      AudioContext.connect (samplerVoice this buf dest time pitch' velocity) ctx
  | _, _ =>
      if String.eqb (type this) "synth"
      then AudioContext.connect
             (synthVoice this dest time duration pitch' velocity) ctx
      else ctx
  end.

End Channel.

(** ** The browser window: timers *)

Module Window.

Record t := mk {
  timers : gset nat;
  nextTimer : nat
}.

Definition initial : t := mk ∅ 1.

(** [setTimeout(callback, delay)]: a fresh handle, now pending. *)
Definition setTimeout (w : t) : nat * t :=
  (nextTimer w, mk ({[nextTimer w]} ∪ timers w) (S (nextTimer w))).

(** [clearTimeout(id)]; [null] clears nothing. *)
Definition clearTimeout (id : option nat) (w : t) : t :=
  match id with
  | Some i => mk (timers w ∖ {[i]}) (nextTimer w)
  | None => w
  end.

(** A pending timer fires: it is no longer pending. *)
Definition expire (i : nat) (w : t) : t :=
  mk (timers w ∖ {[i]}) (nextTimer w).

End Window.

(** ** The engine state *)

Module DAW.

(** The singleton [DAW], with the window next to it. *)
Record t := mk {
  ctx : AudioContext.t;
  isPlaying : bool;
  tempo : R;
  currentStep : nat;
  nextNoteTime : R;
  lookahead : R;
  scheduleAheadTime : R;
  timerID : option nat;
  channels : list Channel.t;
  mixerTracks : list MixerTrack.t;
  selectedChannelIndex : nat;
  stepCount : nat;
  window : Window.t
}.

Definition set_ctx (v : AudioContext.t) (d : t) : t :=
  mk v (isPlaying d) (tempo d) (currentStep d) (nextNoteTime d) (lookahead d)
     (scheduleAheadTime d) (timerID d) (channels d) (mixerTracks d)
     (selectedChannelIndex d) (stepCount d) (window d).

Definition set_isPlaying (v : bool) (d : t) : t :=
  mk (ctx d) v (tempo d) (currentStep d) (nextNoteTime d) (lookahead d)
     (scheduleAheadTime d) (timerID d) (channels d) (mixerTracks d)
     (selectedChannelIndex d) (stepCount d) (window d).

Definition set_tempo (v : R) (d : t) : t :=
  mk (ctx d) (isPlaying d) v (currentStep d) (nextNoteTime d) (lookahead d)
     (scheduleAheadTime d) (timerID d) (channels d) (mixerTracks d)
     (selectedChannelIndex d) (stepCount d) (window d).

Definition set_currentStep (v : nat) (d : t) : t :=
  mk (ctx d) (isPlaying d) (tempo d) v (nextNoteTime d) (lookahead d)
     (scheduleAheadTime d) (timerID d) (channels d) (mixerTracks d)
     (selectedChannelIndex d) (stepCount d) (window d).

Definition set_nextNoteTime (v : R) (d : t) : t :=
  mk (ctx d) (isPlaying d) (tempo d) (currentStep d) v (lookahead d)
     (scheduleAheadTime d) (timerID d) (channels d) (mixerTracks d)
     (selectedChannelIndex d) (stepCount d) (window d).

Definition set_timerID (v : option nat) (d : t) : t :=
  mk (ctx d) (isPlaying d) (tempo d) (currentStep d) (nextNoteTime d) (lookahead d)
     (scheduleAheadTime d) v (channels d) (mixerTracks d)
     (selectedChannelIndex d) (stepCount d) (window d).

Definition set_channels (v : list Channel.t) (d : t) : t :=
  mk (ctx d) (isPlaying d) (tempo d) (currentStep d) (nextNoteTime d) (lookahead d)
     (scheduleAheadTime d) (timerID d) v (mixerTracks d)
     (selectedChannelIndex d) (stepCount d) (window d).

Definition set_mixerTracks (v : list MixerTrack.t) (d : t) : t :=
  mk (ctx d) (isPlaying d) (tempo d) (currentStep d) (nextNoteTime d) (lookahead d)
     (scheduleAheadTime d) (timerID d) (channels d) v
     (selectedChannelIndex d) (stepCount d) (window d).

Definition set_selectedChannelIndex (v : nat) (d : t) : t :=
  mk (ctx d) (isPlaying d) (tempo d) (currentStep d) (nextNoteTime d) (lookahead d)
     (scheduleAheadTime d) (timerID d) (channels d) (mixerTracks d)
     v (stepCount d) (window d).

Definition set_window (v : Window.t) (d : t) : t :=
  mk (ctx d) (isPlaying d) (tempo d) (currentStep d) (nextNoteTime d) (lookahead d)
     (scheduleAheadTime d) (timerID d) (channels d) (mixerTracks d)
     (selectedChannelIndex d) (stepCount d) v.

(** The object literal [DAW], once [AudioEngine.init] has made the context,
    which the browser keeps suspended until a user gesture. *)
Definition literal (sampleRate : R) : t :=
  mk (AudioContext.mk 0 true sampleRate []) false 130 0 0 25 0.1 None [] []
     0 16 Window.initial.

End DAW.

(** ** Procedural samples *)

Module ProceduralAudio.

(** [createBuffer(1, length, sampleRate)] takes the integer part of
    [length] for its number of frames, all zero. *)
Definition createBuffer (length : R) (sampleRate : R) : AudioBuffer.t :=
  AudioBuffer.mk 1 sampleRate (replicate (Z.to_nat (Int_part length)) 0).

(** The number of rounds of [for (let i = 0; i < length; i++)]: the
    indices [i] with [i < length]. *)
Definition rounds (length : R) : nat := Z.to_nat (- Int_part (- length)).

(** [for (let i = 0; i < length; i++) data[i] = sample(i)] on a
    [Float32Array]: a write past the end of the array is dropped. *)
Definition fill (length : R) (sample : nat -> R) (data : list R) : list R :=
  fold_left (fun d i => <[i := sample i]> d) (seq 0 (rounds length)) data.

Definition kickSample (sampleRate : R) (i : nat) : R :=
  let t := INR i / sampleRate in
  let freq := 150 * exp (- t * 15) in
  sin (2 * PI * freq * t) * exp (- t * 5).

Definition snareSample (random : nat -> R) (sampleRate : R) (i : nat) : R :=
  let t := INR i / sampleRate in
  let noise := random i * 2 - 1 in
  let tone := sin (2 * PI * 200 * t) in
  (noise * 0.8 + tone * 0.2) * exp (- t * 10).

Definition hatSample (random : nat -> R) (sampleRate : R) (i : nat) : R :=
  let t := INR i / sampleRate in
  let noise := random i * 2 - 1 in
  noise * exp (- t * 40).

(** [generate(type)]; [random i] is what the [i]-th call of
    [Math.random()] returns, [sampleRate] is [DAW.ctx.sampleRate]. *)
Definition generate (random : nat -> R) (sampleRate : R) (type : string)
    : AudioBuffer.t :=
  let length := sampleRate * 0.5 in
  let buffer := createBuffer length sampleRate in
  let data := AudioBuffer.data buffer in
  if String.eqb type "kick" then
    AudioBuffer.mk 1 sampleRate (fill length (kickSample sampleRate) data)
  else if String.eqb type "snare" then
    AudioBuffer.mk 1 sampleRate (fill length (snareSample random sampleRate) data)
  else if String.eqb type "hat" then
    let length := sampleRate * 0.1 in
    AudioBuffer.mk 1 sampleRate (fill length (hatSample random sampleRate) data)
  else buffer.

End ProceduralAudio.

(** ** Engine set-up *)

Module AudioEngine.

(** [createChannel(name, type, sampleKey)]; a missing or empty
    [sampleKey] is falsy. *)
Definition createChannel (random : nat -> R) (name type : string)
    (sampleKey : option string) (d : DAW.t) : DAW.t :=
  let id := length (DAW.channels d) in
  let channel := Channel.new id name type in
  let channel :=
    match sampleKey with
    | Some key =>
        if String.eqb type "sampler" && negb (String.eqb key "")
        then Channel.set_buffer
               (Some (ProceduralAudio.generate random
                        (AudioContext.sampleRate (DAW.ctx d)) key)) channel
        else channel
    | None => channel
    end in
  DAW.set_channels (DAW.channels d ++ [channel]) d.

(** The [click] listener [init()] installs:
    [if (DAW.ctx.state === 'suspended') DAW.ctx.resume()]. *)
Definition resumeOnClick (d : DAW.t) : DAW.t :=
  if AudioContext.suspended (DAW.ctx d)
  then DAW.set_ctx (AudioContext.resume (DAW.ctx d)) d
  else d.

(** [init()]: the master bus, mixer tracks 0 to 16, the four default
    channels. *)
Definition init (randomSnare randomHat : nat -> R) (sampleRate : R) : DAW.t :=
  let d := DAW.literal sampleRate in
  let d := DAW.set_mixerTracks (map MixerTrack.new (seq 0 17)) d in
  let d := createChannel (fun _ => 0) "Kick" "sampler" (Some "kick") d in
  let d := createChannel randomSnare "Snare" "sampler" (Some "snare") d in
  let d := createChannel randomHat "Hat" "sampler" (Some "hat") d in
  createChannel (fun _ => 0) "Lead" "synth" None d.

End AudioEngine.

(** ** The sequencer *)

Module Sequencer.

(** The arguments of one [ch.playNote(...)] made by [scheduleNote]. *)
Record PlayCall := call {
  callee : Channel.t;
  time : R;
  duration : R;
  pitch : R;
  velocity : R
}.

Definition perform (mixerTracks : list MixerTrack.t) (ctx : AudioContext.t)
    (c : PlayCall) : AudioContext.t :=
  Channel.playNote mixerTracks ctx (callee c) (time c) (duration c) (pitch c)
                   (velocity c).

(** The test on a piano-roll note: [Math.abs(note.start - stepNumber) < 0.01]. *)
Definition onStep (stepNumber : nat) (note : Note.t) : Prop :=
  JS.Math_abs (Note.start note - INR stepNumber) < 0.01.

#[global] Instance onStep_dec stepNumber note : Decision (onStep stepNumber note) :=
  Rlt_dec _ _.

(** The body of [DAW.channels.forEach(ch => ...)] in [scheduleNote]. *)
Definition scheduleChannel (d : DAW.t) (stepNumber : nat) (time : R)
    (ctx : AudioContext.t) (ch : Channel.t) : AudioContext.t :=
  let ctx :=
    if JS.truthy (JS.get (Channel.steps ch) stepNumber)
    then Channel.playNote (DAW.mixerTracks d) ctx ch time 0.1 60 1.0
    else ctx in
  fold_left
    (fun ctx note =>
       if decide (onStep stepNumber note)
       then let dur := Note.duration note * (60 / DAW.tempo d / 4) in
            Channel.playNote (DAW.mixerTracks d) ctx ch time dur
                             (Note.pitch note) (Note.velocity note)
       else ctx)
    (Channel.pianoRollNotes ch) ctx.

(** [scheduleNote(stepNumber, time)] *)
Definition scheduleNote (stepNumber : nat) (time : R) (d : DAW.t) : DAW.t :=
  DAW.set_ctx
    (fold_left (scheduleChannel d stepNumber time) (DAW.channels d) (DAW.ctx d)) d.

(** [nextStep()].  [60.0 / DAW.tempo] is the quotient of the reals, which
    is the one of the source for every tempo but 0. *)
Definition nextStep (d : DAW.t) : DAW.t :=
  let secondsPerBeat := 60.0 / DAW.tempo d in
  let d := DAW.set_nextNoteTime (DAW.nextNoteTime d + 0.25 * secondsPerBeat) d in
  let d := DAW.set_currentStep (S (DAW.currentStep d)) d in
  if decide (DAW.currentStep d = DAW.stepCount d)
  then DAW.set_currentStep 0 d
  else d.

(** One emitted event: the arguments of [scheduleNote]. *)
Abbreviation Event := (nat * R)%type.

(** The [while] loop of [scheduler()], with the events it emits.  [None]
    when [fuel] rounds do not end it.  The rounds are the ones of the source
    as long as [scheduleNote] is given times that are not negative, which
    the audio nodes accept. *)
Fixpoint schedulerLoop (fuel : nat) (d : DAW.t) : option (DAW.t * list Event) :=
  if Rlt_dec (DAW.nextNoteTime d)
             (AudioContext.currentTime (DAW.ctx d) + DAW.scheduleAheadTime d)
  then
    match fuel with
    | O => None
    | S fuel' =>
        let ev := (DAW.currentStep d, DAW.nextNoteTime d) in
        let d' := nextStep (scheduleNote (DAW.currentStep d) (DAW.nextNoteTime d) d) in
        match schedulerLoop fuel' d' with
        | Some (d'', evs) => Some (d'', ev :: evs)
        | None => None
        end
    end
  else Some (d, []).

(** The end of [scheduler()]: re-arm the look-ahead timer while playing. *)
Definition rearm (d : DAW.t) : DAW.t :=
  if DAW.isPlaying d
  then let '(id, w) := Window.setTimeout (DAW.window d) in
       DAW.set_timerID (Some id) (DAW.set_window w d)
  else d.

(** [scheduler()] *)
Definition scheduler (fuel : nat) (d : DAW.t) : option (DAW.t * list Event) :=
  match schedulerLoop fuel d with
  | Some (d', evs) => Some (rearm d', evs)
  | None => None
  end.

(** The assignments of [start()] before it calls [scheduler()]. *)
Definition startReset (d : DAW.t) : DAW.t :=
  let d := if AudioContext.suspended (DAW.ctx d)
           then DAW.set_ctx (AudioContext.resume (DAW.ctx d)) d
           else d in
  let d := DAW.set_isPlaying true d in
  let d := DAW.set_currentStep 0 d in
  DAW.set_nextNoteTime (AudioContext.currentTime (DAW.ctx d)) d.

(** [start()] *)
Definition start (fuel : nat) (d : DAW.t) : option (DAW.t * list Event) :=
  if DAW.isPlaying d then Some (d, [])
  else scheduler fuel (startReset d).

(** [stop()] *)
Definition stop (d : DAW.t) : DAW.t :=
  let d := DAW.set_isPlaying false d in
  DAW.set_window (Window.clearTimeout (DAW.timerID d) (DAW.window d)) d.

(** The look-ahead timer [id] fires: the window runs [scheduler()]. *)
Definition timeout (fuel : nat) (id : nat) (d : DAW.t)
    : option (DAW.t * list Event) :=
  scheduler fuel (DAW.set_window (Window.expire id (DAW.window d)) d).

End Sequencer.

(** ** User interface handlers *)

Module UIManager.

(** The [onclick] of step [i] of channel [idx] in [renderChannelRack]:
    [ch.steps[i] = !ch.steps[i]]. *)
Definition toggleSteps (i : nat) (steps : JS.array) : JS.array :=
  JS.set steps i (negb (JS.truthy (JS.get steps i))).

Definition stepClick (idx i : nat) (d : DAW.t) : DAW.t :=
  match DAW.channels d !! idx with
  | Some ch =>
      DAW.set_channels
        (<[idx := Channel.set_steps (toggleSteps i (Channel.steps ch)) ch]>
           (DAW.channels d)) d
  | None => d
  end.

(** The [onchange] of the tempo field, on the number [parseInt] read. *)
Definition bpmChange (value : R) (d : DAW.t) : DAW.t := DAW.set_tempo value d.

(** The [onclick] of a channel row. *)
Definition rowClick (idx : nat) (d : DAW.t) : DAW.t :=
  DAW.set_selectedChannelIndex idx d.

(** The fader of mixer strip [i]: [track.setVolume(val)] with [val]
    clamped to [0, 1]. *)
Definition faderMove (i : nat) (val : R) (d : DAW.t) : DAW.t :=
  let val := Rmax 0 (Rmin 1 val) in
  match DAW.mixerTracks d !! i with
  | Some track =>
      DAW.set_mixerTracks (<[i := MixerTrack.setVolume val track]> (DAW.mixerTracks d)) d
  | None => d
  end.

(** The [onclick] of the add-channel button. *)
Definition addChannelClick (d : DAW.t) : DAW.t :=
  AudioEngine.createChannel (fun _ => 0) "New Synth" "synth" None d.

End UIManager.

Module PianoRoll.

Definition zoomX : R := 20.
Definition zoomY : R := 20.

(** The test of [findIndex]:
    [n.pitch === pitch && Math.abs(n.start - step) < 0.1]. *)
Definition sameNote (pitch step : R) (n : Note.t) : Prop :=
  Note.pitch n = pitch /\ JS.Math_abs (Note.start n - step) < 0.1.

#[global] Instance sameNote_dec pitch step n : Decision (sameNote pitch step n).
Proof.
  unfold sameNote.
  destruct (Req_dec_T (Note.pitch n) pitch);
    destruct (Rlt_dec (JS.Math_abs (Note.start n - step)) 0.1);
    [left | right | right | right]; tauto.
Defined.

(** The toggle of [handleInput] on a note list: [findIndex], then
    [splice(existingIdx, 1)] or [push]. *)
Definition toggle (pitch step : R) (notes : list Note.t) : list Note.t :=
  match list_find (sameNote pitch step) notes with
  | Some (existingIdx, _) => delete existingIdx notes
  | None => notes ++ [Note.mk step 1 pitch 1.0]
  end.

(** [handleInput(e)], at the point [(x, y)] of the canvas. *)
Definition handleInput (x y : R) (d : DAW.t) : DAW.t :=
  let step := IZR (Int_part (x / zoomX)) in
  let pitchIndex := IZR (Int_part (y / zoomY)) in
  let pitch := 84 - pitchIndex in
  match DAW.channels d !! DAW.selectedChannelIndex d with
  | None => d
  | Some ch =>
      DAW.set_channels
        (<[DAW.selectedChannelIndex d :=
             Channel.set_pianoRollNotes
               (toggle pitch step (Channel.pianoRollNotes ch)) ch]>
           (DAW.channels d)) d
  end.

End PianoRoll.

Module FileLoader.

(** [loadSample(file)], once the file is decoded into [buffer]: a new
    sampler channel named after the file, then [ch.buffer = buffer]. *)
Definition loadSample (fileName : string) (buffer : AudioBuffer.t) (d : DAW.t)
    : DAW.t :=
  let idx := length (DAW.channels d) in
  let d := AudioEngine.createChannel (fun _ => 0)
             (JS.substring0 10 fileName) "sampler" None d in
  match DAW.channels d !! idx with
  | Some ch =>
      DAW.set_channels (<[idx := Channel.set_buffer (Some buffer) ch]> (DAW.channels d)) d
  | None => d
  end.

End FileLoader.

Module Midi.

(** The [onmidimessage] handler on [[cmd, note, vel]]. *)
Definition onmidimessage (cmd : nat) (note vel : R) (d : DAW.t) : DAW.t :=
  if decide (cmd = 144%nat) then
    if Rlt_dec 0 vel then
      match DAW.channels d !! DAW.selectedChannelIndex d with
      | Some ch =>
          DAW.set_ctx
            (Channel.playNote (DAW.mixerTracks d) (DAW.ctx d) ch
               (AudioContext.currentTime (DAW.ctx d)) 0.5 note (vel / 127)) d
      | None => d
      end
    else d
  else d.

End Midi.

(** ** Sessions: what can happen to an engine *)

Module Session.

(** The tasks the browser runs on the engine after [AudioEngine.init]. *)
Inductive Action :=
| Start
| Stop
| Tick (id : nat)
| Clock (now : R)
| BpmChange (value : R)
| AddChannel
| LoadSample (fileName : string) (buffer : AudioBuffer.t)
| StepClick (idx i : nat)
| RowClick (idx : nat)
| PianoClick (x y : R)
| FaderMove (i : nat) (val : R)
| MidiMessage (cmd : nat) (note vel : R)
| DocumentClick.

Definition quiet (d : DAW.t) : option (DAW.t * list Sequencer.Event) := Some (d, []).

(** One task.  A timer that is not pending does not fire, a step button
    exists for [i < DAW.stepCount] only. *)
Definition react (fuel : nat) (a : Action) (d : DAW.t)
    : option (DAW.t * list Sequencer.Event) :=
  match a with
  | Start => Sequencer.start fuel d
  | Stop => quiet (Sequencer.stop d)
  | Tick id =>
      if decide (id ∈ Window.timers (DAW.window d))
      then Sequencer.timeout fuel id d
      else quiet d
  | Clock now => quiet (DAW.set_ctx (AudioContext.at_time now (DAW.ctx d)) d)
  | BpmChange value => quiet (UIManager.bpmChange value d)
  | AddChannel => quiet (UIManager.addChannelClick d)
  | LoadSample fileName buffer => quiet (FileLoader.loadSample fileName buffer d)
  | StepClick idx i =>
      if decide (i < DAW.stepCount d)%nat
      then quiet (UIManager.stepClick idx i d)
      else quiet d
  | RowClick idx => quiet (UIManager.rowClick idx d)
  | PianoClick x y => quiet (PianoRoll.handleInput x y d)
  | FaderMove i val => quiet (UIManager.faderMove i val d)
  | MidiMessage cmd note vel => quiet (Midi.onmidimessage cmd note vel d)
  | DocumentClick => quiet (AudioEngine.resumeOnClick d)
  end.

(** A sequence of tasks, with all the events the scheduler emits. *)
Fixpoint run (fuel : nat) (actions : list Action) (d : DAW.t)
    : option (DAW.t * list Sequencer.Event) :=
  match actions with
  | [] => Some (d, [])
  | a :: rest =>
      match react fuel a d with
      | Some (d', evs) =>
          match run fuel rest d' with
          | Some (d'', evs') => Some (d'', evs ++ evs')
          | None => None
          end
      | None => None
      end
  end.

(** The states of an initialised engine. *)
Inductive reachable : DAW.t -> Prop :=
| reach_init randomSnare randomHat sampleRate :
    reachable (AudioEngine.init randomSnare randomHat sampleRate)
| reach_react d a fuel d' evs :
    reachable d -> react fuel a d = Some (d', evs) -> reachable d'.

End Session.

(** * Vocabulary of the properties *)

(** A channel that makes a sound when played: a synth, or a sampler that has
    its buffer. *)
Definition sounding (ch : Channel.t) : Prop :=
  Channel.type ch = "synth" \/
  (Channel.type ch = "sampler" /\ is_Some (Channel.buffer ch)).

(** A sampler on insert 1 with a one-frame buffer at 2 Hz, which lasts 0.5 s. *)
Definition halfSecondSampler : Channel.t :=
  Channel.set_buffer (Some (AudioBuffer.mk 1 2 [0])) (Channel.new 0 "Kick" "sampler").


(** The call [scheduleNote] makes for a step flag that is set. *)
Definition stepHit (ch : Channel.t) (time : R) : Sequencer.PlayCall :=
  Sequencer.call ch time 0.1 60 1.0.

(** The call [scheduleNote] makes for a piano-roll note, of the given
    duration in seconds. *)
Definition noteCall (ch : Channel.t) (time seconds : R) (note : Note.t)
    : Sequencer.PlayCall :=
  Sequencer.call ch time seconds (Note.pitch note) (Note.velocity note).

(** The calls of [playNote] that [scheduleNote(stepNumber, time)] makes on
    one channel, in the order it makes them. *)
Definition channelCalls (d : DAW.t) (stepNumber : nat) (time : R) (ch : Channel.t)
    : list Sequencer.PlayCall :=
  (if JS.truthy (JS.get (Channel.steps ch) stepNumber) then [stepHit ch time] else [])
  ++ map (fun note => noteCall ch time (Note.duration note * (60 / DAW.tempo d / 4)) note)
         (filter (Sequencer.onStep stepNumber) (Channel.pianoRollNotes ch)).

(** All the calls of one [scheduleNote(stepNumber, time)]. *)
Definition scheduledCalls (d : DAW.t) (stepNumber : nat) (time : R)
    : list Sequencer.PlayCall :=
  flat_map (channelCalls d stepNumber time) (DAW.channels d).

(** One synth channel with a single one-step note on step 0, at 120 BPM. *)
Definition leadNote : Note.t := Note.mk 0 1 60 1.

Definition leadChannel : Channel.t :=
  Channel.set_pianoRollNotes [leadNote] (Channel.new 0 "Lead" "synth").

Definition leadSession : DAW.t :=
  UIManager.bpmChange 120 (DAW.set_channels [leadChannel] (DAW.literal 44100)).

(** The note [handleInput] pushes at a position. *)
Definition freshNote (pitch step : R) : Note.t := Note.mk step 1 pitch 1.0.

(** The note lists the piano roll builds: [handleInput] is the only writer
    of [pianoRollNotes], and the positions it computes are whole numbers. *)
Inductive drawn : list Note.t -> Prop :=
| drawn_nil : drawn []
| drawn_toggle notes (pitch step : Z) :
    drawn notes -> drawn (PianoRoll.toggle (IZR pitch) (IZR step) notes).

(** A note as [handleInput] makes them. *)
Definition gridNote (n : Note.t) : Prop :=
  exists pitch step : Z, n = freshNote (IZR pitch) (IZR step).

(** What the scheduling loop may change: the voices on the context, the
    step cursor and the next-event timestamp; [advanced d voices step next]
    is [d] with these three replaced. *)
Definition advanced (d : DAW.t) (voices : list Voice) (step : nat) (next : R) : DAW.t :=
  DAW.mk (AudioContext.mk (AudioContext.currentTime (DAW.ctx d))
                          (AudioContext.suspended (DAW.ctx d))
                          (AudioContext.sampleRate (DAW.ctx d)) voices)
         (DAW.isPlaying d) (DAW.tempo d) step next (DAW.lookahead d)
         (DAW.scheduleAheadTime d) (DAW.timerID d) (DAW.channels d)
         (DAW.mixerTracks d) (DAW.selectedChannelIndex d) (DAW.stepCount d)
         (DAW.window d).

(** The [k]-th event of a run that started at [t0]: step [k mod stepCount],
    [k] step durations after [t0]. *)
Definition eventAt (stepCount : nat) (t0 stepDuration : R) (k : nat) : Sequencer.Event :=
  ((k mod stepCount)%nat, t0 + INR k * stepDuration).

(** The tasks that leave a running transport running at its tempo. *)
Definition keepsTempo (a : Session.Action) : Prop :=
  match a with
  | Session.Stop | Session.BpmChange _ => False
  | _ => True
  end.

(** The transport fields of two states agree. *)
Definition sameTransport (d d' : DAW.t) : Prop :=
  DAW.tempo d' = DAW.tempo d
  /\ DAW.stepCount d' = DAW.stepCount d
  /\ DAW.currentStep d' = DAW.currentStep d
  /\ DAW.nextNoteTime d' = DAW.nextNoteTime d
  /\ DAW.isPlaying d' = DAW.isPlaying d
  /\ DAW.scheduleAheadTime d' = DAW.scheduleAheadTime d
  /\ DAW.timerID d' = DAW.timerID d
  /\ DAW.window d' = DAW.window d.

(** A running transport that has emitted [n] events since it started at
    [t0]: the cursor and the next timestamp are those of event [n]. *)
Definition onGrid (stepCount : nat) (tempo t0 : R) (n : nat) (d : DAW.t) : Prop :=
  DAW.tempo d = tempo
  /\ DAW.stepCount d = stepCount
  /\ DAW.currentStep d = (n mod stepCount)%nat
  /\ DAW.nextNoteTime d = t0 + INR n * (0.25 * (60 / tempo))
  /\ DAW.isPlaying d = true.

(** Channels sit at the index of their id and are routed by it. *)
Definition routedById (channels : list Channel.t) : Prop :=
  forall idx ch,
    channels !! idx = Some ch ->
    Channel.id ch = idx /\ Channel.targetMixerTrack ch = (idx mod 16 + 1)%nat.

(** Every channel of [channels] is still there in [channels'], with its
    route. *)
Definition keepsRoutes (channels channels' : list Channel.t) : Prop :=
  forall idx ch,
    channels !! idx = Some ch ->
    exists ch',
      channels' !! idx = Some ch'
      /\ Channel.targetMixerTrack ch' = Channel.targetMixerTrack ch.

(** The mixer of [AudioEngine.init]: the master and 16 inserts, each at the
    position of its index. *)
Definition mixerOf17 (mixerTracks : list MixerTrack.t) : Prop :=
  length mixerTracks = 17%nat
  /\ forall j track, mixerTracks !! j = Some track -> MixerTrack.index track = j.

(** At most the timer of [DAW.timerID] is pending, and none when the
    transport is stopped. *)
Definition oneTimer (d : DAW.t) : Prop :=
  (forall id, id ∈ Window.timers (DAW.window d) -> DAW.timerID d = Some id)
  /\ (DAW.isPlaying d = false -> Window.timers (DAW.window d) = ∅).

(** What holds of every state of an initialised engine. *)
Definition wellFormed (d : DAW.t) : Prop :=
  routedById (DAW.channels d)
  /\ mixerOf17 (DAW.mixerTracks d)
  /\ oneTimer d
  /\ DAW.stepCount d = 16%nat
  /\ DAW.scheduleAheadTime d = 0.1
  /\ Forall (fun ch => drawn (Channel.pianoRollNotes ch)) (DAW.channels d).

(** The engine right after [AudioEngine.init] at 44100 Hz, the noise of the
    snare and of the hat being any fixed draw. *)
Definition freshEngine : DAW.t :=
  AudioEngine.init (fun _ => 0.5) (fun _ => 0.5) 44100.

(** * More of the engine *)

(** ** The mixer graph *)

Module MixerGraph.

(** The last [connect] of [new MixerTrack(index)]: the analyser of the new
    track goes to the input of [DAW.mixerTracks[0]] when [index > 0] and
    that track exists, and to the master gain otherwise. *)
Definition analyserTarget (mixerTracks : list MixerTrack.t) (index : nat)
    : Destination :=
  if decide (0 < index)%nat then
    match mixerTracks !! 0%nat with
    | Some master => MixerTrack.input master
    | None => MasterGain
    end
  else MasterGain.

(** The loop [for (let i = 0; i <= 16; i++)] of [AudioEngine.init], run for
    [i < count]: each track is built against the tracks pushed before it,
    and kept here with the node its analyser was connected to. *)
Definition setup (count : nat) : list (MixerTrack.t * Destination) :=
  fold_left
    (fun built i => built ++ [(MixerTrack.new i, analyserTarget (map fst built) i)])
    (seq 0 count) [].

End MixerGraph.

(** ** The mixer view *)

Module MixerView.

(** The value of the fader under the pointer:
    [1 - (ev.clientY - rect.top) / rect.height]. *)
Definition faderValue (clientY top height : R) : R :=
  1 - (clientY - top) / height.

(** The [mousemove] handler of the fader of strip [i]. *)
Definition faderDrag (i : nat) (clientY top height : R) (d : DAW.t) : DAW.t :=
  UIManager.faderMove i (faderValue clientY top height) d.

(** The height of a level meter, in percent, from the bytes of
    [getByteFrequencyData]: [avg / 255 * 100] with
    [avg = tempArray.reduce((a, b) => a + b) / tempArray.length]. *)
Definition meterHeight (tempArray : list nat) : R :=
  let avg := INR (fold_left Nat.add tempArray 0%nat) / INR (length tempArray) in
  avg / 255 * 100.

End MixerView.

(** ** The transport display *)

Module Transport.

(** The position [scheduleNote] writes on the display:
    [bar.beat.sixteenth]. *)
Definition position (stepNumber : nat) : nat * nat * nat :=
  let bar := (stepNumber / 16 + 1)%nat in
  let beat := ((stepNumber mod 16) / 4 + 1)%nat in
  let sixteenth := (stepNumber mod 4 + 1)%nat in
  (bar, beat, sixteenth).

End Transport.

(** ** The piano-roll canvas *)

Module Canvas.

(** [resize()]: 4 bars of 16 steps, the keys 84 down to 36. *)
Definition width : R := 16 * 4 * PianoRoll.zoomX.
Definition height : R := (84 - 36 + 1) * PianoRoll.zoomY.

(** A rectangle [(x, y, width, height)] as [fillRect] takes it. *)
Record Rect := rect {
  left : R;
  top : R;
  wide : R;
  high : R
}.

(** The rectangle [render()] fills for a note. *)
Definition noteRect (note : Note.t) : Rect :=
  let y := (84 - Note.pitch note) * PianoRoll.zoomY in
  let x := Note.start note * PianoRoll.zoomX in
  let width := Note.duration note * PianoRoll.zoomX in
  rect x y width (PianoRoll.zoomY - 1).

(** The point [(x, y)] is on the rectangle. *)
Definition covers (r : Rect) (x y : R) : Prop :=
  left r <= x < left r + wide r /\ top r <= y < top r + high r.

(** The cell [handleInput] reads at a point of the canvas. *)
Definition stepAt (x : R) : R := IZR (Int_part (x / PianoRoll.zoomX)).
Definition pitchAt (y : R) : R := 84 - IZR (Int_part (y / PianoRoll.zoomY)).

End Canvas.

(** ** Vocabulary of the further properties *)

(** The automation times of a gain, in the order the calls were made. *)
Definition eventTime (e : ParamEvent) : R :=
  match e with
  | setValueAtTime _ t => t
  | linearRampToValueAtTime _ t => t
  | exponentialRampToValueAtTime _ t => t
  end.

Definition automationTimes (g : GainParam) : list R :=
  match g with
  | GainValue _ => []
  | GainAutomation events => map eventTime events
  end.

(** Times that never go back. *)
Fixpoint chronological (times : list R) : Prop :=
  match times with
  | t1 :: ((t2 :: _) as rest) => t1 <= t2 /\ chronological rest
  | _ => True
  end.

(** Every slot of a step array holds a boolean. *)
Definition allFlags (steps : JS.array) : Prop :=
  Forall (fun slot => is_Some slot) steps.

(** The rack is in step with the transport: the cursor is inside the
    pattern, and every channel has one boolean flag per step. *)
Definition rackInStep (d : DAW.t) : Prop :=
  (DAW.currentStep d < DAW.stepCount d)%nat
  /\ Forall (fun ch => length (Channel.steps ch) = DAW.stepCount d
                       /\ allFlags (Channel.steps ch))
            (DAW.channels d).

(** While the transport plays exactly the timer of [DAW.timerID] is
    pending. *)
Definition tickPending (d : DAW.t) : Prop :=
  DAW.isPlaying d = true ->
  exists id,
    DAW.timerID d = Some id /\ Window.timers (DAW.window d) = {[id]}.

(** The draws of [Math.random()] lie in [0, 1). *)
Definition unitDraws (random : nat -> R) : Prop :=
  forall i, 0 <= random i < 1.

(** The look-ahead loop is armed: the timer of [DAW.timerID] is pending. *)
Definition armed (d : DAW.t) : Prop :=
  exists id, DAW.timerID d = Some id /\ id ∈ Window.timers (DAW.window d).

(** The tasks that keep a session in the range the embedding describes: a
    tempo entered is positive, the audio clock is not negative, an imported
    buffer has a duration that is not negative. *)
Definition inRange (a : Session.Action) : Prop :=
  match a with
  | Session.BpmChange value => 0 < value
  | Session.Clock now => 0 <= now
  | Session.LoadSample _ buffer => 0 <= AudioBuffer.duration buffer
  | _ => True
  end.

(** One round of the loop of [scheduler()]. *)
Definition round (d : DAW.t) : DAW.t :=
  Sequencer.nextStep
    (Sequencer.scheduleNote (DAW.currentStep d) (DAW.nextNoteTime d) d).

(** A pattern with nothing to play: no step is set and no note is drawn, so
    [scheduleNote] makes no call, whatever the step. *)
Definition emptyPattern (d : DAW.t) : Prop :=
  forall stepNumber time, scheduledCalls d stepNumber time = [].

(** The numbers of an engine in that range: a positive tempo, an audio
    clock and a next timestamp that are not negative. *)
Definition inRangeState (d : DAW.t) : Prop :=
  0 < DAW.tempo d
  /\ 0 <= AudioContext.currentTime (DAW.ctx d)
  /\ 0 <= DAW.nextNoteTime d.
(** * Properties *)

(** ** Voices of [playNote] *)

Lemma playNote_sampler mixerTracks ctx ch buf time duration pitch velocity :
  Channel.type ch = "sampler" ->
  Channel.buffer ch = Some buf ->
  Channel.playNote mixerTracks ctx ch time duration pitch velocity =
  AudioContext.connect
    (Channel.samplerVoice ch buf (Channel.route mixerTracks ch) time pitch velocity)
    ctx.
Proof.
  intros Hty Hbuf. unfold Channel.playNote. now rewrite Hty, Hbuf.
Qed.

Lemma playNote_synth mixerTracks ctx ch time duration pitch velocity :
  Channel.type ch = "synth" ->
  Channel.playNote mixerTracks ctx ch time duration pitch velocity =
  AudioContext.connect
    (Channel.synthVoice ch (Channel.route mixerTracks ch) time duration pitch velocity)
    ctx.
Proof.
  intros Hty. unfold Channel.playNote. now rewrite Hty.
Qed.

Lemma playNote_silent mixerTracks ctx ch time duration pitch velocity :
  Channel.type ch = "sampler" ->
  Channel.buffer ch = None ->
  Channel.playNote mixerTracks ctx ch time duration pitch velocity = ctx.
Proof.
  intros Hty Hbuf. unfold Channel.playNote. now rewrite Hty, Hbuf.
Qed.

(** What [playNote] leaves alone on the context: it only adds voices. *)
Lemma playNote_voices mixerTracks ctx ch time duration pitch velocity :
  exists new,
    Channel.playNote mixerTracks ctx ch time duration pitch velocity =
    AudioContext.mk (AudioContext.currentTime ctx) (AudioContext.suspended ctx)
                    (AudioContext.sampleRate ctx) (AudioContext.voices ctx ++ new)
    /\ (length new <= 1)%nat
    /\ Forall (fun v => dest v = Channel.route mixerTracks ch) new.
Proof.
  unfold Channel.playNote.
  destruct (String.eqb (Channel.type ch) "sampler"), (Channel.buffer ch),
    (String.eqb (Channel.type ch) "synth");
    first [ eexists [_]; split; [reflexivity | split; [simpl; lia | repeat constructor]]
          | exists []; split; [destruct ctx; simpl; now rewrite app_nil_r
                              | split; [simpl; lia | constructor]] ].
Qed.

Lemma set_ctx_same d : DAW.set_ctx (DAW.ctx d) d = d.
Proof. now destruct d. Qed.

(** C2: on a sampler channel that has its buffer, [playNote] builds one
    voice whose playback rate is [2^((p + (n - 60)) / 12)], [p] the pitch
    offset of the channel and [n] the pitch of the note; the voice starts at
    [time] and stops at [time + bufferDuration / playbackRate].  At offset 0
    pitch 72 gives rate 2 (a 0.5 s buffer stops 0.25 s after its start) and
    pitch 60 gives rate 1. *)
Theorem playNote_sampler_playbackRate
    mixerTracks ctx ch buf (time duration n velocity : R) :
  Channel.type ch = "sampler" ->
  Channel.buffer ch = Some buf ->
  let p := Channel.pitch ch in
  let rate := Rpower 2 ((p + (n - 60)) / 12) in
  exists v,
    AudioContext.voices
      (Channel.playNote mixerTracks ctx ch time duration n velocity)
    = AudioContext.voices ctx ++ [v]
    /\ source v = BufferSource buf rate
    /\ startAt v = time
    /\ stopAt v = time + AudioBuffer.duration buf / rate
    /\ (p = 0 -> n = 72 ->
        rate = 2 /\ (AudioBuffer.duration buf = 0.5 -> stopAt v = time + 0.25))
    /\ (p = 0 -> n = 60 -> rate = 1).
Proof.
  intros Hty Hbuf p rate.
  rewrite (playNote_sampler _ _ _ buf) by assumption.
  eexists. split; [reflexivity |].
  assert (H72 : p = 0 -> n = 72 -> rate = 2).
  { subst rate. intros -> ->.
    replace ((0 + (72 - 60)) / 12) with 1 by lra.
    apply Rpower_1; lra. }
  repeat split.
  - now apply H72.
  - intros Hd. simpl. unfold JS.Math_pow. fold p. fold rate.
    rewrite Hd, H72 by assumption. lra.
  - subst rate. intros -> ->.
    replace ((0 + (60 - 60)) / 12) with 0 by lra.
    apply Rpower_O; lra.
Qed.

Lemma playNote_sampler_playbackRate_witness :
  exists v,
    AudioContext.voices
      (Channel.playNote [] (AudioContext.mk 0 false 2 []) halfSecondSampler 1 0.1 72 1)
    = [] ++ [v]
    /\ source v = BufferSource (AudioBuffer.mk 1 2 [0]) (Rpower 2 ((0 + (72 - 60)) / 12))
    /\ stopAt v = 1 + 0.25.
Proof.
  destruct (playNote_sampler_playbackRate [] (AudioContext.mk 0 false 2 [])
              halfSecondSampler (AudioBuffer.mk 1 2 [0]) 1 0.1 72 1
              eq_refl eq_refl) as (v & Hv & Hsrc & _ & _ & H72 & _).
  exists v. split; [exact Hv | split; [exact Hsrc |]].
  destruct (H72 eq_refl eq_refl) as [_ Hstop].
  apply Hstop. unfold AudioBuffer.duration, AudioBuffer.frames. simpl. lra.
Defined.

(** C4: on a sampler channel without a buffer [playNote] does nothing: the
    context comes back as it was, with no voice added, so nothing reaches a
    mixer track, and the engine state around it is the one before the call. *)
Theorem playNote_sampler_without_buffer
    (d : DAW.t) ch (time duration pitch velocity : R) :
  Channel.type ch = "sampler" ->
  Channel.buffer ch = None ->
  let ctx' := Channel.playNote (DAW.mixerTracks d) (DAW.ctx d) ch
                time duration pitch velocity in
  ctx' = DAW.ctx d
  /\ AudioContext.voices ctx' = AudioContext.voices (DAW.ctx d)
  /\ DAW.set_ctx ctx' d = d.
Proof.
  intros Hty Hbuf ctx'. subst ctx'.
  rewrite playNote_silent by assumption.
  repeat split. apply set_ctx_same.
Qed.

Lemma playNote_sampler_without_buffer_witness :
  let d := DAW.literal 44100 in
  let ch := Channel.new 0 "clap.wav" "sampler" in
  DAW.set_ctx (Channel.playNote (DAW.mixerTracks d) (DAW.ctx d) ch 0 0.1 60 1) d = d.
Proof.
  intros d ch.
  exact (proj2 (proj2 (playNote_sampler_without_buffer d ch 0 0.1 60 1
                         eq_refl eq_refl))).
Defined.



(** ** Step buttons *)

Lemma get_set (a : JS.array) (i : nat) (v : bool) :
  JS.get (JS.set a i v) i = Some v.
Proof.
  unfold JS.get, JS.set. destruct (decide (i < length a)%nat) as [Hlt | Hge].
  - now rewrite list_lookup_insert_eq.
  - rewrite lookup_app_r by lia.
    rewrite lookup_app_r by (rewrite length_replicate; lia).
    rewrite length_replicate.
    now replace (i - length a - (i - length a))%nat with 0%nat by lia.
Qed.

Lemma get_Some_lookup (a : JS.array) (i : nat) (b : bool) :
  JS.get a i = Some b -> a !! i = Some (Some b).
Proof.
  unfold JS.get. destruct (a !! i) as [[b' |] |]; congruence.
Qed.

Lemma set_same (a : JS.array) (i : nat) (b : bool) :
  JS.get a i = Some b -> JS.set a i b = a.
Proof.
  intros Hget. apply get_Some_lookup in Hget.
  unfold JS.set. pose proof (lookup_lt_Some _ _ _ Hget).
  destruct (decide (i < length a)%nat); [| lia].
  now apply list_insert_id.
Qed.

Lemma set_set (a : JS.array) (i : nat) (v w : bool) :
  (i < length a)%nat -> JS.set (JS.set a i v) i w = JS.set a i w.
Proof.
  intros Hlt. unfold JS.set.
  destruct (decide (i < length a)%nat); [| lia].
  rewrite length_insert.
  destruct (decide (i < length a)%nat); [| lia].
  apply list_insert_insert_eq.
Qed.

Lemma toggleSteps_get (steps : JS.array) (i : nat) :
  JS.get (UIManager.toggleSteps i steps) i = Some (negb (JS.truthy (JS.get steps i))).
Proof. apply get_set. Qed.

Lemma toggleSteps_twice (steps : JS.array) (i : nat) :
  is_Some (JS.get steps i) ->
  UIManager.toggleSteps i (UIManager.toggleSteps i steps) = steps.
Proof.
  intros [b Hb]. unfold UIManager.toggleSteps at 1.
  rewrite toggleSteps_get. unfold UIManager.toggleSteps.
  rewrite set_set by (apply get_Some_lookup in Hb; eapply lookup_lt_Some; eauto).
  rewrite Hb. simpl. rewrite negb_involutive. now apply set_same.
Qed.

Lemma set_steps_same ch : Channel.set_steps (Channel.steps ch) ch = ch.
Proof. now destruct ch. Qed.

Lemma set_steps_set_steps s s' ch :
  Channel.set_steps s (Channel.set_steps s' ch) = Channel.set_steps s ch.
Proof. reflexivity. Qed.

Lemma set_channels_same d : DAW.set_channels (DAW.channels d) d = d.
Proof. now destruct d. Qed.

(** C6: clicking step [i] of a channel twice brings its flag back.  The flag
    read after the two clicks is the value the original one had, and when
    the slot held a boolean, as every slot of a rack does, the array and the
    whole engine state are the ones before the clicks. *)
Theorem step_toggle_involution (steps : JS.array) (i : nat) :
  let twice := UIManager.toggleSteps i (UIManager.toggleSteps i steps) in
  JS.get twice i = Some (JS.truthy (JS.get steps i))
  /\ (forall b, JS.get steps i = Some b -> JS.get twice i = Some b /\ twice = steps)
  /\ (forall d idx ch,
        DAW.channels d !! idx = Some ch ->
        Channel.steps ch = steps ->
        is_Some (JS.get steps i) ->
        UIManager.stepClick idx i (UIManager.stepClick idx i d) = d).
Proof.
  intros twice. split; [| split].
  - subst twice. rewrite toggleSteps_get, toggleSteps_get. simpl.
    now rewrite negb_involutive.
  - intros b Hb. subst twice. rewrite toggleSteps_twice by eauto. now split.
  - intros d idx ch Hch Hsteps Hsome.
    pose proof (lookup_lt_Some _ _ _ Hch) as Hlt.
    unfold UIManager.stepClick at 2. rewrite Hch.
    unfold UIManager.stepClick. simpl.
    rewrite list_lookup_insert_eq by assumption. simpl.
    rewrite Hsteps, toggleSteps_twice by assumption.
    rewrite list_insert_insert_eq, set_steps_set_steps.
    rewrite <- Hsteps, set_steps_same, list_insert_id by assumption.
    now destruct d.
Qed.

Lemma step_toggle_involution_witness :
  let d := DAW.set_channels [Channel.new 0 "Kick" "sampler"] (DAW.literal 44100) in
  UIManager.stepClick 0 3 (UIManager.stepClick 0 3 d) = d.
Proof.
  intros d.
  refine (proj2 (proj2 (step_toggle_involution (JS.filled 16 false) 3))
            d 0%nat (Channel.new 0 "Kick" "sampler") eq_refl eq_refl _).
  exists false. reflexivity.
Defined.

(** ** Procedural samples *)

Section Filling.

Variable sample : nat -> R.

Lemma fill_from_length (n s : nat) (data : list R) :
  length (fold_left (fun d i => <[i := sample i]> d) (seq s n) data) = length data.
Proof.
  revert s data. induction n as [| n IH]; intros s data; simpl; [reflexivity |].
  rewrite IH. apply length_insert.
Qed.

Lemma fill_from_lookup (n s : nat) (data : list R) (j : nat) :
  (j < length data)%nat ->
  fold_left (fun d i => <[i := sample i]> d) (seq s n) data !! j =
  if decide (s <= j < s + n)%nat then Some (sample j) else data !! j.
Proof.
  revert s data. induction n as [| n IH]; intros s data Hj; simpl.
  - destruct (decide (s <= j < s + 0)%nat); [lia | reflexivity].
  - rewrite IH by (now rewrite length_insert).
    destruct (decide (S s <= j < S s + n)%nat);
      destruct (decide (s <= j < s + S n)%nat); try lia; try reflexivity.
    + assert (j = s) by lia. subst j. now apply list_lookup_insert_eq.
    + apply list_lookup_insert_ne. lia.
Qed.

End Filling.

Lemma rounds_spec (len : R) (i : nat) :
  (i < ProceduralAudio.rounds len)%nat <-> INR i < len.
Proof.
  unfold ProceduralAudio.rounds.
  destruct (base_Int_part (- len)) as [Hle Hgt].
  rewrite INR_IZR_INZ. split.
  - intros Hi.
    assert (Hz : (Z.of_nat i + 1 <= - Int_part (- len))%Z) by lia.
    apply IZR_le in Hz. rewrite plus_IZR, opp_IZR in Hz. lra.
  - intros Hi.
    assert (Hz : IZR (Z.of_nat i) < IZR (- Int_part (- len)))
      by (rewrite opp_IZR; lra).
    apply lt_IZR in Hz. lia.
Qed.

Lemma fill_length len sample data :
  length (ProceduralAudio.fill len sample data) = length data.
Proof. apply fill_from_length. Qed.

(** The loop writes [sample i] at every index below [length] that the array
    has, and leaves the others. *)
Lemma fill_lookup len sample data (j : nat) :
  (j < length data)%nat ->
  ProceduralAudio.fill len sample data !! j =
  if Rlt_dec (INR j) len then Some (sample j) else data !! j.
Proof.
  intros Hj. unfold ProceduralAudio.fill. rewrite fill_from_lookup by assumption.
  destruct (decide (0 <= j < 0 + ProceduralAudio.rounds len)%nat) as [Hin | Hout];
    destruct (Rlt_dec (INR j) len) as [Hlt | Hnlt]; try reflexivity.
  - exfalso. apply Hnlt. apply rounds_spec. lia.
  - exfalso. apply Hout. apply rounds_spec in Hlt. lia.
Qed.

Lemma createBuffer_frames len sampleRate (n : nat) :
  INR n <= len < INR n + 1 ->
  AudioBuffer.frames (ProceduralAudio.createBuffer len sampleRate) = n.
Proof.
  intros Hn. unfold AudioBuffer.frames, ProceduralAudio.createBuffer. simpl.
  rewrite length_replicate.
  rewrite <- (Int_part_spec len (Z.of_nat n)); [apply Nat2Z.id |].
  rewrite <- INR_IZR_INZ. lra.
Qed.

(** The kick: one channel, [sampleRate * 0.5] frames when that is a whole
    number, and the swept sine under its envelope at every frame. *)
Lemma generate_kick random sampleRate (n : nat) :
  INR n = sampleRate * 0.5 ->
  let b := ProceduralAudio.generate random sampleRate "kick" in
  AudioBuffer.numberOfChannels b = 1%nat
  /\ AudioBuffer.sampleRate b = sampleRate
  /\ AudioBuffer.frames b = n
  /\ forall i, (i < n)%nat ->
       let t := INR i / sampleRate in
       AudioBuffer.data b !! i =
       Some (sin (2 * PI * (150 * exp (- 15 * t)) * t) * exp (- 5 * t)).
Proof.
  intros Hn b.
  assert (Hframes : AudioBuffer.frames
                      (ProceduralAudio.createBuffer (sampleRate * 0.5) sampleRate) = n)
    by (apply createBuffer_frames; lra).
  subst b. unfold ProceduralAudio.generate. simpl (String.eqb _ _). cbv iota.
  split; [reflexivity |]. split; [reflexivity |]. split.
  - unfold AudioBuffer.frames. simpl. now rewrite fill_length.
  - intros i Hi. simpl.
    rewrite fill_lookup by (unfold AudioBuffer.frames in Hframes; simpl in Hframes;
                            rewrite Hframes; exact Hi).
    apply lt_INR in Hi.
    destruct (Rlt_dec (INR i) (sampleRate * 0.5)) as [_ | Hn']; [| lra].
    unfold ProceduralAudio.kickSample. set (t := INR i / sampleRate).
    replace (- t * 15) with (- 15 * t) by lra.
    replace (- t * 5) with (- 5 * t) by lra.
    reflexivity.
Qed.

(** The frames of a hat: noise under its envelope below [sampleRate * 0.1],
    and the zero the buffer was created with from there on. *)
Lemma generate_hat_lookup random sampleRate (i : nat) :
  let b := ProceduralAudio.generate random sampleRate "hat" in
  AudioBuffer.frames b =
    AudioBuffer.frames (ProceduralAudio.createBuffer (sampleRate * 0.5) sampleRate)
  /\ ((i < AudioBuffer.frames b)%nat ->
      AudioBuffer.data b !! i =
      Some (if Rlt_dec (INR i) (sampleRate * 0.1)
            then (random i * 2 - 1) * exp (- (INR i / sampleRate) * 40)
            else 0)).
Proof.
  intros b. subst b. unfold ProceduralAudio.generate. simpl (String.eqb _ _).
  cbv iota. unfold AudioBuffer.frames. simpl. rewrite fill_length. split; [reflexivity |].
  intros Hi. rewrite fill_lookup by exact Hi.
  destruct (Rlt_dec (INR i) (sampleRate * 0.1)); [reflexivity |].
  rewrite length_replicate in Hi.
  apply lookup_replicate. now split.
Qed.

(** C7, the hat at 44100 Hz: the buffer [generate] returns is the one it
    created before it shortened [length], so it has 22050 frames and lasts
    0.5 s, not 0.1 s.  The noise under [e^(-40t)] fills the first 4410
    frames, and the frames from 4410 on are the zeros of the new buffer. *)
Theorem generate_hat_buffer (random : nat -> R) :
  let b := ProceduralAudio.generate random 44100 "hat" in
  AudioBuffer.frames b = Z.to_nat 22050
  /\ AudioBuffer.frames b <> Z.to_nat 4410
  /\ AudioBuffer.duration b = 0.5
  /\ AudioBuffer.duration b <> 0.1
  /\ (forall i, INR i < 4410 ->
        AudioBuffer.data b !! i =
        Some ((random i * 2 - 1) * exp (- (INR i / 44100) * 40)))
  /\ (forall i, 4410 <= INR i < 22050 -> AudioBuffer.data b !! i = Some 0).
Proof.
  intros b.
  assert (H22050 : INR (Z.to_nat 22050) = 22050)
    by (rewrite INR_IZR_INZ, Z2Nat.id by lia; reflexivity).
  assert (Hframes : AudioBuffer.frames b = Z.to_nat 22050).
  { subst b. rewrite (proj1 (generate_hat_lookup random 44100 0)).
    apply createBuffer_frames. rewrite H22050. lra. }
  assert (Hdur : AudioBuffer.duration b = 0.5).
  { unfold AudioBuffer.duration. rewrite Hframes, H22050.
    subst b. unfold ProceduralAudio.generate. simpl. lra. }
  split; [exact Hframes |]. split; [rewrite Hframes; lia |].
  split; [exact Hdur |]. split; [rewrite Hdur; lra |].
  assert (Hin : forall i, INR i < 22050 -> (i < AudioBuffer.frames b)%nat).
  { intros i Hi. rewrite Hframes. apply INR_lt. now rewrite H22050. }
  split.
  - intros i Hi. subst b.
    rewrite (proj2 (generate_hat_lookup random 44100 i)) by (apply Hin; lra).
    destruct (Rlt_dec (INR i) (44100 * 0.1)); [reflexivity | lra].
  - intros i Hi. subst b.
    rewrite (proj2 (generate_hat_lookup random 44100 i)) by (apply Hin; lra).
    destruct (Rlt_dec (INR i) (44100 * 0.1)); [lra | reflexivity].
Qed.

Lemma generate_hat_buffer_witness :
  let b := ProceduralAudio.generate (fun _ => 0.5) 44100 "hat" in
  AudioBuffer.duration b = 0.5
  /\ AudioBuffer.data b !! 0%nat = Some ((0.5 * 2 - 1) * exp (- (INR 0 / 44100) * 40))
  /\ AudioBuffer.data b !! Z.to_nat 4410 = Some 0.
Proof.
  intros b.
  destruct (generate_hat_buffer (fun _ => 0.5)) as (_ & _ & Hdur & _ & Hnoise & Hzero).
  split; [exact Hdur |]. split.
  - apply Hnoise. simpl. lra.
  - apply Hzero. rewrite INR_IZR_INZ, Z2Nat.id by lia. lra.
Defined.

(** ** The calls of [scheduleNote] *)

Lemma fold_left_flat_map {A B C} (f : A -> C -> A) (g : B -> list C) (l : list B) (a : A) :
  fold_left f (flat_map g l) a = fold_left (fun a x => fold_left f (g x) a) l a.
Proof.
  revert a. induction l as [| x l IH]; intros a; simpl; [reflexivity |].
  now rewrite fold_left_app, IH.
Qed.

Lemma scheduleChannel_calls d stepNumber time ctx ch :
  Sequencer.scheduleChannel d stepNumber time ctx ch =
  fold_left (Sequencer.perform (DAW.mixerTracks d)) (channelCalls d stepNumber time ch) ctx.
Proof.
  unfold Sequencer.scheduleChannel, channelCalls.
  rewrite fold_left_app.
  set (ctx1 := fold_left _ (if JS.truthy _ then _ else _) ctx).
  assert (Hhit : (if JS.truthy (JS.get (Channel.steps ch) stepNumber)
                  then Channel.playNote (DAW.mixerTracks d) ctx ch time 0.1 60 1.0
                  else ctx) = ctx1)
    by (subst ctx1; now destruct (JS.truthy _)).
  rewrite Hhit. clearbody ctx1. clear Hhit.
  revert ctx1. induction (Channel.pianoRollNotes ch) as [| note notes IH]; intros ctx1.
  - reflexivity.
  - rewrite filter_cons. simpl.
    destruct (decide (Sequencer.onStep stepNumber note)); simpl; apply IH.
Qed.

Lemma scheduleNote_ctx d stepNumber time :
  DAW.ctx (Sequencer.scheduleNote stepNumber time d) =
  fold_left (Sequencer.perform (DAW.mixerTracks d)) (scheduledCalls d stepNumber time)
            (DAW.ctx d).
Proof.
  unfold Sequencer.scheduleNote, scheduledCalls. simpl.
  rewrite fold_left_flat_map.
  generalize (DAW.ctx d) as ctx.
  induction (DAW.channels d) as [| ch chs IH]; intros ctx; simpl; [reflexivity |].
  now rewrite scheduleChannel_calls, IH.
Qed.

Lemma in_channelCalls d stepNumber time ch c :
  In c (channelCalls d stepNumber time ch) <->
  (JS.truthy (JS.get (Channel.steps ch) stepNumber) = true /\ c = stepHit ch time)
  \/ (exists note,
        In note (Channel.pianoRollNotes ch)
        /\ Sequencer.onStep stepNumber note
        /\ c = noteCall ch time (Note.duration note * (60 / DAW.tempo d / 4)) note).
Proof.
  unfold channelCalls. rewrite in_app_iff, in_map_iff. split.
  - intros [Hhit | (note & Hc & Hin)].
    + left. destruct (JS.truthy _); simpl in Hhit; [| tauto].
      destruct Hhit as [Hc | []]. now split.
    + right. exists note. apply list_elem_of_In, list_elem_of_filter in Hin.
      destruct Hin as [Hon Hin]. apply list_elem_of_In in Hin. now repeat split.
  - intros [[Hflag Hc] | (note & Hin & Hon & Hc)].
    + left. rewrite Hflag. simpl. now left.
    + right. exists note. split; [now symmetry |].
      apply list_elem_of_In, list_elem_of_filter. split; [exact Hon |].
      now apply list_elem_of_In.
Qed.

(** C3, as the code has it: [scheduleNote(stepNumber, time)] plays, in
    order, the calls of [scheduledCalls].  On every channel, every
    piano-roll note whose start is less than 0.01 away from the step is
    played at [time] for [note.duration * stepDuration] seconds, where
    [stepDuration = 0.25 * (60 / tempo)], with its own pitch and velocity; a
    step flag that is set is played at [time] for 0.1 s at pitch 60 and
    velocity 1; and nothing else is played. *)
Theorem scheduleNote_calls (d : DAW.t) (stepNumber : nat) (time : R) :
  let stepDuration := 0.25 * (60 / DAW.tempo d) in
  DAW.ctx (Sequencer.scheduleNote stepNumber time d) =
    fold_left (Sequencer.perform (DAW.mixerTracks d))
              (scheduledCalls d stepNumber time) (DAW.ctx d)
  /\ forall c,
       In c (scheduledCalls d stepNumber time) <->
       exists ch,
         In ch (DAW.channels d)
         /\ ((JS.truthy (JS.get (Channel.steps ch) stepNumber) = true
              /\ c = Sequencer.call ch time 0.1 60 1)
             \/ (exists note,
                   In note (Channel.pianoRollNotes ch)
                   /\ Rabs (Note.start note - INR stepNumber) < 0.01
                   /\ c = Sequencer.call ch time (Note.duration note * stepDuration)
                            (Note.pitch note) (Note.velocity note))).
Proof.
  intros stepDuration. split; [apply scheduleNote_ctx |].
  intros c. unfold scheduledCalls. rewrite in_flat_map.
  assert (Hdur : forall note,
             Note.duration note * (60 / DAW.tempo d / 4) =
             Note.duration note * stepDuration)
    by (intros note; subst stepDuration; unfold Rdiv; lra).
  split.
  - intros (ch & Hch & Hc). exists ch. split; [exact Hch |].
    apply in_channelCalls in Hc as [[Hflag Hc] | (note & Hin & Hon & Hc)].
    + left. split; [exact Hflag |]. subst c. unfold stepHit. f_equal; lra.
    + right. exists note. split; [exact Hin |]. split; [exact Hon |].
      rewrite <- Hdur. exact Hc.
  - intros (ch & Hch & Hc). exists ch. split; [exact Hch |].
    apply in_channelCalls. destruct Hc as [[Hflag Hc] | (note & Hin & Hon & Hc)].
    + left. split; [exact Hflag |]. subst c. unfold stepHit. f_equal; lra.
    + right. exists note. split; [exact Hin |]. split; [exact Hon |].
      rewrite Hdur. exact Hc.
Qed.

Lemma leadNote_onStep : Sequencer.onStep 0 leadNote.
Proof.
  unfold Sequencer.onStep, JS.Math_abs, leadNote. simpl.
  rewrite Rminus_diag, Rabs_R0. lra.
Qed.

Lemma leadSession_voices :
  AudioContext.voices (DAW.ctx (Sequencer.scheduleNote 0 0 leadSession)) =
  [Channel.synthVoice leadChannel MasterGain 0 (1 * (60 / 120 / 4)) 60 1].
Proof.
  unfold Sequencer.scheduleNote, leadSession. simpl.
  unfold Sequencer.scheduleChannel. simpl.
  destruct (decide (Sequencer.onStep 0 leadNote)) as [_ | Hno];
    [| destruct (Hno leadNote_onStep)].
  reflexivity.
Qed.

(** C3 as the claim words it fails: at 120 BPM a step lasts 0.125 s, and
    the one-step note of [leadSession], which starts on step 0, is played
    for 0.125 s, not for [1 * 0.125 * 4 = 0.5] s: no call of that duration
    is made, and the voice built is not the one of such a call. *)
Lemma scheduleNote_duration_counterexample :
  let stepDuration := 0.25 * (60 / DAW.tempo leadSession) in
  let claimed := Note.duration leadNote * stepDuration * 4 in
  In leadChannel (DAW.channels leadSession)
  /\ In leadNote (Channel.pianoRollNotes leadChannel)
  /\ Rabs (Note.start leadNote - INR 0) < 0.01
  /\ ~ In (Sequencer.call leadChannel 0 claimed
             (Note.pitch leadNote) (Note.velocity leadNote))
          (scheduledCalls leadSession 0 0)
  /\ AudioContext.voices (DAW.ctx (Sequencer.scheduleNote 0 0 leadSession)) <>
     [Channel.synthVoice leadChannel MasterGain 0 claimed 60 1].
Proof.
  intros stepDuration claimed.
  split; [now left |]. split; [now left |]. split; [exact leadNote_onStep |].
  assert (Hclaimed : claimed = 0.5)
    by (subst claimed stepDuration; simpl; lra).
  split.
  - unfold scheduledCalls. simpl. rewrite app_nil_r.
    intros Hin. apply in_channelCalls in Hin as [[Hflag _] | (note & Hin & _ & Hc)].
    + discriminate Hflag.
    + destruct Hin as [<- | []]. injection Hc as Hc. simpl in Hc. lra.
  - rewrite leadSession_voices, Hclaimed. intros Heq.
    injection Heq; intros; lra.
Qed.

Lemma scheduleNote_calls_witness :
  In (Sequencer.call leadChannel 0 (1 * (0.25 * (60 / 120))) 60 1)
     (scheduledCalls leadSession 0 0).
Proof.
  apply (proj2 (scheduleNote_calls leadSession 0 0)).
  exists leadChannel. split; [now left |].
  right. exists leadNote. split; [now left |].
  split; [exact leadNote_onStep | reflexivity].
Defined.

(** ** The piano-roll toggle *)

Lemma freshNote_same pitch step : PianoRoll.sameNote pitch step (freshNote pitch step).
Proof.
  split; [reflexivity |]. unfold JS.Math_abs. simpl.
  rewrite Rminus_diag, Rabs_R0. lra.
Qed.

Lemma toggle_absent pitch step notes :
  Forall (fun n => ~ PianoRoll.sameNote pitch step n) notes ->
  PianoRoll.toggle pitch step notes = notes ++ [freshNote pitch step].
Proof.
  intros Hnone. unfold PianoRoll.toggle.
  now rewrite (proj2 (list_find_None _ _) Hnone).
Qed.

Lemma toggle_present pitch step notes i x :
  notes !! i = Some x ->
  PianoRoll.sameNote pitch step x ->
  (forall j y, notes !! j = Some y -> (j < i)%nat -> ~ PianoRoll.sameNote pitch step y) ->
  PianoRoll.toggle pitch step notes = delete i notes.
Proof.
  intros Hi Hx Hfirst. unfold PianoRoll.toggle.
  now rewrite (proj2 (list_find_Some _ _ i x) (conj Hi (conj Hx Hfirst))).
Qed.

(** A position with no note on it: the note is pushed, then found at the end
    and spliced out. *)
Lemma twice_on_free_position pitch step notes :
  Forall (fun n => ~ PianoRoll.sameNote pitch step n) notes ->
  PianoRoll.toggle pitch step (PianoRoll.toggle pitch step notes) = notes.
Proof.
  intros Hnone. rewrite (toggle_absent _ _ _ Hnone).
  rewrite (toggle_present pitch step _ (length notes) (freshNote pitch step)).
  - rewrite delete_middle. apply app_nil_r.
  - apply list_lookup_middle. reflexivity.
  - apply freshNote_same.
  - intros j y Hj Hlt. rewrite lookup_app_l in Hj by exact Hlt.
    exact (proj1 (Forall_lookup _ _) Hnone j y Hj).
Qed.

(** A position that holds the pushed note and no other: it is spliced out,
    then pushed again at the end. *)
Lemma twice_on_fresh_note pitch step notes i :
  notes !! i = Some (freshNote pitch step) ->
  (forall j n, notes !! j = Some n -> PianoRoll.sameNote pitch step n -> j = i) ->
  PianoRoll.toggle pitch step (PianoRoll.toggle pitch step notes) =
  delete i notes ++ [freshNote pitch step].
Proof.
  intros Hi Honly.
  rewrite (toggle_present pitch step notes i (freshNote pitch step) Hi
             (freshNote_same pitch step)).
  - apply toggle_absent. apply Forall_lookup. intros j y Hj Hsame.
    rewrite list_lookup_delete in Hj.
    destruct (decide (j < i)%nat) as [Hlt | Hge].
    + specialize (Honly j y Hj Hsame). lia.
    + specialize (Honly (S j) y Hj Hsame). lia.
  - intros j y Hj Hlt Hsame. specialize (Honly j y Hj Hsame). lia.
Qed.

Lemma sameNote_grid (pitch step : Z) (n : Note.t) :
  gridNote n ->
  PianoRoll.sameNote (IZR pitch) (IZR step) n ->
  n = freshNote (IZR pitch) (IZR step).
Proof.
  intros (p & s & ->) [Hp Hs]. simpl in Hp, Hs. unfold JS.Math_abs in Hs.
  rewrite Hp. f_equal. f_equal.
  rewrite <- minus_IZR in Hs. apply Rabs_def2 in Hs as [Hlt Hgt].
  assert (H1 : IZR (s - step) < IZR 1) by lra.
  assert (H2 : IZR (-1) < IZR (s - step)) by lra.
  apply lt_IZR in H1, H2. lia.
Qed.

(** The lists of the roll hold grid notes, each once. *)
Lemma drawn_grid notes : drawn notes -> Forall gridNote notes /\ NoDup notes.
Proof.
  induction 1 as [| notes pitch step _ [Hgrid Hnodup]].
  - split; constructor.
  - unfold PianoRoll.toggle.
    destruct (list_find _ notes) as [[i x] |] eqn:Hfind.
    + split.
      * now apply Forall_delete.
      * eapply sublist_NoDup; [exact Hnodup | apply sublist_delete].
    + apply list_find_None in Hfind. split.
      * apply Forall_app. split; [exact Hgrid |].
        constructor; [now exists pitch, step | constructor].
      * apply NoDup_app. split; [exact Hnodup |]. split; [| apply NoDup_singleton].
        intros x Hx Hx'. apply list_elem_of_singleton in Hx'. subst x.
        apply (proj1 (Forall_forall _ _) Hfind _ Hx). apply freshNote_same.
Qed.

(** On the lists of the roll the toggle is its own inverse, up to the order
    of the notes. *)
Lemma drawn_twice_permutation notes (pitch step : Z) :
  drawn notes ->
  Permutation
    (PianoRoll.toggle (IZR pitch) (IZR step)
       (PianoRoll.toggle (IZR pitch) (IZR step) notes))
    notes.
Proof.
  intros Hdrawn. destruct (drawn_grid notes Hdrawn) as [Hgrid Hnodup].
  destruct (list_find (PianoRoll.sameNote (IZR pitch) (IZR step)) notes)
    as [[i x] |] eqn:Hfind.
  - apply list_find_Some in Hfind as (Hi & Hsame & _).
    assert (Hx : x = freshNote (IZR pitch) (IZR step)).
    { apply sameNote_grid; [| exact Hsame].
      exact (proj1 (Forall_lookup _ _) Hgrid i x Hi). }
    subst x. rewrite (twice_on_fresh_note _ _ notes i Hi).
    + symmetry. etransitivity; [exact (delete_Permutation notes i _ Hi) |].
      apply Permutation_cons_append.
    + intros j n Hj Hn.
      assert (n = freshNote (IZR pitch) (IZR step)).
      { apply sameNote_grid; [| exact Hn].
        exact (proj1 (Forall_lookup _ _) Hgrid j n Hj). }
      subst n. exact (NoDup_lookup notes j i _ Hnodup Hj Hi).
  - apply list_find_None in Hfind. now rewrite twice_on_free_position.
Qed.

(** ** What the scheduling loop changes *)

Lemma advanced_same d :
  advanced d (AudioContext.voices (DAW.ctx d)) (DAW.currentStep d) (DAW.nextNoteTime d) = d.
Proof. destruct d as [[] ]. reflexivity. Qed.

Lemma perform_voices mixerTracks ctx c :
  exists new,
    Sequencer.perform mixerTracks ctx c =
    AudioContext.mk (AudioContext.currentTime ctx) (AudioContext.suspended ctx)
                    (AudioContext.sampleRate ctx) (AudioContext.voices ctx ++ new).
Proof.
  unfold Sequencer.perform.
  destruct (playNote_voices mixerTracks ctx (Sequencer.callee c) (Sequencer.time c)
              (Sequencer.duration c) (Sequencer.pitch c) (Sequencer.velocity c))
    as (new & Heq & _).
  eauto.
Qed.

Lemma perform_all_voices mixerTracks calls ctx :
  exists new,
    fold_left (Sequencer.perform mixerTracks) calls ctx =
    AudioContext.mk (AudioContext.currentTime ctx) (AudioContext.suspended ctx)
                    (AudioContext.sampleRate ctx) (AudioContext.voices ctx ++ new).
Proof.
  revert ctx. induction calls as [| c calls IH]; intros ctx; simpl.
  - exists []. destruct ctx. simpl. now rewrite app_nil_r.
  - destruct (perform_voices mixerTracks ctx c) as (new1 & ->).
    destruct (IH (AudioContext.mk (AudioContext.currentTime ctx)
                    (AudioContext.suspended ctx) (AudioContext.sampleRate ctx)
                    (AudioContext.voices ctx ++ new1))) as (new2 & ->).
    exists (new1 ++ new2). simpl. now rewrite app_assoc.
Qed.

Lemma scheduleNote_advanced stepNumber time d :
  exists new,
    Sequencer.scheduleNote stepNumber time d =
    advanced d (AudioContext.voices (DAW.ctx d) ++ new)
             (DAW.currentStep d) (DAW.nextNoteTime d).
Proof.
  destruct (perform_all_voices (DAW.mixerTracks d) (scheduledCalls d stepNumber time)
              (DAW.ctx d)) as (new & Heq).
  exists new. rewrite <- scheduleNote_ctx in Heq.
  unfold Sequencer.scheduleNote in *. simpl in Heq. rewrite Heq. reflexivity.
Qed.

Lemma nextStep_advanced d :
  Sequencer.nextStep d =
  advanced d (AudioContext.voices (DAW.ctx d))
           (if decide (S (DAW.currentStep d) = DAW.stepCount d) then 0%nat
            else S (DAW.currentStep d))
           (DAW.nextNoteTime d + 0.25 * (60 / DAW.tempo d)).
Proof.
  assert (Hsixty : 60.0 / DAW.tempo d = 60 / DAW.tempo d) by (unfold Rdiv; lra).
  unfold Sequencer.nextStep. rewrite Hsixty. simpl.
  destruct (decide (S (DAW.currentStep d) = DAW.stepCount d));
    destruct d as [[] ]; reflexivity.
Qed.

Lemma succ_mod (n count : nat) :
  (0 < count)%nat ->
  (if decide (S (n mod count) = count) then 0%nat else S (n mod count)) =
  (S n mod count)%nat.
Proof.
  intros Hpos.
  pose proof (Nat.mod_upper_bound n count ltac:(lia)) as Hlt.
  pose proof (Nat.div_mod_eq n count) as Hn.
  destruct (decide (S (n mod count) = count)) as [Heq | Hne].
  - apply (Nat.mod_unique _ _ (S (n / count))); nia.
  - apply (Nat.mod_unique _ _ (n / count)); lia.
Qed.

(** One pass of the loop, from the [n]-th event of the run on: it emits the
    events [n], [n + 1], ... in order and stops as soon as the next one is
    not due. *)
Lemma schedulerLoop_events fuel : forall d d' evs (n : nat) (t0 : R),
  Sequencer.schedulerLoop fuel d = Some (d', evs) ->
  (0 < DAW.stepCount d)%nat ->
  DAW.currentStep d = (n mod DAW.stepCount d)%nat ->
  DAW.nextNoteTime d = t0 + INR n * (0.25 * (60 / DAW.tempo d)) ->
  evs = map (eventAt (DAW.stepCount d) t0 (0.25 * (60 / DAW.tempo d)))
            (seq n (length evs))
  /\ (exists new,
        d' = advanced d (AudioContext.voices (DAW.ctx d) ++ new)
               ((n + length evs) mod DAW.stepCount d)%nat
               (t0 + INR (n + length evs) * (0.25 * (60 / DAW.tempo d))))
  /\ ~ DAW.nextNoteTime d' <
       AudioContext.currentTime (DAW.ctx d) + DAW.scheduleAheadTime d.
Proof.
  induction fuel as [| fuel IH]; intros d d' evs n t0 Hloop Hpos Hstep Hnext;
    simpl in Hloop;
    destruct (Rlt_dec (DAW.nextNoteTime d)
                (AudioContext.currentTime (DAW.ctx d) + DAW.scheduleAheadTime d))
      as [Hdue | Hnot]; try discriminate.
  1, 3: injection Hloop as <- <-; simpl; rewrite Nat.add_0_r;
    (split; [reflexivity |]); (split; [| exact Hnot]);
    exists []; rewrite app_nil_r, <- Hstep, <- Hnext; symmetry; apply advanced_same.
  destruct (scheduleNote_advanced (DAW.currentStep d) (DAW.nextNoteTime d) d)
    as (new1 & Hsched).
  rewrite Hsched, nextStep_advanced in Hloop. simpl in Hloop.
  match type of Hloop with
  | match Sequencer.schedulerLoop _ ?x with _ => _ end = _ => set (d1 := x) in Hloop
  end.
  destruct (Sequencer.schedulerLoop fuel d1) as [[d2 evs2] |] eqn:Hrest;
    [| discriminate].
  injection Hloop as <- <-.
  destruct (IH d1 d2 evs2 (S n) t0 Hrest) as (Hevs & (new2 & Hd2) & Hstop).
  - exact Hpos.
  - subst d1. simpl. rewrite Hstep. now apply succ_mod.
  - subst d1. rewrite S_INR. simpl. rewrite Hnext. lra.
  - subst d1. split; [| split].
    + simpl. f_equal; [| exact Hevs].
      unfold eventAt. now rewrite <- Hstep, <- Hnext.
    + exists (new1 ++ new2). rewrite Hd2.
      cbn [length]. rewrite <- plus_n_Sm, (app_assoc _ new1 new2). reflexivity.
    + exact Hstop.
Qed.

Lemma schedulerLoop_mono fuel : forall fuel' d r,
  Sequencer.schedulerLoop fuel d = Some r ->
  (fuel <= fuel')%nat ->
  Sequencer.schedulerLoop fuel' d = Some r.
Proof.
  induction fuel as [| fuel IH]; intros fuel' d r Hloop Hle; simpl in Hloop.
  - destruct fuel'; simpl;
      destruct (Rlt_dec _ _); try discriminate; exact Hloop.
  - destruct fuel' as [| fuel']; [lia |]. simpl.
    destruct (Rlt_dec _ _); [| exact Hloop].
    destruct (Sequencer.schedulerLoop fuel _) as [[d2 evs2] |] eqn:Hrest;
      [| discriminate].
    rewrite (IH fuel' _ _ Hrest) by lia. exact Hloop.
Qed.

(** With a positive tempo the loop ends: [n] rounds are enough as soon as
    [n] step durations reach the horizon. *)
Lemma schedulerLoop_ends (n : nat) : forall d,
  0 < DAW.tempo d ->
  AudioContext.currentTime (DAW.ctx d) + DAW.scheduleAheadTime d
    <= DAW.nextNoteTime d + INR n * (0.25 * (60 / DAW.tempo d)) ->
  exists r, Sequencer.schedulerLoop n d = Some r.
Proof.
  induction n as [| n IH]; intros d Htempo Hreach; simpl in *;
    destruct (Rlt_dec _ _) as [Hdue | Hnot]; eauto.
  - lra.
  - destruct (scheduleNote_advanced (DAW.currentStep d) (DAW.nextNoteTime d) d)
      as (new1 & Hsched).
    rewrite Hsched, nextStep_advanced. simpl.
    match goal with
    | |- exists r, match Sequencer.schedulerLoop _ ?x with _ => _ end = _ =>
        destruct (IH x) as ([d2 evs2] & Hrest)
    end.
    + exact Htempo.
    + simpl. destruct n; simpl in *; lra.
    + rewrite Hrest. eauto.
Qed.

Lemma schedulerLoop_terminates d :
  0 < DAW.tempo d -> exists fuel r, Sequencer.schedulerLoop fuel d = Some r.
Proof.
  intros Htempo.
  set (sd := 0.25 * (60 / DAW.tempo d)).
  assert (Hsd : 0 < sd).
  { subst sd. apply Rmult_lt_0_compat; [lra |].
    apply Rdiv_lt_0_compat; lra. }
  set (gap := AudioContext.currentTime (DAW.ctx d) + DAW.scheduleAheadTime d
              - DAW.nextNoteTime d).
  exists (Z.to_nat (up (gap / sd))).
  apply schedulerLoop_ends; [exact Htempo |]. fold sd.
  destruct (archimed (gap / sd)) as [Hup _].
  destruct (Rle_dec gap 0) as [Hneg | Hposgap].
  - assert (0 <= INR (Z.to_nat (up (gap / sd))) * sd)
      by (apply Rmult_le_pos; [apply pos_INR | lra]).
    subst gap. lra.
  - assert (Hq : 0 < gap / sd) by (apply Rdiv_lt_0_compat; lra).
    assert (Hz : (0 < up (gap / sd))%Z) by (apply lt_IZR; lra).
    rewrite INR_IZR_INZ, Z2Nat.id by lia.
    assert (gap / sd * sd < IZR (up (gap / sd)) * sd)
      by (apply Rmult_lt_compat_r; lra).
    replace (gap / sd * sd) with gap in * by (field; lra).
    subst gap. lra.
Qed.

(** ** Tasks, one by one *)

Lemma schedulerLoop_frame fuel : forall d d' evs,
  Sequencer.schedulerLoop fuel d = Some (d', evs) ->
  exists voices step next, d' = advanced d voices step next.
Proof.
  induction fuel as [| fuel IH]; intros d d' evs Hloop; simpl in Hloop;
    destruct (Rlt_dec _ _); try discriminate.
  1, 3: injection Hloop as <- <-; do 3 eexists; symmetry; apply advanced_same.
  destruct (scheduleNote_advanced (DAW.currentStep d) (DAW.nextNoteTime d) d)
    as (new1 & Hsched).
  rewrite Hsched, nextStep_advanced in Hloop.
  destruct (Sequencer.schedulerLoop fuel _) as [[d2 evs2] |] eqn:Hrest;
    [| discriminate].
  injection Hloop as <- <-.
  destruct (IH _ _ _ Hrest) as (voices & step & next & ->).
  now exists voices, step, next.
Qed.

Lemma scheduler_inv fuel d d' evs :
  Sequencer.scheduler fuel d = Some (d', evs) ->
  exists d1,
    Sequencer.schedulerLoop fuel d = Some (d1, evs) /\ d' = Sequencer.rearm d1.
Proof.
  unfold Sequencer.scheduler.
  destruct (Sequencer.schedulerLoop fuel d) as [[d1 evs1] |]; [| discriminate].
  intros Heq. injection Heq as <- <-. eauto.
Qed.

Lemma rearm_transport d :
  DAW.tempo (Sequencer.rearm d) = DAW.tempo d
  /\ DAW.stepCount (Sequencer.rearm d) = DAW.stepCount d
  /\ DAW.currentStep (Sequencer.rearm d) = DAW.currentStep d
  /\ DAW.nextNoteTime (Sequencer.rearm d) = DAW.nextNoteTime d
  /\ DAW.isPlaying (Sequencer.rearm d) = DAW.isPlaying d
  /\ DAW.scheduleAheadTime (Sequencer.rearm d) = DAW.scheduleAheadTime d
  /\ DAW.channels (Sequencer.rearm d) = DAW.channels d
  /\ DAW.mixerTracks (Sequencer.rearm d) = DAW.mixerTracks d.
Proof.
  unfold Sequencer.rearm. destruct (DAW.isPlaying d) eqn:Hplay; simpl; tauto.
Qed.

Lemma rearm_playing d :
  DAW.isPlaying d = true ->
  DAW.timerID (Sequencer.rearm d) = Some (Window.nextTimer (DAW.window d))
  /\ Window.timers (DAW.window (Sequencer.rearm d)) =
     {[Window.nextTimer (DAW.window d)]} ∪ Window.timers (DAW.window d).
Proof.
  intros Hplay. unfold Sequencer.rearm. rewrite Hplay. simpl. tauto.
Qed.

Lemma scheduler_mono fuel fuel' d r :
  Sequencer.scheduler fuel d = Some r ->
  (fuel <= fuel')%nat ->
  Sequencer.scheduler fuel' d = Some r.
Proof.
  unfold Sequencer.scheduler. intros Hs Hle.
  destruct (Sequencer.schedulerLoop fuel d) as [[d1 evs1] |] eqn:Hloop;
    [| discriminate].
  now rewrite (schedulerLoop_mono _ _ _ _ Hloop Hle).
Qed.

Lemma scheduler_terminates d :
  0 < DAW.tempo d -> exists fuel r, Sequencer.scheduler fuel d = Some r.
Proof.
  intros Htempo.
  destruct (schedulerLoop_terminates d Htempo) as (fuel & [d1 evs1] & Hloop).
  exists fuel. unfold Sequencer.scheduler. rewrite Hloop. eauto.
Qed.

Ltac unfold_handlers :=
  unfold Session.quiet, UIManager.stepClick, UIManager.bpmChange,
    UIManager.rowClick, UIManager.faderMove, UIManager.addChannelClick,
    PianoRoll.handleInput, FileLoader.loadSample, Midi.onmidimessage,
    AudioEngine.createChannel, AudioEngine.resumeOnClick, Sequencer.stop in *.

(** The tasks that are not the transport's own leave the transport alone. *)
Lemma react_sameTransport fuel a d d' evs :
  match a with
  | Session.Start | Session.Stop | Session.Tick _ | Session.BpmChange _ => False
  | _ => True
  end ->
  Session.react fuel a d = Some (d', evs) ->
  evs = [] /\ sameTransport d d'.
Proof.
  intros Hkind Hreact. unfold sameTransport.
  destruct a; try contradiction; simpl in Hreact; unfold_handlers;
    repeat case_match; simplify_eq; simpl; repeat split; reflexivity.
Qed.

Lemma react_mono fuel fuel' a d r :
  Session.react fuel a d = Some r ->
  (fuel <= fuel')%nat ->
  Session.react fuel' a d = Some r.
Proof.
  intros Hreact Hle. destruct a; simpl in *; try exact Hreact.
  - unfold Sequencer.start in *. destruct (DAW.isPlaying d); [exact Hreact |].
    eapply scheduler_mono; eauto.
  - destruct (decide _); [| exact Hreact].
    unfold Sequencer.timeout in *. eapply scheduler_mono; eauto.
Qed.

Lemma run_mono fuel fuel' actions : forall d r,
  Session.run fuel actions d = Some r ->
  (fuel <= fuel')%nat ->
  Session.run fuel' actions d = Some r.
Proof.
  induction actions as [| a rest IH]; intros d r Hrun Hle; simpl in *;
    [exact Hrun |].
  destruct (Session.react fuel a d) as [[d1 evs1] |] eqn:Hreact; [| discriminate].
  rewrite (react_mono _ _ _ _ _ Hreact Hle).
  destruct (Session.run fuel rest d1) as [[d2 evs2] |] eqn:Hrest; [| discriminate].
  now rewrite (IH _ _ Hrest Hle).
Qed.

(** ** Runs of the scheduler *)

Lemma lookup_map_seq {A} (f : nat -> A) (len : nat) : forall start k,
  (k < len)%nat -> map f (seq start len) !! k = Some (f (start + k)%nat).
Proof.
  induction len as [| len IH]; intros start k Hk; [lia |].
  destruct k as [| k]; simpl.
  - now rewrite Nat.add_0_r.
  - rewrite IH by lia. f_equal. f_equal. lia.
Qed.

Lemma react_onGrid fuel a d d' evs count tempo t0 n :
  keepsTempo a ->
  (0 < count)%nat ->
  onGrid count tempo t0 n d ->
  Session.react fuel a d = Some (d', evs) ->
  evs = map (eventAt count t0 (0.25 * (60 / tempo))) (seq n (length evs))
  /\ onGrid count tempo t0 (n + length evs) d'.
Proof.
  intros Hkeeps Hpos (Htempo & Hcount & Hstep & Hnext & Hplay) Hreact.
  destruct a; try contradiction;
    try (apply react_sameTransport in Hreact as [-> Hsame]; [| exact I];
         destruct Hsame as (? & ? & ? & ? & ? & _);
         simpl; rewrite Nat.add_0_r; split; [reflexivity |];
         unfold onGrid; repeat split; congruence).
  - simpl in Hreact. unfold Sequencer.start in Hreact. rewrite Hplay in Hreact.
    injection Hreact as <- <-. simpl. rewrite Nat.add_0_r.
    split; [reflexivity |]. unfold onGrid. tauto.
  - simpl in Hreact. destruct (decide _) as [Hpending | Hgone].
    + unfold Sequencer.timeout in Hreact.
      apply scheduler_inv in Hreact as (d1 & Hloop & ->).
      apply (schedulerLoop_events _ _ _ _ n t0) in Hloop; simpl; try congruence.
      simpl in Hloop. rewrite Hcount, Htempo in Hloop.
      destruct Hloop as (Hevs & (new & ->) & _).
      split; [exact Hevs |].
      destruct (rearm_transport
                  (advanced (DAW.set_window (Window.expire id (DAW.window d)) d)
                     (AudioContext.voices (DAW.ctx d) ++ new)
                     ((n + length evs) mod count)%nat
                     (t0 + INR (n + length evs) * (0.25 * (60 / tempo)))))
        as (H1 & H2 & H3 & H4 & H5 & _).
      unfold onGrid. rewrite H1, H2, H3, H4, H5. simpl. tauto.
    + injection Hreact as <- <-. simpl. rewrite Nat.add_0_r.
      split; [reflexivity |]. unfold onGrid. tauto.
Qed.

Lemma startReset_fields d :
  let r := Sequencer.startReset d in
  DAW.currentStep r = 0%nat
  /\ DAW.nextNoteTime r = AudioContext.currentTime (DAW.ctx d)
  /\ DAW.isPlaying r = true
  /\ AudioContext.suspended (DAW.ctx r) = false
  /\ AudioContext.currentTime (DAW.ctx r) = AudioContext.currentTime (DAW.ctx d)
  /\ DAW.tempo r = DAW.tempo d
  /\ DAW.stepCount r = DAW.stepCount d
  /\ DAW.scheduleAheadTime r = DAW.scheduleAheadTime d
  /\ DAW.window r = DAW.window d
  /\ DAW.timerID r = DAW.timerID d
  /\ DAW.channels r = DAW.channels d
  /\ DAW.mixerTracks r = DAW.mixerTracks d.
Proof.
  unfold Sequencer.startReset.
  destruct (AudioContext.suspended (DAW.ctx d)) eqn:Hsusp; simpl;
    repeat split; try reflexivity; exact Hsusp.
Qed.

Lemma react_total a d :
  keepsTempo a -> 0 < DAW.tempo d -> exists fuel r, Session.react fuel a d = Some r.
Proof.
  intros Hkeeps Htempo.
  destruct a; try contradiction; simpl; unfold Session.quiet;
    try (exists 0%nat; repeat case_match; eauto; fail).
  - unfold Sequencer.start. destruct (DAW.isPlaying d); [exists 0%nat; eauto |].
    apply scheduler_terminates.
    now rewrite (proj1 (proj2 (proj2 (proj2 (proj2 (proj2 (startReset_fields d))))))).
  - destruct (decide _); [| exists 0%nat; eauto].
    unfold Sequencer.timeout. now apply scheduler_terminates.
Qed.

Lemma run_onGrid count tempo t0 actions : forall n d,
  Forall keepsTempo actions ->
  (0 < count)%nat ->
  0 < tempo ->
  onGrid count tempo t0 n d ->
  exists fuel d' evs,
    Session.run fuel actions d = Some (d', evs)
    /\ evs = map (eventAt count t0 (0.25 * (60 / tempo))) (seq n (length evs))
    /\ onGrid count tempo t0 (n + length evs) d'.
Proof.
  induction actions as [| a rest IH]; intros n d Hkeep Hpos Htempo Hgrid.
  - exists 0%nat, d, []. simpl. rewrite Nat.add_0_r. auto.
  - apply Forall_cons in Hkeep as [Ha Hrest].
    destruct (react_total a d Ha) as (fuel1 & [d1 evs1] & Hreact);
      [now rewrite (proj1 Hgrid) |].
    destruct (react_onGrid _ _ _ _ _ _ _ _ _ Ha Hpos Hgrid Hreact) as [Hevs1 Hgrid1].
    destruct (IH _ _ Hrest Hpos Htempo Hgrid1) as (fuel2 & d2 & evs2 & Hrun & Hevs2 & Hgrid2).
    exists (Nat.max fuel1 fuel2), d2, (evs1 ++ evs2).
    simpl.
    rewrite (react_mono _ (Nat.max fuel1 fuel2) _ _ _ Hreact) by lia.
    rewrite (run_mono _ (Nat.max fuel1 fuel2) _ _ _ Hrun) by lia.
    rewrite length_app, Nat.add_assoc. split; [reflexivity |]. split; [| exact Hgrid2].
    rewrite seq_app, map_app, <- Hevs1, <- Hevs2. reflexivity.
Qed.

(** Starting a stopped transport: the first pass emits the events of the
    run from number 0 on, at least one when the look-ahead window is
    positive. *)
Lemma start_onGrid d :
  DAW.isPlaying d = false ->
  0 < DAW.tempo d ->
  (0 < DAW.stepCount d)%nat ->
  exists fuel d' evs,
    Sequencer.start fuel d = Some (d', evs)
    /\ evs = map (eventAt (DAW.stepCount d) (AudioContext.currentTime (DAW.ctx d))
                    (0.25 * (60 / DAW.tempo d)))
                 (seq 0 (length evs))
    /\ onGrid (DAW.stepCount d) (DAW.tempo d) (AudioContext.currentTime (DAW.ctx d))
              (length evs) d'
    /\ (0 < DAW.scheduleAheadTime d -> (1 <= length evs)%nat).
Proof.
  intros Hstopped Htempo Hpos.
  destruct (startReset_fields d)
    as (Hstep & Hnext & Hplay & _ & Hclock & Htempo' & Hcount & Hahead & _).
  destruct (scheduler_terminates (Sequencer.startReset d)) as (fuel & [d' evs] & Hs);
    [now rewrite Htempo' |].
  exists fuel, d', evs. unfold Sequencer.start. rewrite Hstopped.
  split; [exact Hs |].
  apply scheduler_inv in Hs as (d1 & Hloop & ->).
  apply (schedulerLoop_events _ _ _ _ 0 (AudioContext.currentTime (DAW.ctx d)))
    in Hloop.
  - rewrite Hcount, Htempo', Hclock, Hahead in Hloop.
    destruct Hloop as (Hevs & (new & Hd1) & Hstop).
    split; [exact Hevs |]. split.
    + destruct (rearm_transport d1) as (H1 & H2 & H3 & H4 & H5 & _).
      unfold onGrid. rewrite H1, H2, H3, H4, H5, Hd1. unfold advanced.
      cbn [DAW.tempo DAW.stepCount DAW.currentStep DAW.nextNoteTime DAW.isPlaying].
      rewrite Htempo', Hcount, Hplay. tauto.
    + intros Hwindow. destruct evs as [| ev evs]; [| simpl; lia].
      exfalso. apply Hstop. rewrite Hd1. simpl. lra.
  - now rewrite Hcount.
  - rewrite Hstep, Hcount. symmetry. now apply Nat.mod_small.
  - rewrite Hnext. simpl. lra.
Qed.

(** ** Invariants of an initialised engine *)

Lemma scheduler_fields fuel d d' evs :
  Sequencer.scheduler fuel d = Some (d', evs) ->
  DAW.channels d' = DAW.channels d
  /\ DAW.mixerTracks d' = DAW.mixerTracks d
  /\ DAW.stepCount d' = DAW.stepCount d
  /\ DAW.scheduleAheadTime d' = DAW.scheduleAheadTime d
  /\ DAW.isPlaying d' = DAW.isPlaying d
  /\ (DAW.isPlaying d = true ->
      DAW.timerID d' = Some (Window.nextTimer (DAW.window d))
      /\ Window.timers (DAW.window d') =
         {[Window.nextTimer (DAW.window d)]} ∪ Window.timers (DAW.window d))
  /\ (DAW.isPlaying d = false ->
      DAW.timerID d' = DAW.timerID d /\ DAW.window d' = DAW.window d).
Proof.
  intros Hs. apply scheduler_inv in Hs as (d1 & Hloop & ->).
  apply schedulerLoop_frame in Hloop as (voices & step & next & ->).
  unfold Sequencer.rearm. simpl.
  destruct (DAW.isPlaying d) eqn:Hplay; simpl; rewrite ?Hplay;
    repeat split; try reflexivity; try discriminate.
Qed.

Lemma keepsRoutes_refl channels : keepsRoutes channels channels.
Proof. intros idx ch Hch. eauto. Qed.

Lemma routedById_insert channels i ch ch' :
  routedById channels ->
  channels !! i = Some ch ->
  Channel.id ch' = Channel.id ch ->
  Channel.targetMixerTrack ch' = Channel.targetMixerTrack ch ->
  routedById (<[i := ch']> channels) /\ keepsRoutes channels (<[i := ch']> channels).
Proof.
  intros Hrouted Hi Hid Htarget.
  pose proof (lookup_lt_Some _ _ _ Hi) as Hlt.
  split; intros idx c Hc.
  - destruct (decide (idx = i)) as [-> | Hne].
    + rewrite list_lookup_insert_eq in Hc by exact Hlt. injection Hc as <-.
      rewrite Hid, Htarget. now apply Hrouted.
    + rewrite list_lookup_insert_ne in Hc by congruence. now apply Hrouted.
  - destruct (decide (idx = i)) as [-> | Hne].
    + exists ch'. rewrite list_lookup_insert_eq by exact Hlt.
      split; [reflexivity |]. congruence.
    + exists c. now rewrite list_lookup_insert_ne by congruence.
Qed.

Lemma routedById_snoc channels ch :
  routedById channels ->
  Channel.id ch = length channels ->
  Channel.targetMixerTrack ch = (length channels mod 16 + 1)%nat ->
  routedById (channels ++ [ch]) /\ keepsRoutes channels (channels ++ [ch]).
Proof.
  intros Hrouted Hid Htarget. split; intros idx c Hc.
  - destruct (decide (idx < length channels)%nat) as [Hlt | Hge].
    + rewrite lookup_app_l in Hc by exact Hlt. now apply Hrouted.
    + rewrite lookup_app_r in Hc by lia.
      destruct (idx - length channels)%nat as [| k] eqn:Hk; simpl in Hc;
        [| discriminate].
      injection Hc as <-. assert (idx = length channels) by lia. subst idx.
      now split.
  - exists c. split; [| reflexivity].
    rewrite lookup_app_l; [exact Hc |]. eapply lookup_lt_Some; eauto.
Qed.

Lemma createChannel_channels random name type sampleKey d :
  exists ch,
    DAW.channels (AudioEngine.createChannel random name type sampleKey d) =
    DAW.channels d ++ [ch]
    /\ Channel.id ch = length (DAW.channels d)
    /\ Channel.targetMixerTrack ch = (length (DAW.channels d) mod 16 + 1)%nat.
Proof.
  unfold AudioEngine.createChannel.
  destruct sampleKey as [key |]; [destruct (_ && _) |]; eexists; simpl; eauto.
Qed.

(** No task changes the route of a channel, and the channels a task adds
    are routed by their id. *)
Lemma react_channels fuel a d d' evs :
  Session.react fuel a d = Some (d', evs) ->
  routedById (DAW.channels d) ->
  routedById (DAW.channels d') /\ keepsRoutes (DAW.channels d) (DAW.channels d').
Proof.
  intros Hreact Hrouted.
  assert (Hsame : forall channels',
             channels' = DAW.channels d ->
             routedById channels' /\ keepsRoutes (DAW.channels d) channels')
    by (intros ? ->; split; [exact Hrouted | apply keepsRoutes_refl]).
  destruct a; simpl in Hreact; unfold Session.quiet in Hreact.
  - unfold Sequencer.start in Hreact. destruct (DAW.isPlaying d).
    + injection Hreact as <- <-. now apply Hsame.
    + apply scheduler_fields in Hreact as (Hch & _). apply Hsame.
      rewrite Hch. apply startReset_fields.
  - injection Hreact as <- <-. now apply Hsame.
  - destruct (decide _).
    + apply scheduler_fields in Hreact as (Hch & _). now apply Hsame.
    + injection Hreact as <- <-. now apply Hsame.
  - injection Hreact as <- <-. now apply Hsame.
  - injection Hreact as <- <-. now apply Hsame.
  - injection Hreact as <- <-. unfold UIManager.addChannelClick.
    destruct (createChannel_channels (fun _ => 0) "New Synth" "synth" None d)
      as (ch & -> & Hid & Htarget).
    now apply routedById_snoc.
  - injection Hreact as <- <-. unfold FileLoader.loadSample.
    destruct (createChannel_channels (fun _ => 0) (JS.substring0 10 fileName)
                "sampler" None d) as (ch & Hch & Hid & Htarget).
    destruct (routedById_snoc _ ch Hrouted Hid Htarget) as [Hr1 Hk1].
    rewrite Hch, list_lookup_middle by reflexivity.
    change (DAW.channels (DAW.set_channels ?c _)) with c.
    destruct (routedById_insert (DAW.channels d ++ [ch]) (length (DAW.channels d)) ch
                (Channel.set_buffer (Some buffer) ch) Hr1) as [Hr2 Hk2];
      [now apply list_lookup_middle | reflexivity | reflexivity |].
    split; [exact Hr2 |].
    intros idx c Hc. destruct (Hk1 idx c Hc) as (c1 & Hc1 & Ht1).
    destruct (Hk2 idx c1 Hc1) as (c2 & Hc2 & Ht2).
    exists c2. split; [exact Hc2 | congruence].
  - destruct (decide _); injection Hreact as <- <-; [| now apply Hsame].
    unfold UIManager.stepClick.
    destruct (DAW.channels d !! idx) as [ch |] eqn:Hch; [| now apply Hsame].
    simpl. now apply (routedById_insert _ _ ch).
  - injection Hreact as <- <-. now apply Hsame.
  - injection Hreact as <- <-. unfold PianoRoll.handleInput.
    destruct (DAW.channels d !! DAW.selectedChannelIndex d) as [ch |] eqn:Hch;
      [| now apply Hsame].
    simpl. now apply (routedById_insert _ _ ch).
  - injection Hreact as <- <-. apply Hsame. unfold UIManager.faderMove.
    now destruct (DAW.mixerTracks d !! i).
  - injection Hreact as <- <-. apply Hsame. unfold Midi.onmidimessage.
    repeat case_match; reflexivity.
  - injection Hreact as <- <-. apply Hsame. unfold AudioEngine.resumeOnClick.
    now destruct (AudioContext.suspended (DAW.ctx d)).
Qed.

(** The notes of every channel stay lists the roll has built. *)
Lemma react_drawn fuel a d d' evs :
  Session.react fuel a d = Some (d', evs) ->
  Forall (fun ch => drawn (Channel.pianoRollNotes ch)) (DAW.channels d) ->
  Forall (fun ch => drawn (Channel.pianoRollNotes ch)) (DAW.channels d').
Proof.
  intros Hreact Hdrawn.
  assert (Hsame : forall channels',
             channels' = DAW.channels d ->
             Forall (fun ch => drawn (Channel.pianoRollNotes ch)) channels')
    by (now intros ? ->).
  destruct a; simpl in Hreact; unfold Session.quiet in Hreact.
  - apply Hsame. unfold Sequencer.start in Hreact.
    destruct (DAW.isPlaying d).
    + now injection Hreact as <- <-.
    + apply scheduler_fields in Hreact as (Hch & _). rewrite Hch.
      apply startReset_fields.
  - apply Hsame. now injection Hreact as <- <-.
  - apply Hsame. destruct (decide _).
    + now apply scheduler_fields in Hreact as (Hch & _).
    + now injection Hreact as <- <-.
  - apply Hsame. now injection Hreact as <- <-.
  - apply Hsame. now injection Hreact as <- <-.
  - injection Hreact as <- <-. unfold UIManager.addChannelClick,
      AudioEngine.createChannel. simpl.
    apply Forall_app. split; [exact Hdrawn |]. repeat constructor.
  - injection Hreact as <- <-. unfold FileLoader.loadSample,
      AudioEngine.createChannel. simpl.
    rewrite list_lookup_middle by reflexivity. simpl.
    apply Forall_insert; [| constructor].
    apply Forall_app. split; [exact Hdrawn |]. repeat constructor.
  - destruct (decide _); injection Hreact as <- <-; [| exact Hdrawn].
    unfold UIManager.stepClick.
    destruct (DAW.channels d !! idx) as [ch |] eqn:Hch; [| exact Hdrawn].
    simpl. apply Forall_insert; [exact Hdrawn |].
    exact (proj1 (Forall_lookup _ _) Hdrawn idx ch Hch).
  - apply Hsame. now injection Hreact as <- <-.
  - injection Hreact as <- <-. unfold PianoRoll.handleInput.
    destruct (DAW.channels d !! DAW.selectedChannelIndex d) as [ch |] eqn:Hch;
      [| exact Hdrawn].
    simpl. apply Forall_insert; [exact Hdrawn |]. simpl.
    rewrite <- minus_IZR. constructor.
    exact (proj1 (Forall_lookup _ _) Hdrawn _ ch Hch).
  - apply Hsame. injection Hreact as <- <-.
    unfold UIManager.faderMove. now destruct (DAW.mixerTracks d !! i).
  - apply Hsame. injection Hreact as <- <-.
    unfold Midi.onmidimessage. repeat case_match; reflexivity.
  - apply Hsame. injection Hreact as <- <-.
    unfold AudioEngine.resumeOnClick.
    now destruct (AudioContext.suspended (DAW.ctx d)).
Qed.

Lemma react_mixer fuel a d d' evs :
  Session.react fuel a d = Some (d', evs) ->
  mixerOf17 (DAW.mixerTracks d) ->
  mixerOf17 (DAW.mixerTracks d').
Proof.
  intros Hreact Hmixer.
  destruct a; simpl in Hreact; unfold Session.quiet in Hreact;
    try (injection Hreact as <- <-; unfold_handlers;
         repeat case_match; simpl; exact Hmixer).
  - unfold Sequencer.start in Hreact. destruct (DAW.isPlaying d).
    + now injection Hreact as <- <-.
    + apply scheduler_fields in Hreact as (_ & Hmx & _). rewrite Hmx.
      now rewrite (proj2 (proj2 (proj2 (proj2 (proj2 (proj2 (proj2 (proj2
                     (proj2 (proj2 (proj2 (startReset_fields d)))))))))))).
  - destruct (decide _).
    + apply scheduler_fields in Hreact as (_ & Hmx & _). now rewrite Hmx.
    + now injection Hreact as <- <-.
  - destruct (decide _); injection Hreact as <- <-; unfold_handlers;
      repeat case_match; simpl; exact Hmixer.
  - injection Hreact as <- <-. unfold UIManager.faderMove.
    destruct (DAW.mixerTracks d !! i) as [track |] eqn:Htrack; [| exact Hmixer].
    simpl. destruct Hmixer as [Hlen Hidx]. split; [now rewrite length_insert |].
    intros j t Hj. destruct (decide (j = i)) as [-> | Hne].
    + rewrite list_lookup_insert_eq in Hj by (eapply lookup_lt_Some; eauto).
      injection Hj as <-. simpl. now apply Hidx.
    + rewrite list_lookup_insert_ne in Hj by congruence. now apply Hidx.
Qed.

Lemma stop_oneTimer d :
  oneTimer d ->
  DAW.isPlaying (Sequencer.stop d) = false
  /\ Window.timers (DAW.window (Sequencer.stop d)) = ∅.
Proof.
  intros [Honly _]. split; [reflexivity |].
  unfold Sequencer.stop. simpl.
  destruct (DAW.timerID d) as [i |] eqn:Hid; simpl.
  - apply set_eq. intros id. split; [| set_solver].
    intros Hin. apply elem_of_difference in Hin as [Hin Hne].
    specialize (Honly id Hin). set_solver.
  - apply set_eq. intros id. split; [| set_solver].
    intros Hin. specialize (Honly id Hin). discriminate.
Qed.

Lemma react_oneTimer fuel a d d' evs :
  Session.react fuel a d = Some (d', evs) ->
  oneTimer d ->
  oneTimer d'.
Proof.
  intros Hreact Htimer.
  assert (Hsame : sameTransport d d' -> oneTimer d').
  { intros (_ & _ & _ & _ & Hplay & _ & Hid & Hwin).
    unfold oneTimer. rewrite Hplay, Hid, Hwin. exact Htimer. }
  destruct a; try (apply Hsame; eapply react_sameTransport; [| exact Hreact]; exact I);
    simpl in Hreact; unfold Session.quiet in Hreact.
  - unfold Sequencer.start in Hreact. destruct (DAW.isPlaying d) eqn:Hplay.
    + now injection Hreact as <- <-.
    + destruct (startReset_fields d)
        as (_ & _ & Hplay' & _ & _ & _ & _ & _ & Hwin & _).
      apply scheduler_fields in Hreact as (_ & _ & _ & _ & Hp & Hon & _).
      destruct (Hon Hplay') as [Hid Htimers]. rewrite Hwin in Hid, Htimers.
      rewrite (proj2 Htimer Hplay) in Htimers.
      split.
      * intros id Hin. rewrite Htimers in Hin. rewrite Hid. f_equal.
        apply elem_of_union in Hin as [Hin | Hin].
        -- apply elem_of_singleton in Hin. now symmetry.
        -- now apply not_elem_of_empty in Hin.
      * intros Hstopped. congruence.
  - injection Hreact as <- <-. destruct (stop_oneTimer d Htimer) as [Hp Hempty].
    split; [| intros _; exact Hempty].
    intros id Hin. rewrite Hempty in Hin. set_solver.
  - destruct (decide _) as [Hpending | Hgone]; [| now injection Hreact as <- <-].
    assert (Hplay : DAW.isPlaying d = true).
    { destruct (DAW.isPlaying d) eqn:Hp; [reflexivity |].
      rewrite (proj2 Htimer Hp) in Hpending. set_solver. }
    unfold Sequencer.timeout in Hreact.
    apply scheduler_fields in Hreact as (_ & _ & _ & _ & Hp & Hon & _).
    simpl in Hp, Hon. destruct (Hon Hplay) as [Hid Htimers].
    split.
    + intros i Hin. rewrite Htimers in Hin. rewrite Hid. f_equal.
      apply elem_of_union in Hin as [Hin | Hin]; [set_solver |].
      apply elem_of_difference in Hin as [Hin Hne].
      pose proof (proj1 Htimer i Hin) as Hi.
      pose proof (proj1 Htimer id Hpending) as Hid'.
      rewrite Hi in Hid'. injection Hid' as ->. set_solver.
    + intros Hstopped. congruence.
  - injection Hreact as <- <-. unfold UIManager.bpmChange.
    destruct Htimer as [H1 H2]. split; simpl; assumption.
Qed.

Lemma react_constants fuel a d d' evs :
  Session.react fuel a d = Some (d', evs) ->
  DAW.stepCount d' = DAW.stepCount d
  /\ DAW.scheduleAheadTime d' = DAW.scheduleAheadTime d.
Proof.
  intros Hreact.
  destruct a;
    try (apply react_sameTransport in Hreact as [_ Hsame]; [| exact I];
         destruct Hsame as (_ & H1 & _ & _ & _ & H2 & _); now split);
    simpl in Hreact; unfold Session.quiet in Hreact.
  - unfold Sequencer.start in Hreact. destruct (DAW.isPlaying d).
    + injection Hreact as <- <-. now split.
    + apply scheduler_fields in Hreact as (_ & _ & H1 & H2 & _).
      rewrite H1, H2. split; apply startReset_fields.
  - injection Hreact as <- <-. now split.
  - destruct (decide _).
    + apply scheduler_fields in Hreact as (_ & _ & H1 & H2 & _). now split.
    + injection Hreact as <- <-. now split.
  - injection Hreact as <- <-. now split.
Qed.

Lemma init_wellFormed randomSnare randomHat sampleRate :
  wellFormed (AudioEngine.init randomSnare randomHat sampleRate).
Proof.
  unfold wellFormed. split; [| split; [| split; [| split; [| split]]]];
    try reflexivity.
  - intros idx ch Hch. simpl in Hch.
    destruct idx as [| [| [| [| idx]]]]; simpl in Hch; try discriminate;
      injection Hch as <-; split; reflexivity.
  - split; [reflexivity |]. intros j track Hj. simpl in Hj.
    do 17 (destruct j as [| j]; [simpl in Hj; now injection Hj as <- |]).
    discriminate.
  - split; simpl; [intros id Hin; set_solver | reflexivity].
  - simpl. repeat constructor.
Qed.

Lemma react_wellFormed fuel a d d' evs :
  Session.react fuel a d = Some (d', evs) -> wellFormed d -> wellFormed d'.
Proof.
  intros Hreact (Hrouted & Hmixer & Htimer & Hcount & Hahead & Hdrawn).
  destruct (react_constants _ _ _ _ _ Hreact) as [H1 H2].
  unfold wellFormed. rewrite H1, H2.
  split; [exact (proj1 (react_channels _ _ _ _ _ Hreact Hrouted)) |].
  split; [exact (react_mixer _ _ _ _ _ Hreact Hmixer) |].
  split; [exact (react_oneTimer _ _ _ _ _ Hreact Htimer) |].
  split; [exact Hcount |]. split; [exact Hahead |].
  exact (react_drawn _ _ _ _ _ Hreact Hdrawn).
Qed.

Lemma reachable_wellFormed d : Session.reachable d -> wellFormed d.
Proof.
  induction 1 as [| d a fuel d' evs _ IH Hreact].
  - apply init_wellFormed.
  - exact (react_wellFormed _ _ _ _ _ Hreact IH).
Qed.

(** On an initialised engine, two clicks on the same cell of the piano roll
    leave the selected channel with the notes it had, up to their order. *)
Lemma handleInput_twice d (x y : R) ch :
  Session.reachable d ->
  DAW.channels d !! DAW.selectedChannelIndex d = Some ch ->
  exists ch',
    DAW.channels (PianoRoll.handleInput x y (PianoRoll.handleInput x y d))
      !! DAW.selectedChannelIndex d = Some ch'
    /\ Permutation (Channel.pianoRollNotes ch') (Channel.pianoRollNotes ch).
Proof.
  intros Hreach Hch.
  destruct (reachable_wellFormed d Hreach) as (_ & _ & _ & _ & _ & Hdrawn).
  pose proof (proj1 (Forall_lookup _ _) Hdrawn _ ch Hch) as Hnotes.
  pose proof (lookup_lt_Some _ _ _ Hch) as Hlt.
  unfold PianoRoll.handleInput at 2. rewrite Hch.
  unfold PianoRoll.handleInput.
  cbn [DAW.channels DAW.set_channels DAW.selectedChannelIndex].
  rewrite list_lookup_insert_eq by exact Hlt.
  cbn [DAW.channels DAW.set_channels].
  rewrite list_insert_insert_eq, list_lookup_insert_eq by exact Hlt.
  eexists. split; [reflexivity |].
  cbn [Channel.pianoRollNotes Channel.set_pianoRollNotes].
  rewrite <- minus_IZR. now apply drawn_twice_permutation.
Qed.

(** [nextStep()] moves a cursor that is inside the pattern one step on,
    modulo the step count. *)
Lemma nextStep_cursor d :
  (DAW.currentStep d < DAW.stepCount d)%nat ->
  DAW.currentStep (Sequencer.nextStep d) =
    ((DAW.currentStep d + 1) mod DAW.stepCount d)%nat
  /\ DAW.nextNoteTime (Sequencer.nextStep d) =
     DAW.nextNoteTime d + 0.25 * (60 / DAW.tempo d).
Proof.
  intros Hlt. rewrite nextStep_advanced. simpl. split; [| reflexivity].
  pose proof (succ_mod (DAW.currentStep d) (DAW.stepCount d) ltac:(lia)) as Hsucc.
  rewrite (Nat.mod_small _ _ Hlt) in Hsucc. rewrite Hsucc. f_equal. lia.
Qed.

(** ** Routing of channels *)

Lemma new_target id name type :
  (1 <= Channel.targetMixerTrack (Channel.new id name type) <= 16)%nat.
Proof.
  simpl. pose proof (Nat.mod_upper_bound id 16). lia.
Qed.

(** C9: in every state of an initialised engine, whatever tasks ran
    (default channels, add-channel, sample import and all the others), the
    [targetMixerTrack] of every channel is between 1 and 16, the number of
    insert tracks, so it is never the master index 0, and it names an insert
    track the mixer has; and no task changes the [targetMixerTrack] of a
    channel, nor leaves a channel routed outside 1..16. *)
Theorem targetMixerTrack_is_an_insert (d : DAW.t) :
  Session.reachable d ->
  length (DAW.mixerTracks d) = 17%nat
  /\ (forall idx ch,
        DAW.channels d !! idx = Some ch ->
        (1 <= Channel.targetMixerTrack ch <= 16)%nat
        /\ Channel.targetMixerTrack ch <> 0%nat
        /\ exists track,
             DAW.mixerTracks d !! Channel.targetMixerTrack ch = Some track
             /\ MixerTrack.index track = Channel.targetMixerTrack ch)
  /\ (forall fuel a d' evs,
        Session.react fuel a d = Some (d', evs) ->
        (forall idx ch,
           DAW.channels d !! idx = Some ch ->
           exists ch',
             DAW.channels d' !! idx = Some ch'
             /\ Channel.targetMixerTrack ch' = Channel.targetMixerTrack ch)
        /\ (forall idx ch',
              DAW.channels d' !! idx = Some ch' ->
              (1 <= Channel.targetMixerTrack ch' <= 16)%nat)).
Proof.
  intros Hreach.
  destruct (reachable_wellFormed d Hreach) as (Hrouted & [Hlen Hindex] & _).
  assert (Hrange : forall channels idx ch,
             routedById channels -> channels !! idx = Some ch ->
             (1 <= Channel.targetMixerTrack ch <= 16)%nat).
  { intros channels idx ch Hr Hch. destruct (Hr idx ch Hch) as [_ ->].
    pose proof (Nat.mod_upper_bound idx 16). lia. }
  split; [exact Hlen |]. split.
  - intros idx ch Hch. pose proof (Hrange _ _ _ Hrouted Hch) as Hr.
    split; [exact Hr |]. split; [lia |].
    destruct (lookup_lt_is_Some_2 (DAW.mixerTracks d) (Channel.targetMixerTrack ch))
      as [track Htrack]; [lia |].
    exists track. split; [exact Htrack |]. now apply Hindex.
  - intros fuel a d' evs Hreact.
    destruct (react_channels _ _ _ _ _ Hreact Hrouted) as [Hrouted' Hkeeps].
    split; [exact Hkeeps |].
    intros idx ch' Hch'. exact (Hrange _ _ _ Hrouted' Hch').
Qed.

Lemma targetMixerTrack_is_an_insert_witness :
  exists ch,
    DAW.channels freshEngine !! 3%nat = Some ch
    /\ (1 <= Channel.targetMixerTrack ch <= 16)%nat
    /\ Channel.targetMixerTrack ch <> 0%nat.
Proof.
  destruct (targetMixerTrack_is_an_insert freshEngine (Session.reach_init _ _ _))
    as (_ & Hrange & _).
  eexists. split; [reflexivity |].
  destruct (Hrange 3%nat _ eq_refl) as (H1 & H2 & _). now split.
Defined.

(** ** The transport *)

(** C8: on an initialised engine that is not playing, [start()] sets the
    step cursor to 0, the next-event timestamp to the current time of the
    audio clock and [isPlaying] to true (the context resumed), and hands
    over to the scheduler, whose first pass it runs before it returns: the
    first event it emits is step 0 at the current clock time, the transport
    is playing when it returns and one look-ahead tick is pending; with a
    positive tempo it does return.  [stop()] leaves the transport stopped
    with no tick pending, so that none fires any more, and takes back no
    voice. *)
Theorem start_and_stop (d : DAW.t) :
  Session.reachable d ->
  (DAW.isPlaying d = false ->
   let reset := Sequencer.startReset d in
   let now := AudioContext.currentTime (DAW.ctx d) in
   DAW.currentStep reset = 0%nat
   /\ DAW.nextNoteTime reset = now
   /\ DAW.isPlaying reset = true
   /\ AudioContext.suspended (DAW.ctx reset) = false
   /\ (forall fuel, Sequencer.start fuel d = Sequencer.scheduler fuel reset)
   /\ (forall fuel d' evs,
         Sequencer.start fuel d = Some (d', evs) ->
         DAW.isPlaying d' = true
         /\ (exists rest, evs = (0%nat, now) :: rest)
         /\ exists id,
              DAW.timerID d' = Some id /\ Window.timers (DAW.window d') = {[id]})
   /\ (0 < DAW.tempo d -> exists fuel d' evs, Sequencer.start fuel d = Some (d', evs)))
  /\ (DAW.isPlaying (Sequencer.stop d) = false
      /\ Window.timers (DAW.window (Sequencer.stop d)) = ∅
      /\ AudioContext.voices (DAW.ctx (Sequencer.stop d)) = AudioContext.voices (DAW.ctx d)
      /\ forall fuel id,
           Session.react fuel (Session.Tick id) (Sequencer.stop d) =
           Some (Sequencer.stop d, [])).
Proof.
  intros Hreach.
  destruct (reachable_wellFormed d Hreach) as (_ & _ & Htimer & Hcount & Hahead & _).
  split.
  - intros Hstopped reset now.
    destruct (startReset_fields d)
      as (Hstep & Hnext & Hplay & Hsusp & Hclock & Htempo & Hcount' & Hahead'
          & Hwin & _).
    fold reset in Hstep, Hnext, Hplay, Hsusp, Hclock, Htempo, Hcount', Hahead', Hwin.
    fold now in Hnext, Hclock.
    assert (Hstart : forall fuel, Sequencer.start fuel d = Sequencer.scheduler fuel reset)
      by (intros fuel; unfold Sequencer.start; now rewrite Hstopped).
    repeat (split; [assumption |]). split.
    + intros fuel d' evs Hs. rewrite Hstart in Hs.
      pose proof (scheduler_fields _ _ _ _ Hs) as (_ & _ & _ & _ & Hp & Hon & _).
      destruct (Hon Hplay) as [Hid Htimers].
      rewrite Hwin, (proj2 Htimer Hstopped), union_empty_r_L in Htimers.
      rewrite Hwin in Hid.
      split; [congruence |].
      split; [| exists (Window.nextTimer (DAW.window d)); now split].
      apply scheduler_inv in Hs as (d1 & Hloop & _).
      apply (schedulerLoop_events _ _ _ _ 0 now) in Hloop.
      * destruct Hloop as (Hevs & (new & Hd1) & Hstop).
        destruct evs as [| ev rest].
        -- exfalso. apply Hstop. rewrite Hd1, Hclock, Hahead', Hahead.
           unfold advanced. cbn [DAW.nextNoteTime length Nat.add INR]. lra.
        -- exists rest. cbn [length seq map] in Hevs.
           rewrite Hcount', Hcount, Htempo in Hevs. injection Hevs as -> _.
           unfold eventAt. simpl. f_equal. f_equal. lra.
      * rewrite Hcount', Hcount. lia.
      * now rewrite Hstep, Hcount', Hcount.
      * rewrite Hnext. simpl. lra.
    + intros Hpos. destruct (scheduler_terminates reset) as (fuel & [d' evs] & Hs);
        [now rewrite Htempo |].
      exists fuel, d', evs. now rewrite Hstart.
  - destruct (stop_oneTimer d Htimer) as [Hp Hempty].
    split; [exact Hp |]. split; [exact Hempty |]. split; [reflexivity |].
    intros fuel id. cbn [Session.react].
    destruct (decide _) as [Hin | _]; [| reflexivity].
    rewrite Hempty in Hin. now apply not_elem_of_empty in Hin.
Qed.

Lemma start_and_stop_witness :
  (exists fuel d' evs, Sequencer.start fuel freshEngine = Some (d', evs))
  /\ DAW.isPlaying (Sequencer.stop freshEngine) = false
  /\ Window.timers (DAW.window (Sequencer.stop freshEngine)) = ∅.
Proof.
  destruct (start_and_stop freshEngine (Session.reach_init _ _ _))
    as [Hstart (Hstopped & Hnone & _)].
  split; [| now split].
  destruct (Hstart eq_refl) as (_ & _ & _ & _ & _ & _ & Hreturns).
  apply Hreturns. simpl. lra.
Defined.

(** * Further properties *)

(** ** Pitch and envelope of a voice *)

Lemma Math_pow_octave (x : R) :
  JS.Math_pow 2 (x + 1) = 2 * JS.Math_pow 2 x.
Proof.
  unfold JS.Math_pow. rewrite Rpower_plus, Rpower_1 by lra. lra.
Qed.

Lemma Math_pow_positive (x : R) : 0 < JS.Math_pow 2 x.
Proof. unfold JS.Math_pow, Rpower. apply exp_pos. Qed.

(** X1: on a sampler channel with its buffer, a note one octave higher
    (pitch + 12) is played at twice the playback rate and lasts half as
    long. *)
Theorem sampler_octave_doubles_rate
    mixerTracks ctx ch buf (time duration n velocity : R) :
  Channel.type ch = "sampler" ->
  Channel.buffer ch = Some buf ->
  exists v v' rate,
    AudioContext.voices
      (Channel.playNote mixerTracks ctx ch time duration n velocity)
    = AudioContext.voices ctx ++ [v]
    /\ AudioContext.voices
         (Channel.playNote mixerTracks ctx ch time duration (n + 12) velocity)
       = AudioContext.voices ctx ++ [v']
    /\ source v = BufferSource buf rate
    /\ source v' = BufferSource buf (2 * rate)
    /\ stopAt v' - startAt v' = (stopAt v - startAt v) / 2.
Proof.
  intros Hty Hbuf.
  rewrite !(playNote_sampler _ _ _ buf) by assumption.
  assert (Hoct : JS.Math_pow 2 ((Channel.pitch ch + (n + 12 - 60)) / 12) =
                 2 * JS.Math_pow 2 ((Channel.pitch ch + (n - 60)) / 12)).
  { rewrite <- Math_pow_octave. f_equal. lra. }
  pose proof (Math_pow_positive ((Channel.pitch ch + (n - 60)) / 12)) as Hpos.
  do 3 eexists. split; [reflexivity |]. split; [reflexivity |].
  split; [reflexivity |]. split.
  - simpl. now rewrite Hoct.
  - simpl. rewrite Hoct. field. lra.
Qed.

Lemma sampler_octave_doubles_rate_witness :
  exists v v' rate,
    AudioContext.voices
      (Channel.playNote [] (AudioContext.mk 0 false 2 []) halfSecondSampler 1 0.1 60 1)
    = [] ++ [v]
    /\ AudioContext.voices
         (Channel.playNote [] (AudioContext.mk 0 false 2 []) halfSecondSampler 1 0.1
            (60 + 12) 1)
       = [] ++ [v']
    /\ source v = BufferSource (AudioBuffer.mk 1 2 [0]) rate
    /\ source v' = BufferSource (AudioBuffer.mk 1 2 [0]) (2 * rate).
Proof.
  destruct (sampler_octave_doubles_rate [] (AudioContext.mk 0 false 2 [])
              halfSecondSampler (AudioBuffer.mk 1 2 [0]) 1 0.1 60 1 eq_refl eq_refl)
    as (v & v' & rate & H1 & H2 & H3 & H4 & _).
  exists v, v', rate. repeat split; assumption.
Defined.

(** X2: the playback rate of a sampler voice is positive whatever the
    pitches, so the division by it is never a division by zero, and a voice
    on a buffer of non-negative duration never stops before it starts. *)
Theorem sampler_rate_positive ch buf dest (time n velocity : R) :
  let v := Channel.samplerVoice ch buf dest time n velocity in
  (exists rate, source v = BufferSource buf rate /\ 0 < rate)
  /\ (0 <= AudioBuffer.duration buf -> startAt v <= stopAt v)
  /\ (0 < AudioBuffer.duration buf -> startAt v < stopAt v).
Proof.
  intros v.
  pose proof (Math_pow_positive ((Channel.pitch ch + (n - 60)) / 12)) as Hpos.
  split; [eexists; split; [reflexivity | exact Hpos] |].
  subst v. simpl. split; intros Hdur.
  - assert (0 <= AudioBuffer.duration buf /
                 JS.Math_pow 2 ((Channel.pitch ch + (n - 60)) / 12))
      by (unfold Rdiv; apply Rmult_le_pos;
          [assumption | left; now apply Rinv_0_lt_compat]).
    lra.
  - assert (0 < AudioBuffer.duration buf /
                JS.Math_pow 2 ((Channel.pitch ch + (n - 60)) / 12))
      by (apply Rdiv_lt_0_compat; assumption).
    lra.
Qed.

Lemma sampler_rate_positive_witness :
  startAt (Channel.samplerVoice halfSecondSampler (AudioBuffer.mk 1 2 [0]) MasterGain 1 72 1)
  < stopAt (Channel.samplerVoice halfSecondSampler (AudioBuffer.mk 1 2 [0]) MasterGain 1 72 1).
Proof.
  apply (proj2 (proj2 (sampler_rate_positive halfSecondSampler (AudioBuffer.mk 1 2 [0])
                         MasterGain 1 72 1))).
  unfold AudioBuffer.duration, AudioBuffer.frames. simpl. lra.
Defined.

(** X3: a synth voice sounds at [440 * 2^((pitch - 69) / 12)] Hz: pitch 69
    is 440 Hz and twelve semitones up double the frequency.  Neither the
    pitch offset of the channel nor its buffer enter it: the voices of two
    synth channels that differ in these only are the same. *)
Theorem synth_frequency ch ch' dest (time duration n velocity : R) :
  let frequency (v : Voice) :=
    match source v with
    | Oscillator _ f => f
    | BufferSource _ _ => 0
    end in
  frequency (Channel.synthVoice ch dest time duration 69 velocity) = 440
  /\ frequency (Channel.synthVoice ch dest time duration (n + 12) velocity) =
     2 * frequency (Channel.synthVoice ch dest time duration n velocity)
  /\ (Channel.volume ch' = Channel.volume ch ->
      Channel.synthVoice ch' dest time duration n velocity =
      Channel.synthVoice ch dest time duration n velocity).
Proof.
  intros frequency. subst frequency. simpl. split; [| split].
  - replace ((69 - 69) / 12) with 0 by lra.
    unfold JS.Math_pow. rewrite Rpower_O by lra. lra.
  - replace ((n + 12 - 69) / 12) with ((n - 69) / 12 + 1) by lra.
    rewrite Math_pow_octave. lra.
  - intros Hvol. unfold Channel.synthVoice. now rewrite Hvol.
Qed.

Lemma synth_frequency_witness :
  Channel.synthVoice (Channel.set_buffer (Some (AudioBuffer.mk 1 2 [0])) leadChannel)
    MasterGain 0 0.5 60 1
  = Channel.synthVoice leadChannel MasterGain 0 0.5 60 1.
Proof.
  exact (proj2 (proj2 (synth_frequency leadChannel
                         (Channel.set_buffer (Some (AudioBuffer.mk 1 2 [0])) leadChannel)
                         MasterGain 0 0.5 60 1)) eq_refl).
Defined.

(** X4: the envelope of a synth voice is written in the order attack,
    decay, sustain hold, release.  Its times go forward exactly when the
    note lasts at least attack + decay = 0.11 s; for a shorter note, as the
    0.1 s of a step hit, the hold at [time + duration] is set before the end
    of the decay ramp at [time + 0.11].  The oscillator stops 0.3 s after
    the end of the note. *)
Theorem synth_envelope_order ch dest (time duration n velocity : R) :
  let v := Channel.synthVoice ch dest time duration n velocity in
  (chronological (automationTimes (gain v)) <-> 0.11 <= duration)
  /\ stopAt v = time + duration + 0.3
  /\ startAt v = time.
Proof.
  intros v. subst v. simpl. split; [| split; [lra | reflexivity]].
  split.
  - intros (_ & _ & H & _). lra.
  - intros Hd. repeat split; lra.
Qed.

Lemma synth_envelope_order_witness :
  ~ chronological
      (automationTimes (gain (Channel.synthVoice leadChannel MasterGain 0 0.1 60 1)))
  /\ chronological
       (automationTimes (gain (Channel.synthVoice leadChannel MasterGain 0 0.125 60 1))).
Proof.
  split.
  - intros H.
    apply (proj1 (synth_envelope_order leadChannel MasterGain 0 0.1 60 1)) in H. lra.
  - apply (proj1 (synth_envelope_order leadChannel MasterGain 0 0.125 60 1)). lra.
Defined.

(** ** The look-ahead window *)

Lemma schedulerLoop_window fuel : forall d d' evs,
  Sequencer.schedulerLoop fuel d = Some (d', evs) ->
  let horizon := AudioContext.currentTime (DAW.ctx d) + DAW.scheduleAheadTime d in
  Forall (fun ev => snd ev < horizon) evs
  /\ ~ DAW.nextNoteTime d' < horizon
  /\ (evs = [] -> d' = d)
  /\ (evs <> [] ->
      DAW.nextNoteTime d' < horizon + 0.25 * (60 / DAW.tempo d)).
Proof.
  induction fuel as [| fuel IH]; intros d d' evs Hloop horizon; subst horizon;
    simpl in Hloop;
    destruct (Rlt_dec (DAW.nextNoteTime d)
                (AudioContext.currentTime (DAW.ctx d) + DAW.scheduleAheadTime d))
      as [Hdue | Hnot]; try discriminate.
  1, 3: injection Hloop as <- <-;
    (split; [constructor |]); (split; [exact Hnot |]); split; [reflexivity | congruence].
  destruct (scheduleNote_advanced (DAW.currentStep d) (DAW.nextNoteTime d) d)
    as (new1 & Hsched).
  rewrite Hsched, nextStep_advanced in Hloop.
  destruct (Sequencer.schedulerLoop fuel _) as [[d2 evs2] |] eqn:Hrest;
    [| discriminate].
  injection Hloop as <- <-.
  destruct (IH _ _ _ Hrest) as (Hall & Hstop & Hnil & Hcons).
  cbn [advanced DAW.ctx DAW.scheduleAheadTime DAW.tempo AudioContext.currentTime]
    in Hall, Hstop, Hcons.
  split; [constructor; [exact Hdue | exact Hall] |].
  split; [exact Hstop |]. split; [discriminate |].
  intros _. destruct evs2 as [| ev evs2].
  - rewrite (Hnil eq_refl). simpl. lra.
  - apply Hcons. discriminate.
Qed.

(** The events of a pass are not earlier than the timestamp it starts
    from, and the pass does not move that timestamp back. *)
Lemma schedulerLoop_after fuel : forall d d' evs,
  0 < DAW.tempo d ->
  Sequencer.schedulerLoop fuel d = Some (d', evs) ->
  Forall (fun ev => DAW.nextNoteTime d <= snd ev) evs
  /\ DAW.nextNoteTime d <= DAW.nextNoteTime d'.
Proof.
  induction fuel as [| fuel IH]; intros d d' evs Htempo Hloop;
    simpl in Hloop;
    destruct (Rlt_dec (DAW.nextNoteTime d)
                (AudioContext.currentTime (DAW.ctx d) + DAW.scheduleAheadTime d))
      as [Hdue | Hnot]; try discriminate.
  1, 3: injection Hloop as <- <-; split; [constructor | lra].
  destruct (scheduleNote_advanced (DAW.currentStep d) (DAW.nextNoteTime d) d)
    as (new1 & Hsched).
  rewrite Hsched, nextStep_advanced in Hloop.
  destruct (Sequencer.schedulerLoop fuel _) as [[d2 evs2] |] eqn:Hrest;
    [| discriminate].
  injection Hloop as <- <-.
  destruct (fun H => IH _ _ _ H Hrest) as [Hall Hnext]; [exact Htempo |].
  cbn [advanced DAW.tempo DAW.nextNoteTime] in Hall, Hnext.
  assert (Hstep : 0 < 0.25 * (60 / DAW.tempo d)).
  { apply Rmult_lt_0_compat; [lra |]. apply Rdiv_lt_0_compat; lra. }
  split; [| lra].
  constructor; [simpl; lra |].
  eapply Forall_impl; [exact Hall |]. intros ev Hev. simpl in Hev. lra.
Qed.

(** X5: one pass of [scheduler()] at a positive tempo, from a timestamp that
    is not negative.  The pass returns, with the same result for every
    number of rounds that is enough.  It emits only events that are due,
    each with a timestamp from 0 on and below [now + scheduleAheadTime], and
    leaves none that is due: the next timestamp is at or past that horizon,
    and when the pass emitted anything, less than one step duration past
    it. *)
Theorem scheduler_stays_in_window d :
  0 < DAW.tempo d ->
  0 <= DAW.nextNoteTime d ->
  let horizon := AudioContext.currentTime (DAW.ctx d) + DAW.scheduleAheadTime d in
  exists d' evs,
    (exists fuel, forall fuel', (fuel <= fuel')%nat ->
       Sequencer.scheduler fuel' d = Some (d', evs))
    /\ Forall (fun ev => 0 <= snd ev < horizon) evs
    /\ horizon <= DAW.nextNoteTime d'
    /\ (evs <> [] ->
        DAW.nextNoteTime d' < horizon + 0.25 * (60 / DAW.tempo d)).
Proof.
  intros Htempo Hnext horizon.
  destruct (scheduler_terminates d Htempo) as (fuel & [d' evs] & Hs).
  exists d', evs. split.
  { exists fuel. intros fuel' Hle. exact (scheduler_mono _ _ _ _ Hs Hle). }
  apply scheduler_inv in Hs as (d1 & Hloop & ->).
  destruct (schedulerLoop_window _ _ _ _ Hloop) as (Hall & Hstop & _ & Hcons).
  destruct (schedulerLoop_after _ _ _ _ Htempo Hloop) as [Hafter _].
  destruct (rearm_transport d1) as (_ & _ & _ & Hnext1 & _).
  rewrite Hnext1. split; [| split; [| exact Hcons]].
  - apply Forall_forall. intros ev Hev.
    pose proof (proj1 (Forall_forall _ _) Hall ev Hev) as H1.
    pose proof (proj1 (Forall_forall _ _) Hafter ev Hev) as H2.
    simpl in H1, H2. subst horizon. lra.
  - subst horizon. lra.
Qed.

Lemma scheduler_stays_in_window_witness :
  exists d' evs,
    (exists fuel, Sequencer.scheduler fuel (Sequencer.startReset freshEngine)
                  = Some (d', evs))
    /\ Forall (fun ev => 0 <= snd ev < 0 + 0.1) evs
    /\ 0 + 0.1 <= DAW.nextNoteTime d'.
Proof.
  destruct (scheduler_stays_in_window (Sequencer.startReset freshEngine))
    as (d' & evs & (fuel & Hs) & Hall & Hnext & _); [simpl; lra | simpl; lra |].
  exists d', evs. split; [exists fuel; now apply Hs |].
  split; [exact Hall | exact Hnext].
Defined.

Lemma schedulerLoop_negative_tempo fuel : forall d,
  DAW.tempo d < 0 ->
  DAW.nextNoteTime d <
    AudioContext.currentTime (DAW.ctx d) + DAW.scheduleAheadTime d ->
  Sequencer.schedulerLoop fuel d = None.
Proof.
  induction fuel as [| fuel IH]; intros d Htempo Hdue; simpl;
    destruct (Rlt_dec _ _) as [_ | Hnot]; try reflexivity; try contradiction.
  destruct (scheduleNote_advanced (DAW.currentStep d) (DAW.nextNoteTime d) d)
    as (new1 & Hsched).
  rewrite Hsched, nextStep_advanced. rewrite IH; [reflexivity | exact Htempo |].
  cbn [advanced DAW.ctx DAW.scheduleAheadTime DAW.tempo DAW.nextNoteTime
         AudioContext.currentTime].
  assert (60 / DAW.tempo d < 0).
  { assert (Hinv : 0 < / - DAW.tempo d) by (apply Rinv_0_lt_compat; lra).
    rewrite Rinv_opp in Hinv. unfold Rdiv. lra. }
  lra.
Qed.

(** With nothing to play [scheduleNote] leaves the engine as it is, and a
    round of the loop is [nextStep()] alone. *)
Lemma scheduleNote_empty stepNumber time d :
  emptyPattern d -> Sequencer.scheduleNote stepNumber time d = d.
Proof.
  intros Hempty.
  pose proof (scheduleNote_ctx d stepNumber time) as Hctx.
  rewrite (Hempty stepNumber time) in Hctx. simpl in Hctx.
  unfold Sequencer.scheduleNote in *. cbn [DAW.ctx DAW.set_ctx] in Hctx.
  rewrite Hctx. apply set_ctx_same.
Qed.

Lemma nextStep_emptyPattern d : emptyPattern d -> emptyPattern (Sequencer.nextStep d).
Proof.
  intros Hempty stepNumber time. rewrite nextStep_advanced.
  exact (Hempty stepNumber time).
Qed.

Lemma rounds_of_empty_pattern d (n : nat) :
  emptyPattern d ->
  let dn := Nat.iter n round d in
  emptyPattern dn
  /\ DAW.ctx dn = DAW.ctx d
  /\ DAW.tempo dn = DAW.tempo d
  /\ DAW.scheduleAheadTime dn = DAW.scheduleAheadTime d
  /\ DAW.nextNoteTime dn =
     DAW.nextNoteTime d + INR n * (0.25 * (60 / DAW.tempo d)).
Proof.
  intros Hempty. induction n as [| n IH].
  - simpl. repeat split; [exact Hempty | lra].
  - cbn zeta in *. rewrite S_INR.
    destruct IH as (Hn & Hctx & Htempo & Hahead & Hnext).
    change (Nat.iter (S n) round d) with (round (Nat.iter n round d)).
    set (dn := Nat.iter n round d) in *.
    unfold round. rewrite scheduleNote_empty by exact Hn.
    split; [now apply nextStep_emptyPattern |].
    rewrite nextStep_advanced.
    cbn [advanced DAW.ctx DAW.tempo DAW.scheduleAheadTime DAW.nextNoteTime].
    rewrite Hnext, Htempo, Hahead. repeat split; [| lra].
    rewrite <- Hctx. now destruct (DAW.ctx dn).
Qed.

Lemma step_back (tempo : R) : tempo < 0 -> 0.25 * (60 / tempo) < 0.
Proof.
  intros Htempo.
  assert (Hinv : 0 < / - tempo) by (apply Rinv_0_lt_compat; lra).
  rewrite Rinv_opp in Hinv. unfold Rdiv. lra.
Qed.

(** X6: a negative tempo, as the tempo field gives for a negative entry,
    on a pattern with nothing to play (the one the page opens with).  Once
    an event is due the loop of [scheduler()] never ends: every round moves
    the next timestamp one step further back, so the test of the loop holds
    after every number of rounds, and no round makes a call on the audio
    context.  [start()] on a stopped transport with a positive look-ahead
    window then never returns, however many rounds it is given. *)
Theorem negative_tempo_never_returns d :
  DAW.tempo d < 0 ->
  emptyPattern d ->
  (DAW.nextNoteTime d <
     AudioContext.currentTime (DAW.ctx d) + DAW.scheduleAheadTime d ->
   (forall n,
      let dn := Nat.iter n round d in
      DAW.nextNoteTime dn =
        DAW.nextNoteTime d + INR n * (0.25 * (60 / DAW.tempo d))
      /\ DAW.nextNoteTime dn <
           AudioContext.currentTime (DAW.ctx dn) + DAW.scheduleAheadTime dn
      /\ DAW.ctx dn = DAW.ctx d)
   /\ forall fuel, Sequencer.scheduler fuel d = None)
  /\ (DAW.isPlaying d = false ->
      0 < DAW.scheduleAheadTime d ->
      forall fuel, Sequencer.start fuel d = None).
Proof.
  intros Htempo Hempty. split.
  - intros Hdue. split.
    + intros n dn.
      destruct (rounds_of_empty_pattern d n Hempty) as (_ & Hctx & _ & Hahead & Hnext).
      fold dn in Hctx, Hahead, Hnext.
      split; [exact Hnext |]. split; [| exact Hctx].
      rewrite Hnext, Hctx, Hahead.
      pose proof (step_back _ Htempo) as Hback.
      pose proof (pos_INR n) as Hn. nra.
    + intros fuel. unfold Sequencer.scheduler.
      now rewrite schedulerLoop_negative_tempo.
  - intros Hstopped Hwindow fuel. unfold Sequencer.start. rewrite Hstopped.
    unfold Sequencer.scheduler.
    destruct (startReset_fields d)
      as (_ & Hnext & _ & _ & Hclock & Htempo' & _ & Hahead & _).
    rewrite schedulerLoop_negative_tempo; [reflexivity | |].
    + now rewrite Htempo'.
    + rewrite Hnext, Hclock, Hahead. lra.
Qed.

Lemma filled_false_falsy (n k : nat) :
  JS.truthy (JS.get (JS.filled n false) k) = false.
Proof.
  unfold JS.get, JS.filled.
  destruct (replicate n (Some false) !! k) as [slot |] eqn:Hk; [| reflexivity].
  now apply lookup_replicate in Hk as [-> _].
Qed.

Lemma negative_tempo_never_returns_witness :
  Sequencer.start 1000 (UIManager.bpmChange (-5) freshEngine) = None.
Proof.
  apply (proj2 (negative_tempo_never_returns (UIManager.bpmChange (-5) freshEngine)
                  ltac:(simpl; lra)
                  ltac:(intros k t; unfold scheduledCalls, channelCalls; simpl;
                        now rewrite !filled_false_falsy))).
  - reflexivity.
  - simpl. lra.
Defined.

(** ** Further invariants of an initialised engine *)

Lemma react_tickPending fuel a d d' evs :
  Session.react fuel a d = Some (d', evs) ->
  oneTimer d ->
  tickPending d ->
  tickPending d'.
Proof.
  intros Hreact Htimer Hpending.
  assert (Hsame : sameTransport d d' -> tickPending d').
  { intros (_ & _ & _ & _ & Hplay & _ & Hid & Hwin).
    unfold tickPending. rewrite Hplay, Hid, Hwin. exact Hpending. }
  destruct a; try (apply Hsame; eapply react_sameTransport; [| exact Hreact]; exact I);
    simpl in Hreact; unfold Session.quiet in Hreact.
  - unfold Sequencer.start in Hreact. destruct (DAW.isPlaying d) eqn:Hplay.
    + now injection Hreact as <- <-.
    + destruct (startReset_fields d)
        as (_ & _ & Hplay' & _ & _ & _ & _ & _ & Hwin & _).
      apply scheduler_fields in Hreact as (_ & _ & _ & _ & _ & Hon & _).
      destruct (Hon Hplay') as [Hid Htimers].
      rewrite Hwin, (proj2 Htimer Hplay), union_empty_r_L in Htimers.
      rewrite Hwin in Hid.
      intros _. exists (Window.nextTimer (DAW.window d)). now split.
  - injection Hreact as <- <-. intros Hplay. discriminate Hplay.
  - destruct (decide _) as [Hin | Hgone]; [| now injection Hreact as <- <-].
    assert (Hplay : DAW.isPlaying d = true).
    { destruct (DAW.isPlaying d) eqn:Hp; [reflexivity |].
      rewrite (proj2 Htimer Hp) in Hin. now apply not_elem_of_empty in Hin. }
    destruct (Hpending Hplay) as (id0 & Hid0 & Hset).
    unfold Sequencer.timeout in Hreact.
    apply scheduler_fields in Hreact as (_ & _ & _ & _ & _ & Hon & _).
    destruct (Hon Hplay) as [Hid Htimers]. simpl in Hid, Htimers.
    rewrite Hset in Hin. apply elem_of_singleton in Hin. subst id0.
    rewrite Hset, difference_diag_L, union_empty_r_L in Htimers.
    intros _. exists (Window.nextTimer (DAW.window d)). now split.
  - injection Hreact as <- <-. exact Hpending.
Qed.

(** ** Sessions in range *)

Lemma playNote_currentTime mixerTracks ctx ch time duration pitch velocity :
  AudioContext.currentTime
    (Channel.playNote mixerTracks ctx ch time duration pitch velocity)
  = AudioContext.currentTime ctx.
Proof.
  destruct (playNote_voices mixerTracks ctx ch time duration pitch velocity)
    as (new & -> & _).
  reflexivity.
Qed.

Lemma rearm_ctx d : DAW.ctx (Sequencer.rearm d) = DAW.ctx d.
Proof. unfold Sequencer.rearm. now destruct (DAW.isPlaying d). Qed.

(** A pass of [scheduler()] on an engine in range: the times it hands to
    [scheduleNote] are not negative, and the engine stays in range. *)
Lemma scheduler_inRange fuel d d' evs :
  inRangeState d ->
  Sequencer.scheduler fuel d = Some (d', evs) ->
  inRangeState d' /\ Forall (fun ev => 0 <= snd ev) evs.
Proof.
  intros (Htempo & Hclock & Hnext) Hs.
  apply scheduler_inv in Hs as (d1 & Hloop & ->).
  destruct (schedulerLoop_after _ _ _ _ Htempo Hloop) as [Hafter Hlater].
  destruct (schedulerLoop_frame _ _ _ _ Hloop) as (voices & step & next & Hd1).
  destruct (rearm_transport d1) as (Htempo1 & _ & _ & Hnext1 & _).
  split.
  - unfold inRangeState. rewrite Htempo1, Hnext1, rearm_ctx.
    split; [| split; [| lra]]; rewrite Hd1; simpl; assumption.
  - eapply Forall_impl; [exact Hafter |]. intros ev Hev. simpl in Hev. lra.
Qed.

Lemma react_inRange fuel a d d' evs :
  inRangeState d ->
  inRange a ->
  Session.react fuel a d = Some (d', evs) ->
  inRangeState d' /\ Forall (fun ev => 0 <= snd ev) evs.
Proof.
  intros Hstate Hrange Hreact.
  pose proof Hstate as (Htempo & Hclock & Hnext).
  destruct a; simpl in Hreact, Hrange; unfold Session.quiet in Hreact.
  - unfold Sequencer.start in Hreact. destruct (DAW.isPlaying d).
    + injection Hreact as <- <-. split; [exact Hstate | constructor].
    + apply (scheduler_inRange _ _ _ _) in Hreact; [exact Hreact |].
      destruct (startReset_fields d)
        as (_ & Hn & _ & _ & Hc & Ht & _).
      unfold inRangeState. rewrite Hn, Hc, Ht. tauto.
  - injection Hreact as <- <-. split; [exact Hstate | constructor].
  - destruct (decide _).
    + unfold Sequencer.timeout in Hreact.
      apply (scheduler_inRange _ _ _ _) in Hreact; [exact Hreact |].
      exact Hstate.
    + injection Hreact as <- <-. split; [exact Hstate | constructor].
  - injection Hreact as <- <-. split; [| constructor].
    unfold inRangeState. simpl. tauto.
  - injection Hreact as <- <-. split; [| constructor].
    unfold inRangeState. simpl. tauto.
  - injection Hreact as <- <-. split; [exact Hstate | constructor].
  - injection Hreact as <- <-. split; [| constructor].
    unfold FileLoader.loadSample, AudioEngine.createChannel. simpl.
    rewrite list_lookup_middle by reflexivity. exact Hstate.
  - split; [| destruct (decide _); injection Hreact as <- <-; constructor].
    destruct (decide _); injection Hreact as <- <-; [| exact Hstate].
    unfold UIManager.stepClick. now destruct (DAW.channels d !! idx).
  - injection Hreact as <- <-. split; [exact Hstate | constructor].
  - injection Hreact as <- <-. split; [| constructor].
    unfold PianoRoll.handleInput.
    now destruct (DAW.channels d !! DAW.selectedChannelIndex d).
  - injection Hreact as <- <-. split; [| constructor].
    unfold UIManager.faderMove. now destruct (DAW.mixerTracks d !! i).
  - injection Hreact as <- <-. split; [| constructor].
    unfold Midi.onmidimessage. repeat case_match; try exact Hstate.
    unfold inRangeState. simpl. now rewrite playNote_currentTime.
  - injection Hreact as <- <-. split; [| constructor].
    unfold AudioEngine.resumeOnClick.
    now destruct (AudioContext.suspended (DAW.ctx d)).
Qed.

Lemma react_returns a d :
  0 < DAW.tempo d -> exists fuel r, Session.react fuel a d = Some r.
Proof.
  intros Htempo.
  destruct a; try (apply react_total; [exact I | exact Htempo]);
    exists 0%nat; simpl; unfold Session.quiet; eauto.
Qed.

(** A session in range goes through, the times it schedules at are not
    negative, and it ends in a state of the initialised engine. *)
Lemma run_inRange actions : forall d,
  inRangeState d ->
  Forall inRange actions ->
  (exists fuel r, Session.run fuel actions d = Some r)
  /\ (forall fuel d' evs,
        Session.run fuel actions d = Some (d', evs) ->
        Forall (fun ev => 0 <= snd ev) evs
        /\ (Session.reachable d -> Session.reachable d')).
Proof.
  induction actions as [| a rest IH]; intros d Hstate Hall.
  - split; [exists 0%nat; simpl; eauto |].
    intros fuel d' evs Hrun. injection Hrun as <- <-. split; [constructor | auto].
  - apply Forall_cons in Hall as [Ha Hrest]. split.
    + destruct (react_returns a d (proj1 Hstate)) as (fuel1 & [d1 evs1] & Hreact).
      destruct (react_inRange _ _ _ _ _ Hstate Ha Hreact) as [Hstate1 _].
      destruct (proj1 (IH d1 Hstate1 Hrest)) as (fuel2 & [d2 evs2] & Hrun).
      exists (Nat.max fuel1 fuel2). simpl.
      rewrite (react_mono _ (Nat.max fuel1 fuel2) _ _ _ Hreact) by lia.
      rewrite (run_mono _ (Nat.max fuel1 fuel2) _ _ _ Hrun) by lia. eauto.
    + intros fuel d' evs Hrun. simpl in Hrun.
      destruct (Session.react fuel a d) as [[d1 evs1] |] eqn:Hreact; [| discriminate].
      destruct (Session.run fuel rest d1) as [[d2 evs2] |] eqn:Hrest'; [| discriminate].
      injection Hrun as <- <-.
      destruct (react_inRange _ _ _ _ _ Hstate Ha Hreact) as [Hstate1 Hevs1].
      destruct (proj2 (IH d1 Hstate1 Hrest) _ _ _ Hrest') as [Hevs2 Hreach].
      split; [apply Forall_app; now split |].
      intros Hd. apply Hreach.
      exact (Session.reach_react _ _ _ _ _ Hd Hreact).
Qed.

Lemma reachable_tickPending d :
  Session.reachable d -> oneTimer d /\ tickPending d.
Proof.
  induction 1 as [| d a fuel d' evs _ [IH1 IH2] Hreact].
  - split; [apply init_wellFormed |]. intros Hplay. discriminate Hplay.
  - split; [exact (react_oneTimer _ _ _ _ _ Hreact IH1) |].
    exact (react_tickPending _ _ _ _ _ Hreact IH1 IH2).
Qed.

(** X7: the look-ahead loop neither dies nor doubles.  Take any session on
    an initialised engine in which every tempo entered is positive, the
    audio clock is never negative and imported buffers have a duration that
    is not negative.  The session goes through; every time the scheduler
    hands to the audio nodes is 0 or more; and at its end, while the
    transport plays exactly one timer is pending and it is the one kept in
    [DAW.timerID], while it is stopped none is. *)
Theorem one_tick_pending_while_playing
    (randomSnare randomHat : nat -> R) (sampleRate : R)
    (actions : list Session.Action) :
  Forall inRange actions ->
  let engine := AudioEngine.init randomSnare randomHat sampleRate in
  (exists fuel d evs, Session.run fuel actions engine = Some (d, evs))
  /\ (forall fuel d evs,
        Session.run fuel actions engine = Some (d, evs) ->
        Forall (fun ev => 0 <= snd ev) evs
        /\ (DAW.isPlaying d = true ->
            exists id,
              DAW.timerID d = Some id /\ Window.timers (DAW.window d) = {[id]})
        /\ (DAW.isPlaying d = false -> Window.timers (DAW.window d) = ∅)).
Proof.
  intros Hall engine.
  assert (Hstate : inRangeState engine).
  { unfold inRangeState. simpl. lra. }
  destruct (run_inRange actions engine Hstate Hall) as [Hgoes Hends].
  split.
  - destruct Hgoes as (fuel & [d evs] & Hrun). now exists fuel, d, evs.
  - intros fuel d evs Hrun.
    destruct (Hends _ _ _ Hrun) as [Hevs Hreach].
    split; [exact Hevs |].
    destruct (reachable_tickPending d (Hreach (Session.reach_init _ _ _)))
      as [[_ Hstopped] Hpending].
    split; assumption.
Qed.

Lemma one_tick_pending_while_playing_witness :
  exists d id,
    (exists fuel evs,
       Session.run fuel [Session.StepClick 0 0; Session.Start] freshEngine
       = Some (d, evs))
    /\ DAW.isPlaying d = true
    /\ DAW.timerID d = Some id
    /\ Window.timers (DAW.window d) = {[id]}.
Proof.
  destruct (one_tick_pending_while_playing (fun _ => 0.5) (fun _ => 0.5) 44100
              [Session.StepClick 0 0; Session.Start])
    as [(fuel & d & evs & Hrun) Hends]; [repeat constructor |].
  destruct (Hends fuel d evs Hrun) as (_ & Hplaying & _).
  assert (Hplay : DAW.isPlaying d = true).
  { simpl in Hrun.
    destruct (Sequencer.start fuel _) as [[d1 evs1] |] eqn:Hstart; [| discriminate].
    injection Hrun as <- _.
    unfold Sequencer.start in Hstart. simpl (DAW.isPlaying _) in Hstart. cbv iota in Hstart.
    apply scheduler_fields in Hstart as (_ & _ & _ & _ & Hp & _).
    rewrite Hp. apply startReset_fields. }
  destruct (Hplaying Hplay) as (id & Hid & Htimers).
  exists d, id. split; [now exists fuel, evs |]. now split.
Defined.

Lemma schedulerLoop_cursor fuel d d' evs :
  Sequencer.schedulerLoop fuel d = Some (d', evs) ->
  (DAW.currentStep d < DAW.stepCount d)%nat ->
  (DAW.currentStep d' < DAW.stepCount d')%nat.
Proof.
  intros Hloop Hlt.
  apply (schedulerLoop_events _ _ _ _ (DAW.currentStep d)
           (DAW.nextNoteTime d
            - INR (DAW.currentStep d) * (0.25 * (60 / DAW.tempo d)))) in Hloop.
  - destruct Hloop as (_ & (new & ->) & _). simpl.
    apply Nat.mod_upper_bound. lia.
  - lia.
  - symmetry. now apply Nat.mod_small.
  - lra.
Qed.

Lemma toggleSteps_flags (steps : JS.array) (i : nat) :
  (i < length steps)%nat ->
  allFlags steps ->
  length (UIManager.toggleSteps i steps) = length steps
  /\ allFlags (UIManager.toggleSteps i steps).
Proof.
  intros Hi Hflags. unfold UIManager.toggleSteps, JS.set.
  destruct (decide (i < length steps)%nat); [| lia].
  split; [apply length_insert |].
  apply Forall_insert; [exact Hflags | eauto].
Qed.

Lemma new_flags id name type :
  length (Channel.steps (Channel.new id name type)) = 16%nat
  /\ allFlags (Channel.steps (Channel.new id name type)).
Proof.
  split; [reflexivity |]. simpl. unfold allFlags, JS.filled. simpl.
  repeat constructor; eauto.
Qed.

Lemma react_rackInStep fuel a d d' evs :
  Session.react fuel a d = Some (d', evs) ->
  DAW.stepCount d = 16%nat ->
  rackInStep d ->
  rackInStep d'.
Proof.
  intros Hreact Hcount [Hcursor Hrack].
  destruct (react_constants _ _ _ _ _ Hreact) as [Hcount' _].
  assert (Hkeep : DAW.currentStep d' = DAW.currentStep d ->
                  DAW.channels d' = DAW.channels d -> rackInStep d').
  { intros H1 H2. unfold rackInStep. rewrite H1, H2, Hcount'. now split. }
  assert (Hsched : forall d0 fuel0,
             DAW.channels d0 = DAW.channels d ->
             DAW.stepCount d0 = DAW.stepCount d ->
             (DAW.currentStep d0 < DAW.stepCount d0)%nat ->
             Sequencer.scheduler fuel0 d0 = Some (d', evs) -> rackInStep d').
  { intros d0 fuel0 Hch0 Hcount0 Hlt0 Hs.
    pose proof (scheduler_fields _ _ _ _ Hs) as (Hch & _ & Hc & _).
    apply scheduler_inv in Hs as (d1 & Hloop & ->).
    pose proof (schedulerLoop_cursor _ _ _ _ Hloop Hlt0) as Hlt1.
    destruct (rearm_transport d1) as (_ & Hc1 & Hs1 & _).
    unfold rackInStep. rewrite Hch, Hch0, Hs1. split.
    - rewrite Hc1. exact Hlt1.
    - rewrite Hc, Hcount0. exact Hrack. }
  destruct a; simpl in Hreact; unfold Session.quiet in Hreact;
    try (injection Hreact as <- <-; apply Hkeep; unfold_handlers;
         repeat case_match; reflexivity).
  - unfold Sequencer.start in Hreact. destruct (DAW.isPlaying d).
    + injection Hreact as <- <-. now split.
    + destruct (startReset_fields d)
        as (Hstep & _ & _ & _ & _ & _ & Hc & _ & _ & _ & Hch & _).
      apply (Hsched _ fuel Hch Hc); [| exact Hreact]. rewrite Hstep, Hc. lia.
  - destruct (decide _).
    + unfold Sequencer.timeout in Hreact.
      exact (Hsched (DAW.set_window (Window.expire id (DAW.window d)) d) fuel
               eq_refl eq_refl Hcursor Hreact).
    + injection Hreact as <- <-. now split.
  - injection Hreact as <- <-. unfold UIManager.addChannelClick,
      AudioEngine.createChannel. split; [exact Hcursor |]. simpl.
    apply Forall_app. split; [exact Hrack |].
    constructor; [| constructor]. rewrite Hcount. apply new_flags.
  - injection Hreact as <- <-. unfold FileLoader.loadSample,
      AudioEngine.createChannel. simpl.
    rewrite list_lookup_middle by reflexivity. split; [exact Hcursor |]. simpl.
    apply Forall_insert.
    + apply Forall_app. split; [exact Hrack |].
      constructor; [| constructor]. rewrite Hcount. apply new_flags.
    + rewrite Hcount. apply new_flags.
  - destruct (decide _) as [Hi | _]; injection Hreact as <- <-; [| now split].
    unfold UIManager.stepClick.
    destruct (DAW.channels d !! idx) as [ch |] eqn:Hch; [| now split].
    split; [exact Hcursor |]. simpl.
    destruct (proj1 (Forall_lookup _ _) Hrack idx ch Hch) as [Hlen Hflags].
    apply Forall_insert; [exact Hrack |]. simpl.
    destruct (toggleSteps_flags (Channel.steps ch) i) as [Hl Hf];
      [lia | exact Hflags |].
    split; [congruence | exact Hf].
  - injection Hreact as <- <-. unfold PianoRoll.handleInput.
    destruct (DAW.channels d !! DAW.selectedChannelIndex d) as [ch |] eqn:Hch;
      [| now split].
    split; [exact Hcursor |]. simpl.
    apply Forall_insert; [exact Hrack |].
    exact (proj1 (Forall_lookup _ _) Hrack _ ch Hch).
Qed.

Lemma reachable_rackInStep d : Session.reachable d -> rackInStep d.
Proof.
  induction 1 as [| d a fuel d' evs Hreach IH Hreact].
  - split; [simpl; lia |]. simpl.
    repeat (constructor; [split; [reflexivity | apply new_flags] |]). constructor.
  - apply (react_rackInStep _ _ _ _ _ Hreact); [| exact IH].
    apply (reachable_wellFormed d Hreach).
Qed.

(** X8: on an initialised engine the step rack and the transport stay in
    step.  Whatever tasks ran, the step count is 16, the cursor is below
    it, and every channel, the default ones and the added and imported ones,
    has exactly 16 step flags, all of them booleans; so the flag the
    scheduler reads at the cursor is never [undefined]. *)
Theorem rack_stays_in_step (d : DAW.t) :
  Session.reachable d ->
  DAW.stepCount d = 16%nat
  /\ (DAW.currentStep d < 16)%nat
  /\ forall idx ch,
       DAW.channels d !! idx = Some ch ->
       length (Channel.steps ch) = 16%nat
       /\ (forall i, (i < 16)%nat -> is_Some (JS.get (Channel.steps ch) i))
       /\ is_Some (JS.get (Channel.steps ch) (DAW.currentStep d)).
Proof.
  intros Hreach.
  destruct (reachable_wellFormed d Hreach) as (_ & _ & _ & Hcount & _).
  destruct (reachable_rackInStep d Hreach) as [Hcursor Hrack].
  rewrite Hcount in Hcursor. split; [exact Hcount |]. split; [exact Hcursor |].
  intros idx ch Hch.
  destruct (proj1 (Forall_lookup _ _) Hrack idx ch Hch) as [Hlen Hflags].
  rewrite Hcount in Hlen.
  assert (Hget : forall i, (i < 16)%nat -> is_Some (JS.get (Channel.steps ch) i)).
  { intros i Hi.
    destruct (lookup_lt_is_Some_2 (Channel.steps ch) i) as [slot Hslot]; [lia |].
    destruct (proj1 (Forall_lookup _ _) Hflags i slot Hslot) as [b ->].
    exists b. unfold JS.get. now rewrite Hslot. }
  split; [exact Hlen |]. split; [exact Hget |]. now apply Hget.
Qed.

Lemma rack_stays_in_step_witness :
  exists ch,
    DAW.channels freshEngine !! 2%nat = Some ch
    /\ length (Channel.steps ch) = 16%nat
    /\ is_Some (JS.get (Channel.steps ch) 15).
Proof.
  destruct (rack_stays_in_step freshEngine (Session.reach_init _ _ _))
    as (_ & _ & Hrack).
  eexists. split; [reflexivity |].
  destruct (Hrack 2%nat _ eq_refl) as (Hlen & Hget & _).
  split; [exact Hlen |]. apply Hget. lia.
Defined.

(** ** Channels and their routes *)

(** X9: on an initialised engine a channel's id is its position in
    [DAW.channels], so ids are never shared, and the automatic route
    [(id % 16) + 1] sends two channels to the same insert track exactly when
    their ids differ by a multiple of 16: the seventeenth channel joins the
    first one on insert 1. *)
Theorem channels_share_insert_mod_16 (d : DAW.t) (i j : nat) ch ch' :
  Session.reachable d ->
  DAW.channels d !! i = Some ch ->
  DAW.channels d !! j = Some ch' ->
  Channel.id ch = i
  /\ (Channel.id ch = Channel.id ch' -> i = j)
  /\ (Channel.targetMixerTrack ch = Channel.targetMixerTrack ch'
      <-> (i mod 16 = j mod 16)%nat).
Proof.
  intros Hreach Hi Hj.
  destruct (reachable_wellFormed d Hreach) as (Hrouted & _).
  destruct (Hrouted i ch Hi) as [Hid Ht].
  destruct (Hrouted j ch' Hj) as [Hid' Ht'].
  split; [exact Hid |]. split; [congruence |].
  rewrite Ht, Ht'. lia.
Qed.

Lemma channels_share_insert_mod_16_witness :
  exists ch ch',
    DAW.channels freshEngine !! 0%nat = Some ch
    /\ DAW.channels freshEngine !! 3%nat = Some ch'
    /\ (Channel.targetMixerTrack ch = Channel.targetMixerTrack ch'
        <-> (0 mod 16 = 3 mod 16)%nat).
Proof.
  do 2 eexists. split; [reflexivity |]. split; [reflexivity |].
  exact (proj2 (proj2 (channels_share_insert_mod_16 freshEngine 0 3 _ _
                         (Session.reach_init _ _ _) eq_refl eq_refl))).
Defined.

Lemma insert_last {A} (l : list A) (x y : A) :
  <[length l := x]> (l ++ [y]) = l ++ [x].
Proof.
  rewrite insert_app_r_alt by lia. now rewrite Nat.sub_diag.
Qed.

Lemma react_sounding fuel a d d' evs :
  Session.react fuel a d = Some (d', evs) ->
  Forall sounding (DAW.channels d) ->
  Forall sounding (DAW.channels d').
Proof.
  intros Hreact Hsound.
  assert (Hsame : forall channels',
             channels' = DAW.channels d -> Forall sounding channels')
    by (now intros ? ->).
  destruct a; simpl in Hreact; unfold Session.quiet in Hreact.
  - apply Hsame. unfold Sequencer.start in Hreact. destruct (DAW.isPlaying d).
    + now injection Hreact as <- <-.
    + apply scheduler_fields in Hreact as (Hch & _). rewrite Hch.
      apply startReset_fields.
  - apply Hsame. now injection Hreact as <- <-.
  - apply Hsame. destruct (decide _).
    + now apply scheduler_fields in Hreact as (Hch & _).
    + now injection Hreact as <- <-.
  - apply Hsame. now injection Hreact as <- <-.
  - apply Hsame. now injection Hreact as <- <-.
  - injection Hreact as <- <-. unfold UIManager.addChannelClick,
      AudioEngine.createChannel. simpl.
    apply Forall_app. split; [exact Hsound |].
    constructor; [now left | constructor].
  - injection Hreact as <- <-. unfold FileLoader.loadSample,
      AudioEngine.createChannel. simpl.
    rewrite list_lookup_middle by reflexivity. simpl. rewrite insert_last.
    apply Forall_app. split; [exact Hsound |].
    constructor; [| constructor]. right. split; [reflexivity | eauto].
  - destruct (decide _); injection Hreact as <- <-; [| exact Hsound].
    unfold UIManager.stepClick.
    destruct (DAW.channels d !! idx) as [ch |] eqn:Hch; [| exact Hsound].
    simpl. apply Forall_insert; [exact Hsound |].
    exact (proj1 (Forall_lookup _ _) Hsound idx ch Hch).
  - apply Hsame. now injection Hreact as <- <-.
  - injection Hreact as <- <-. unfold PianoRoll.handleInput.
    destruct (DAW.channels d !! DAW.selectedChannelIndex d) as [ch |] eqn:Hch;
      [| exact Hsound].
    simpl. apply Forall_insert; [exact Hsound |].
    exact (proj1 (Forall_lookup _ _) Hsound _ ch Hch).
  - apply Hsame. injection Hreact as <- <-.
    unfold UIManager.faderMove. now destruct (DAW.mixerTracks d !! i).
  - apply Hsame. injection Hreact as <- <-.
    unfold Midi.onmidimessage. repeat case_match; reflexivity.
  - apply Hsame. injection Hreact as <- <-.
    unfold AudioEngine.resumeOnClick.
    now destruct (AudioContext.suspended (DAW.ctx d)).
Qed.

Lemma reachable_sounding d : Session.reachable d -> Forall sounding (DAW.channels d).
Proof.
  induction 1 as [| d a fuel d' evs _ IH Hreact].
  - simpl. repeat (constructor; [right; split; [reflexivity | eauto] |]).
    constructor; [now left | constructor].
  - exact (react_sounding _ _ _ _ _ Hreact IH).
Qed.

Lemma playNote_one_voice mixerTracks ctx ch time duration pitch velocity :
  sounding ch ->
  exists v,
    Channel.playNote mixerTracks ctx ch time duration pitch velocity =
    AudioContext.connect v ctx
    /\ dest v = Channel.route mixerTracks ch
    /\ startAt v = time.
Proof.
  intros [Hsy | [Hsa [buf Hbuf]]].
  - rewrite playNote_synth by assumption. eexists. now split.
  - rewrite (playNote_sampler _ _ _ buf) by assumption. eexists. now split.
Qed.

Lemma reachable_route d idx ch :
  Session.reachable d ->
  DAW.channels d !! idx = Some ch ->
  Channel.route (DAW.mixerTracks d) ch = TrackInput (Channel.targetMixerTrack ch).
Proof.
  intros Hreach Hch.
  destruct (reachable_wellFormed d Hreach) as (Hrouted & [Hlen Hindex] & _).
  destruct (Hrouted idx ch Hch) as [_ Ht].
  pose proof (Nat.mod_upper_bound idx 16) as Hmod.
  destruct (lookup_lt_is_Some_2 (DAW.mixerTracks d) (Channel.targetMixerTrack ch))
    as [track Htrack]; [lia |].
  unfold Channel.route. rewrite Htrack. unfold MixerTrack.input.
  now rewrite (Hindex _ _ Htrack).
Qed.

(** X10: on an initialised engine no channel is ever mute for want of a
    source.  Whatever tasks ran, every channel is a synth or a sampler that
    has its buffer, the imported ones included, so [playNote] on any of them
    builds exactly one voice, starting at the time asked for, and connects
    it to the input of the channel's own insert track. *)
Theorem every_channel_sounds (d : DAW.t) idx ch (time duration pitch velocity : R) :
  Session.reachable d ->
  DAW.channels d !! idx = Some ch ->
  sounding ch
  /\ exists v,
       AudioContext.voices
         (Channel.playNote (DAW.mixerTracks d) (DAW.ctx d) ch
            time duration pitch velocity)
       = AudioContext.voices (DAW.ctx d) ++ [v]
       /\ dest v = TrackInput (Channel.targetMixerTrack ch)
       /\ startAt v = time.
Proof.
  intros Hreach Hch.
  pose proof (proj1 (Forall_lookup _ _) (reachable_sounding d Hreach) idx ch Hch)
    as Hsound.
  split; [exact Hsound |].
  destruct (playNote_one_voice (DAW.mixerTracks d) (DAW.ctx d) ch
              time duration pitch velocity Hsound) as (v & -> & Hdest & Hstart).
  exists v. split; [reflexivity |]. split; [| exact Hstart].
  rewrite Hdest. now apply (reachable_route d idx).
Qed.

Lemma every_channel_sounds_witness :
  exists ch v,
    DAW.channels freshEngine !! 1%nat = Some ch
    /\ AudioContext.voices
         (Channel.playNote (DAW.mixerTracks freshEngine) (DAW.ctx freshEngine) ch
            0 0.1 60 1)
       = AudioContext.voices (DAW.ctx freshEngine) ++ [v]
    /\ dest v = TrackInput (Channel.targetMixerTrack ch).
Proof.
  destruct (every_channel_sounds freshEngine 1 _ 0 0.1 60 1
              (Session.reach_init _ _ _) eq_refl) as (_ & v & Hv & Hdest & _).
  eexists _, v. split; [reflexivity |]. split; [exact Hv | exact Hdest].
Defined.

Lemma perform_sounding mixerTracks calls : forall ctx,
  Forall (fun c => sounding (Sequencer.callee c)) calls ->
  exists new,
    AudioContext.voices (fold_left (Sequencer.perform mixerTracks) calls ctx) =
    AudioContext.voices ctx ++ new
    /\ Forall2 (fun c v => startAt v = Sequencer.time c
                           /\ dest v = Channel.route mixerTracks (Sequencer.callee c))
               calls new.
Proof.
  induction calls as [| c calls IH]; intros ctx Hall.
  - exists []. simpl. rewrite app_nil_r. split; [reflexivity | constructor].
  - apply Forall_cons in Hall as [Hc Hrest]. simpl.
    unfold Sequencer.perform at 2.
    destruct (playNote_one_voice mixerTracks ctx (Sequencer.callee c)
                (Sequencer.time c) (Sequencer.duration c) (Sequencer.pitch c)
                (Sequencer.velocity c) Hc) as (v & -> & Hdest & Hstart).
    destruct (IH (AudioContext.connect v ctx) Hrest) as (new & -> & Hnew).
    exists (v :: new). simpl. rewrite <- app_assoc. split; [reflexivity |].
    constructor; [now split | exact Hnew].
Qed.

(** X11: on an initialised engine at a positive tempo,
    [scheduleNote(stepNumber, time)] at a time that is not negative makes
    its calls of [playNote] at that time and with a positive duration, and
    adds exactly one voice for each of them, that is for each step flag set
    at the step and for each piano-roll note on it, in the order of the
    channels; every voice starts at [time] and enters the mixer at the
    insert of its channel, and no voice is taken away. *)
Theorem scheduleNote_one_voice_per_call (d : DAW.t) (stepNumber : nat) (time : R) :
  Session.reachable d ->
  0 < DAW.tempo d ->
  0 <= time ->
  exists new,
    AudioContext.voices (DAW.ctx (Sequencer.scheduleNote stepNumber time d)) =
    AudioContext.voices (DAW.ctx d) ++ new
    /\ length new = length (scheduledCalls d stepNumber time)
    /\ Forall (fun c => 0 <= Sequencer.time c /\ 0 < Sequencer.duration c)
              (scheduledCalls d stepNumber time)
    /\ Forall2 (fun c v =>
                  startAt v = time
                  /\ dest v = TrackInput (Channel.targetMixerTrack (Sequencer.callee c)))
               (scheduledCalls d stepNumber time) new.
Proof.
  intros Hreach Htempo Htime. rewrite scheduleNote_ctx.
  pose proof (reachable_sounding d Hreach) as Hsound.
  destruct (reachable_wellFormed d Hreach) as (_ & _ & _ & _ & _ & Hdrawn).
  assert (Hcalls : forall c,
             In c (scheduledCalls d stepNumber time) ->
             Sequencer.time c = time
             /\ 0 < Sequencer.duration c
             /\ exists idx, DAW.channels d !! idx = Some (Sequencer.callee c)).
  { intros c Hc. unfold scheduledCalls in Hc. apply in_flat_map in Hc as (ch & Hch & Hc).
    apply list_elem_of_In, list_elem_of_lookup in Hch. destruct Hch as [idx Hidx].
    apply in_channelCalls in Hc as [[_ ->] | (note & Hnote & _ & ->)].
    - split; [reflexivity |]. split; [simpl; lra | now exists idx].
    - split; [reflexivity |]. split; [| now exists idx].
      pose proof (proj1 (Forall_lookup _ _) Hdrawn idx ch Hidx) as Hnotes.
      destruct (drawn_grid _ Hnotes) as [Hgrid _].
      apply list_elem_of_In in Hnote.
      destruct (proj1 (Forall_forall _ _) Hgrid note Hnote) as (p & s & ->).
      simpl. rewrite Rmult_1_l.
      apply Rdiv_lt_0_compat; [apply Rdiv_lt_0_compat |]; lra. }
  destruct (perform_sounding (DAW.mixerTracks d) (scheduledCalls d stepNumber time)
              (DAW.ctx d)) as (new & Hnew & Hpairs).
  - apply Forall_forall. intros c Hc. apply list_elem_of_In in Hc.
    destruct (Hcalls c Hc) as (_ & _ & idx & Hidx).
    exact (proj1 (Forall_lookup _ _) Hsound idx _ Hidx).
  - exists new. split; [exact Hnew |].
    split; [symmetry; exact (Forall2_length _ _ _ Hpairs) |].
    split.
    { apply Forall_forall. intros c Hc. apply list_elem_of_In in Hc.
      destruct (Hcalls c Hc) as (-> & Hdur & _). now split. }
    apply Forall2_same_length_lookup. split; [exact (Forall2_length _ _ _ Hpairs) |].
    intros k c v Hc Hv.
    destruct (Forall2_lookup_lr _ _ _ _ _ _ Hpairs Hc Hv) as [Hstart Hdest].
    assert (Hin : In c (scheduledCalls d stepNumber time))
      by (apply list_elem_of_In, list_elem_of_lookup; eauto).
    destruct (Hcalls c Hin) as (Hctime & _ & idx & Hidx).
    split; [congruence |]. rewrite Hdest. now apply (reachable_route d idx).
Qed.

Lemma scheduleNote_one_voice_per_call_witness :
  let d := PianoRoll.handleInput 10 490 (UIManager.stepClick 0 0 freshEngine) in
  exists hit note,
    AudioContext.voices (DAW.ctx (Sequencer.scheduleNote 0 0 d)) =
    AudioContext.voices (DAW.ctx d) ++ [hit; note]
    /\ startAt hit = 0 /\ dest hit = TrackInput 1
    /\ startAt note = 0 /\ dest note = TrackInput 1.
Proof.
  intros d.
  assert (Hreach : Session.reachable d).
  { apply (Session.reach_react (UIManager.stepClick 0 0 freshEngine)
             (Session.PianoClick 10 490) 0 d []); [| reflexivity].
    apply (Session.reach_react freshEngine (Session.StepClick 0 0) 0 _ []);
      [apply Session.reach_init | reflexivity]. }
  assert (H10 : Int_part (10 / PianoRoll.zoomX) = 0%Z)
    by (symmetry; apply Int_part_spec; unfold PianoRoll.zoomX, Rdiv; lra).
  assert (Hon : Sequencer.onStep 0 (freshNote (84 - IZR (Int_part (490 / PianoRoll.zoomY)))
                                              (IZR (Int_part (10 / PianoRoll.zoomX))))).
  { unfold Sequencer.onStep, JS.Math_abs. simpl. rewrite H10, Rminus_diag, Rabs_R0. lra. }
  destruct (scheduleNote_one_voice_per_call d 0 0 Hreach)
    as (new & Hnew & Hlen & _ & Hpairs); [simpl; lra | lra |].
  assert (Hcalls : exists c1 c2,
             scheduledCalls d 0 0 = [c1; c2]
             /\ Channel.targetMixerTrack (Sequencer.callee c1) = 1%nat
             /\ Channel.targetMixerTrack (Sequencer.callee c2) = 1%nat).
  { unfold scheduledCalls, channelCalls, d. simpl.
    change (PianoRoll.toggle (84 - IZR (Int_part (490 / PianoRoll.zoomY)))
              (IZR (Int_part (10 / PianoRoll.zoomX))) [])
      with [freshNote (84 - IZR (Int_part (490 / PianoRoll.zoomY)))
                      (IZR (Int_part (10 / PianoRoll.zoomX)))].
    rewrite filter_cons_True by exact Hon. simpl.
    eexists _, _. split; [reflexivity |]. now split. }
  destruct Hcalls as (c1 & c2 & Hcalls & Ht1 & Ht2).
  rewrite Hcalls in Hpairs.
  apply Forall2_cons_inv_l in Hpairs as (hit & rest & [Hs1 Hd1] & Hrest & ->).
  apply Forall2_cons_inv_l in Hrest as (note & rest' & [Hs2 Hd2] & Hnil & ->).
  apply Forall2_nil_inv_l in Hnil as ->.
  exists hit, note. rewrite Ht1 in Hd1. rewrite Ht2 in Hd2.
  split; [exact Hnew |]. now repeat split.
Defined.

(** ** The mixer *)

Lemma setup_succ (n : nat) :
  MixerGraph.setup (S n) =
  MixerGraph.setup n ++
  [(MixerTrack.new n, MixerGraph.analyserTarget (map fst (MixerGraph.setup n)) n)].
Proof.
  unfold MixerGraph.setup. now rewrite seq_S, fold_left_app.
Qed.

Lemma setup_tracks (n : nat) :
  map fst (MixerGraph.setup n) = map MixerTrack.new (seq 0 n).
Proof.
  induction n as [| n IH]; [reflexivity |].
  now rewrite setup_succ, seq_S, !map_app, IH.
Qed.

Lemma setup_lookup (n i : nat) :
  (i < n)%nat ->
  MixerGraph.setup n !! i =
  Some (MixerTrack.new i, if decide (i = 0)%nat then MasterGain else TrackInput 0).
Proof.
  induction n as [| n IH]; intros Hi; [lia |].
  rewrite setup_succ.
  assert (Hlen : length (MixerGraph.setup n) = n).
  { rewrite <- (length_map fst), setup_tracks, length_map. apply length_seq. }
  destruct (decide (i < n)%nat) as [Hlt | Hge].
  - rewrite lookup_app_l by lia. now apply IH.
  - assert (i = n) by lia. subst i.
    rewrite lookup_app_r by lia. rewrite Hlen, Nat.sub_diag. simpl.
    f_equal. f_equal. unfold MixerGraph.analyserTarget.
    destruct n as [| n]; [reflexivity |].
    destruct (decide (0 < S n)%nat); [| lia].
    destruct (decide (S n = 0)%nat); [lia |].
    rewrite setup_tracks. reflexivity.
Qed.

(** X12: the mixer [AudioEngine.init] builds is a star on the master track.
    Its 17 tracks are the ones the engine starts with, track [i] at position
    [i]; the analyser of track 0 is connected to the master gain and the
    analyser of every insert track to the input of track 0, never to the
    master gain directly and never to another insert.  On an initialised
    engine a channel is routed to an insert, so its voices reach the master
    gain through that insert and track 0. *)
Theorem mixer_is_a_star_on_master :
  (forall randomSnare randomHat sampleRate,
     DAW.mixerTracks (AudioEngine.init randomSnare randomHat sampleRate) =
     map fst (MixerGraph.setup 17))
  /\ snd <$> MixerGraph.setup 17 !! 0%nat = Some MasterGain
  /\ (forall i, (1 <= i < 17)%nat ->
        MixerGraph.setup 17 !! i = Some (MixerTrack.new i, TrackInput 0))
  /\ (forall d idx ch,
        Session.reachable d ->
        DAW.channels d !! idx = Some ch ->
        exists insert,
          Channel.route (DAW.mixerTracks d) ch = TrackInput insert
          /\ snd <$> MixerGraph.setup 17 !! insert = Some (TrackInput 0)).
Proof.
  split; [intros; now rewrite setup_tracks |].
  split; [now rewrite setup_lookup by lia |].
  assert (Hinsert : forall i, (1 <= i < 17)%nat ->
            MixerGraph.setup 17 !! i = Some (MixerTrack.new i, TrackInput 0)).
  { intros i Hi. rewrite setup_lookup by lia.
    destruct (decide (i = 0)%nat); [lia | reflexivity]. }
  split; [exact Hinsert |].
  intros d idx ch Hreach Hch.
  exists (Channel.targetMixerTrack ch).
  split; [now apply (reachable_route d idx) |].
  destruct (reachable_wellFormed d Hreach) as (Hrouted & _).
  destruct (Hrouted idx ch Hch) as [_ Ht].
  pose proof (Nat.mod_upper_bound idx 16).
  rewrite Hinsert by lia. reflexivity.
Qed.

Lemma mixer_is_a_star_on_master_witness :
  exists ch insert,
    DAW.channels freshEngine !! 2%nat = Some ch
    /\ Channel.route (DAW.mixerTracks freshEngine) ch = TrackInput insert
    /\ snd <$> MixerGraph.setup 17 !! insert = Some (TrackInput 0).
Proof.
  destruct mixer_is_a_star_on_master as (_ & _ & _ & Hroute).
  destruct (Hroute freshEngine 2%nat _ (Session.reach_init _ _ _) eq_refl)
    as (insert & H1 & H2).
  eexists _, insert. split; [reflexivity |]. now split.
Defined.

Lemma clamp_unit (val : R) : 0 <= Rmax 0 (Rmin 1 val) <= 1.
Proof.
  split; [apply Rmax_l |].
  apply Rmax_lub; [lra | apply Rmin_l].
Qed.

(** X13: a fader never leaves [0, 1].  Wherever the pointer is, dragging the
    fader of an existing mixer strip sets the volume of that track to
    [1 - (clientY - top) / height] clamped to [0, 1]: 1 at or above the top
    of the fader, 0 at or below its bottom, the fraction in between; the
    other tracks, the number of tracks and the index of every track are as
    before.  On a strip the mixer does not have nothing changes. *)
Theorem fader_stays_in_unit_range (d : DAW.t) (i : nat) (clientY top height : R) :
  let d' := MixerView.faderDrag i clientY top height d in
  length (DAW.mixerTracks d') = length (DAW.mixerTracks d)
  /\ (forall j track,
        DAW.mixerTracks d !! j = Some track ->
        exists track',
          DAW.mixerTracks d' !! j = Some track'
          /\ MixerTrack.index track' = MixerTrack.index track
          /\ (j <> i -> track' = track))
  /\ (forall track',
        DAW.mixerTracks d' !! i = Some track' ->
        is_Some (DAW.mixerTracks d !! i) ->
        0 <= MixerTrack.volume track' <= 1
        /\ (0 < height ->
            (clientY <= top -> MixerTrack.volume track' = 1)
            /\ (top + height <= clientY -> MixerTrack.volume track' = 0)
            /\ (top <= clientY <= top + height ->
                MixerTrack.volume track' = 1 - (clientY - top) / height)))
  /\ (DAW.mixerTracks d !! i = None -> d' = d).
Proof.
  intros d'. subst d'. unfold MixerView.faderDrag, UIManager.faderMove.
  set (val := MixerView.faderValue clientY top height).
  destruct (DAW.mixerTracks d !! i) as [track |] eqn:Htrack.
  - pose proof (lookup_lt_Some _ _ _ Htrack) as Hlt. simpl.
    split; [apply length_insert |]. split; [| split; [| discriminate]].
    + intros j t Hj. destruct (decide (j = i)) as [-> | Hne].
      * rewrite list_lookup_insert_eq by exact Hlt. eexists.
        split; [reflexivity |]. rewrite Htrack in Hj. injection Hj as <-.
        split; [reflexivity | congruence].
      * rewrite list_lookup_insert_ne by congruence. exists t.
        split; [exact Hj |]. split; reflexivity.
    + intros track' Hi _.
      rewrite list_lookup_insert_eq in Hi by exact Hlt. injection Hi as <-. simpl.
      split; [apply clamp_unit |]. intros Hheight.
      assert (Hq : forall a, 0 <= a -> 0 <= a / height)
        by (intros a Ha; unfold Rdiv; apply Rmult_le_pos;
            [exact Ha | left; now apply Rinv_0_lt_compat]).
      subst val. unfold MixerView.faderValue.
      split; [| split].
      * intros Hup. pose proof (Hq (top - clientY) ltac:(lra)) as H1.
        replace ((top - clientY) / height) with (- ((clientY - top) / height))
          in H1 by (unfold Rdiv; lra).
        rewrite Rmin_left by lra. apply Rmax_right. lra.
      * intros Hdown. pose proof (Hq (clientY - top - height) ltac:(lra)) as H1.
        replace ((clientY - top - height) / height)
          with ((clientY - top) / height - 1) in H1 by (field; lra).
        rewrite Rmin_right by lra. apply Rmax_left. lra.
      * intros [Hin1 Hin2]. pose proof (Hq (clientY - top) ltac:(lra)) as H1.
        pose proof (Hq (top + height - clientY) ltac:(lra)) as H2.
        replace ((top + height - clientY) / height)
          with (1 - (clientY - top) / height) in H2 by (field; lra).
        rewrite Rmin_right by lra. apply Rmax_right. lra.
  - split; [reflexivity |]. split; [| split; [| reflexivity]].
    + intros j t Hj. exists t. split; [exact Hj |]. split; reflexivity.
    + intros track' _ [t Ht]. discriminate Ht.
Qed.

Lemma fader_stays_in_unit_range_witness :
  exists track',
    DAW.mixerTracks (MixerView.faderDrag 3 250 100 200 freshEngine) !! 3%nat
      = Some track'
    /\ MixerTrack.volume track' = 1 - (250 - 100) / 200.
Proof.
  destruct (fader_stays_in_unit_range freshEngine 3 250 100 200)
    as (_ & Hkeep & Hvalue & _).
  destruct (Hkeep 3%nat (MixerTrack.new 3) eq_refl) as (track' & Hlookup & _).
  exists track'. split; [exact Hlookup |].
  destruct (Hvalue track' Hlookup ltac:(eexists; reflexivity)) as (_ & Hat).
  destruct (Hat ltac:(lra)) as (_ & _ & Hin).
  apply Hin. lra.
Defined.

Lemma sum_bytes_bound (bins : list nat) : forall acc,
  Forall (fun b => (b <= 255)%nat) bins ->
  (acc <= fold_left Nat.add bins acc <= acc + 255 * length bins)%nat.
Proof.
  induction bins as [| b bins IH]; intros acc Hall; simpl; [lia |].
  apply Forall_cons in Hall as [Hb Hrest].
  specialize (IH (acc + b)%nat Hrest). lia.
Qed.

Lemma sum_full_bytes (bins : list nat) : forall acc,
  Forall (fun b => b = 255%nat) bins ->
  fold_left Nat.add bins acc = (acc + 255 * length bins)%nat.
Proof.
  induction bins as [| b bins IH]; intros acc Hfull; simpl; [lia |].
  apply Forall_cons in Hfull as [-> Hrest]. rewrite IH by exact Hrest. lia.
Qed.

(** X14: a level meter never leaves its track.  For the bytes of a frequency
    snapshot, each at most 255 as the entries of a [Uint8Array] are, the
    height set on the meter is between 0 and 100 percent; it is 100 exactly
    at full scale in every bin. *)
Theorem meter_height_is_a_percentage (tempArray : list nat) :
  tempArray <> [] ->
  Forall (fun b => (b <= 255)%nat) tempArray ->
  0 <= MixerView.meterHeight tempArray <= 100
  /\ (Forall (fun b => b = 255%nat) tempArray ->
      MixerView.meterHeight tempArray = 100).
Proof.
  intros Hne Hall. unfold MixerView.meterHeight.
  assert (Hlen : 0 < INR (length tempArray)).
  { apply lt_0_INR. destruct tempArray; [congruence | simpl; lia]. }
  pose proof (sum_bytes_bound tempArray 0 Hall) as [_ Hsum].
  rewrite Nat.add_0_l in Hsum.
  apply le_INR in Hsum. rewrite mult_INR in Hsum.
  replace (INR 255) with 255 in Hsum by (rewrite INR_IZR_INZ; reflexivity).
  pose proof (pos_INR (fold_left Nat.add tempArray 0%nat)) as Hpos.
  set (total := INR (fold_left Nat.add tempArray 0%nat)) in *.
  set (n := INR (length tempArray)) in *.
  assert (Havg : 0 <= total / n <= 255).
  { split.
    - unfold Rdiv. apply Rmult_le_pos; [exact Hpos |].
      left. now apply Rinv_0_lt_compat.
    - apply Rmult_le_reg_r with n; [exact Hlen |].
      replace (total / n * n) with total by (field; lra). lra. }
  split; [lra |].
  intros Hfull.
  assert (Htotal : fold_left Nat.add tempArray 0%nat = (255 * length tempArray)%nat)
    by (now rewrite sum_full_bytes).
  subst total. rewrite Htotal, mult_INR.
  replace (INR 255) with 255 by (rewrite INR_IZR_INZ; reflexivity).
  fold n. field. lra.
Qed.

Lemma meter_height_is_a_percentage_witness :
  0 <= MixerView.meterHeight [0; 128; 255]%nat <= 100.
Proof.
  apply (meter_height_is_a_percentage [0; 128; 255]%nat); [discriminate |].
  repeat constructor; lia.
Defined.

(** ** The transport display *)

(** X15: the position [scheduleNote] displays determines the step.  The
    beat and the sixteenth are between 1 and 4, the bar is at least 1, and
    the step is [(bar - 1) * 16 + (beat - 1) * 4 + (sixteenth - 1)], so two
    steps that display the same position are the same step.  For the steps
    below 16, the only ones the cursor of an initialised engine takes, the
    bar displayed is always 1. *)
Theorem position_determines_step :
  (forall stepNumber,
     let '(bar, beat, sixteenth) := Transport.position stepNumber in
     (1 <= bar)%nat /\ (1 <= beat <= 4)%nat /\ (1 <= sixteenth <= 4)%nat
     /\ stepNumber = ((bar - 1) * 16 + (beat - 1) * 4 + (sixteenth - 1))%nat
     /\ ((stepNumber < 16)%nat -> bar = 1%nat))
  /\ (forall stepNumber other,
        Transport.position other = Transport.position stepNumber ->
        other = stepNumber)
  /\ (forall d, Session.reachable d ->
        fst (fst (Transport.position (DAW.currentStep d))) = 1%nat).
Proof.
  unfold Transport.position. cbv zeta.
  assert (Hdecode : forall s,
             s = ((s / 16 + 1 - 1) * 16 + ((s mod 16) / 4 + 1 - 1) * 4
                  + (s mod 4 + 1 - 1))%nat).
  { intros s.
    pose proof (Nat.div_mod_eq s 16) as H16.
    pose proof (Nat.div_mod_eq (s mod 16) 4) as H4.
    assert (Hmm : ((s mod 16) mod 4 = s mod 4)%nat).
    { replace 16%nat with (4 * 4)%nat by reflexivity.
      rewrite Nat.Div0.mod_mul_r.
      rewrite Nat.mul_comm, Nat.Div0.mod_add. apply Nat.Div0.mod_mod. }
    lia. }
  split; [| split].
  - intros stepNumber.
    pose proof (Nat.mod_upper_bound stepNumber 4 ltac:(lia)) as Hs4.
    pose proof (Nat.mod_upper_bound stepNumber 16 ltac:(lia)) as Hs16.
    pose proof (Nat.Div0.div_lt_upper_bound (stepNumber mod 16) 4 4 ltac:(lia)) as Hb.
    split; [lia |]. split; [lia |]. split; [lia |].
    split; [apply Hdecode |].
    intros Hlt. rewrite Nat.div_small by exact Hlt. reflexivity.
  - intros stepNumber other Heq.
    apply pair_equal_spec in Heq as [Heq H3].
    apply pair_equal_spec in Heq as [H1 H2].
    pose proof (Hdecode other) as Ho. pose proof (Hdecode stepNumber) as Hs.
    lia.
  - intros d Hreach. cbn [fst].
    destruct (reachable_rackInStep d Hreach) as [Hcursor _].
    destruct (reachable_wellFormed d Hreach) as (_ & _ & _ & Hcount & _).
    rewrite Hcount in Hcursor. rewrite Nat.div_small by exact Hcursor. reflexivity.
Qed.

Lemma position_determines_step_witness :
  fst (fst (Transport.position (DAW.currentStep freshEngine))) = 1%nat
  /\ (Transport.position 13 = Transport.position 13 -> 13 = 13)%nat.
Proof.
  split.
  - exact (proj2 (proj2 position_determines_step) freshEngine
             (Session.reach_init _ _ _)).
  - exact (proj1 (proj2 position_determines_step) 13%nat 13%nat).
Defined.

(** ** The piano-roll canvas *)

Lemma Int_part_between (r : R) (lo hi : Z) :
  IZR lo <= r < IZR hi -> (lo <= Int_part r < hi)%Z.
Proof.
  intros [Hlo Hhi]. destruct (base_Int_part r) as [Hle Hgt].
  split.
  - assert (H : IZR (lo - 1) < IZR (Int_part r)) by (rewrite minus_IZR; lra).
    apply lt_IZR in H. lia.
  - apply lt_IZR. lra.
Qed.

Lemma handleInput_cell (x y : R) (d : DAW.t) ch :
  DAW.channels d !! DAW.selectedChannelIndex d = Some ch ->
  DAW.channels (PianoRoll.handleInput x y d) !! DAW.selectedChannelIndex d =
  Some (Channel.set_pianoRollNotes
          (PianoRoll.toggle (Canvas.pitchAt y) (Canvas.stepAt x)
             (Channel.pianoRollNotes ch)) ch).
Proof.
  intros Hch. unfold PianoRoll.handleInput. rewrite Hch. simpl.
  rewrite list_lookup_insert_eq by (eapply lookup_lt_Some; eauto). reflexivity.
Qed.

(** X16: a click inside the canvas reads a cell of the roll.  For a point
    with [0 <= x < 1280] and [0 <= y < 980], the size [resize()] gives the
    canvas, [handleInput] toggles at a whole step from 0 to 63 and a whole
    pitch from 36 to 84, on the selected channel and on no other; without a
    selected channel it does nothing. *)
Theorem click_reads_a_cell (x y : R) (d : DAW.t) :
  0 <= x < Canvas.width ->
  0 <= y < Canvas.height ->
  exists step pitch : Z,
    (0 <= step < 64)%Z /\ (36 <= pitch <= 84)%Z
    /\ Canvas.stepAt x = IZR step
    /\ Canvas.pitchAt y = IZR pitch
    /\ (forall ch,
          DAW.channels d !! DAW.selectedChannelIndex d = Some ch ->
          DAW.channels (PianoRoll.handleInput x y d) !! DAW.selectedChannelIndex d =
          Some (Channel.set_pianoRollNotes
                  (PianoRoll.toggle (IZR pitch) (IZR step) (Channel.pianoRollNotes ch))
                  ch))
    /\ (forall idx,
          idx <> DAW.selectedChannelIndex d ->
          DAW.channels (PianoRoll.handleInput x y d) !! idx = DAW.channels d !! idx)
    /\ (DAW.channels d !! DAW.selectedChannelIndex d = None ->
        PianoRoll.handleInput x y d = d).
Proof.
  unfold Canvas.width, Canvas.height, PianoRoll.zoomX, PianoRoll.zoomY.
  intros Hx Hy.
  assert (Hs : (0 <= Int_part (x / 20) < 64)%Z)
    by (apply Int_part_between; unfold Rdiv; lra).
  assert (Hp : (0 <= Int_part (y / 20) < 49)%Z)
    by (apply Int_part_between; unfold Rdiv; lra).
  exists (Int_part (x / 20)), (84 - Int_part (y / 20))%Z.
  split; [exact Hs |]. split; [lia |].
  split; [reflexivity |].
  split; [unfold Canvas.pitchAt, PianoRoll.zoomY; now rewrite minus_IZR |].
  split; [| split].
  - intros ch Hch. rewrite (handleInput_cell x y d ch Hch).
    unfold Canvas.pitchAt, Canvas.stepAt, PianoRoll.zoomX, PianoRoll.zoomY.
    now rewrite minus_IZR.
  - intros idx Hne. unfold PianoRoll.handleInput.
    destruct (DAW.channels d !! DAW.selectedChannelIndex d); [| reflexivity].
    simpl. now rewrite list_lookup_insert_ne by congruence.
  - intros Hnone. unfold PianoRoll.handleInput. now rewrite Hnone.
Qed.

Lemma click_reads_a_cell_witness :
  exists step pitch : Z,
    (0 <= step < 64)%Z /\ (36 <= pitch <= 84)%Z
    /\ Canvas.stepAt 1279 = IZR step
    /\ Canvas.pitchAt 979 = IZR pitch.
Proof.
  destruct (click_reads_a_cell 1279 979 freshEngine)
    as (step & pitch & Hs & Hp & Hstep & Hpitch & _).
  - unfold Canvas.width, PianoRoll.zoomX. lra.
  - unfold Canvas.height, PianoRoll.zoomY. lra.
  - exists step, pitch. repeat split; try assumption; lia.
Defined.

Lemma drawn_first_match notes (pitch step : Z) (i : nat) :
  drawn notes ->
  notes !! i = Some (freshNote (IZR pitch) (IZR step)) ->
  PianoRoll.toggle (IZR pitch) (IZR step) notes = delete i notes.
Proof.
  intros Hdrawn Hi. destruct (drawn_grid notes Hdrawn) as [Hgrid Hnodup].
  apply (toggle_present _ _ _ i (freshNote (IZR pitch) (IZR step)));
    [exact Hi | apply freshNote_same |].
  intros j n Hj Hlt Hsame.
  assert (n = freshNote (IZR pitch) (IZR step)).
  { apply sameNote_grid; [| exact Hsame].
    exact (proj1 (Forall_lookup _ _) Hgrid j n Hj). }
  subst n. pose proof (NoDup_lookup notes j i _ Hnodup Hj Hi). lia.
Qed.

(** X17: what [render()] draws is what [handleInput] hits.  On an
    initialised engine, a click on any point of the rectangle drawn for a
    note of the selected channel removes that very note and leaves the
    others in their order: the cell read back from the point is the start
    and the pitch of the note. *)
Theorem click_on_a_drawn_note_removes_it (d : DAW.t) ch (i : nat) note (x y : R) :
  Session.reachable d ->
  DAW.channels d !! DAW.selectedChannelIndex d = Some ch ->
  Channel.pianoRollNotes ch !! i = Some note ->
  Canvas.covers (Canvas.noteRect note) x y ->
  Canvas.stepAt x = Note.start note
  /\ Canvas.pitchAt y = Note.pitch note
  /\ DAW.channels (PianoRoll.handleInput x y d) !! DAW.selectedChannelIndex d =
     Some (Channel.set_pianoRollNotes (delete i (Channel.pianoRollNotes ch)) ch).
Proof.
  intros Hreach Hch Hi [Hx Hy].
  destruct (reachable_wellFormed d Hreach) as (_ & _ & _ & _ & _ & Hdrawn).
  pose proof (proj1 (Forall_lookup _ _) Hdrawn _ ch Hch) as Hnotes.
  destruct (drawn_grid _ Hnotes) as [Hgrid _].
  destruct (proj1 (Forall_lookup _ _) Hgrid i note Hi) as (pitch & step & ->).
  unfold Canvas.noteRect, PianoRoll.zoomX, PianoRoll.zoomY in Hx, Hy.
  simpl in Hx, Hy.
  assert (Hstep : Canvas.stepAt x = IZR step).
  { unfold Canvas.stepAt, PianoRoll.zoomX. f_equal. symmetry.
    apply Int_part_spec. unfold Rdiv. lra. }
  assert (Hpitch : Canvas.pitchAt y = IZR pitch).
  { unfold Canvas.pitchAt, PianoRoll.zoomY.
    rewrite <- (Int_part_spec (y / 20) (84 - pitch)).
    - rewrite minus_IZR. lra.
    - rewrite minus_IZR. unfold Rdiv. lra. }
  split; [exact Hstep |]. split; [exact Hpitch |].
  rewrite (handleInput_cell x y d ch Hch), Hstep, Hpitch.
  now rewrite (drawn_first_match _ pitch step i Hnotes Hi).
Qed.

Lemma click_on_a_drawn_note_removes_it_witness :
  let d := PianoRoll.handleInput 50 490 freshEngine in
  exists ch note,
    DAW.channels d !! DAW.selectedChannelIndex d = Some ch
    /\ Channel.pianoRollNotes ch !! 0%nat = Some note
    /\ DAW.channels (PianoRoll.handleInput 45 485 d) !! DAW.selectedChannelIndex d =
       Some (Channel.set_pianoRollNotes (delete 0%nat (Channel.pianoRollNotes ch)) ch).
Proof.
  intros d.
  assert (Hreach : Session.reachable d).
  { apply (Session.reach_react freshEngine (Session.PianoClick 50 490) 0 d []);
      [apply Session.reach_init | reflexivity]. }
  eexists _, _. split; [reflexivity |]. split; [reflexivity |].
  refine (proj2 (proj2 (click_on_a_drawn_note_removes_it d _ 0 _ 45 485 Hreach
                          eq_refl eq_refl _))).
  assert (H50 : Int_part (50 / PianoRoll.zoomX) = 2%Z)
    by (symmetry; apply Int_part_spec; unfold PianoRoll.zoomX, Rdiv; lra).
  assert (H490 : Int_part (490 / PianoRoll.zoomY) = 24%Z)
    by (symmetry; apply Int_part_spec; unfold PianoRoll.zoomY, Rdiv; lra).
  unfold Canvas.covers, Canvas.noteRect. simpl.
  rewrite H50, H490. unfold PianoRoll.zoomX, PianoRoll.zoomY. lra.
Defined.

(** ** Notes and the scheduler *)

Lemma onStep_grid (k : nat) (note : Note.t) :
  gridNote note ->
  (Sequencer.onStep k note <-> Note.start note = INR k).
Proof.
  intros (pitch & step & ->). unfold Sequencer.onStep, JS.Math_abs. simpl.
  rewrite INR_IZR_INZ, <- minus_IZR. split.
  - intros Habs. apply Rabs_def2 in Habs as [Hlt Hgt].
    assert (H1 : IZR (step - Z.of_nat k) < IZR 1) by lra.
    assert (H2 : IZR (-1) < IZR (step - Z.of_nat k)) by lra.
    apply lt_IZR in H1, H2. f_equal. lia.
  - intros Heq. apply eq_IZR in Heq. subst step.
    rewrite Z.sub_diag, Rabs_R0. lra.
Qed.

(** X18: the roll is four bars wide and the scheduler plays one.  On an
    initialised engine the cursor stays below 16, so a note whose start is
    16 or more, as every note put down at [x >= 320] on the canvas is, is
    never on the step being scheduled: it is drawn and never played.  For
    the notes the roll makes the tolerance of the scheduler plays no part: a
    note is on a step exactly when its start is that step. *)
Theorem notes_past_the_first_bar_are_silent (d : DAW.t) :
  Session.reachable d ->
  (forall note,
     16 <= Note.start note ->
     ~ Sequencer.onStep (DAW.currentStep d) note)
  /\ (forall x, 320 <= x -> 16 <= Canvas.stepAt x)
  /\ (forall idx ch note k,
        DAW.channels d !! idx = Some ch ->
        In note (Channel.pianoRollNotes ch) ->
        (Sequencer.onStep k note <-> Note.start note = INR k)).
Proof.
  intros Hreach.
  destruct (reachable_rackInStep d Hreach) as [Hcursor _].
  destruct (reachable_wellFormed d Hreach) as (_ & _ & _ & Hcount & _ & Hdrawn).
  rewrite Hcount in Hcursor.
  split; [| split].
  - intros note Hstart Hon. unfold Sequencer.onStep, JS.Math_abs in Hon.
    apply Rabs_def2 in Hon as [Hlt _].
    assert (Hk : INR (DAW.currentStep d) <= 15).
    { replace 15 with (INR 15) by (simpl; lra). apply le_INR. lia. }
    lra.
  - intros x Hx. unfold Canvas.stepAt, PianoRoll.zoomX.
    apply IZR_le. apply Int_part_between with (hi := (Int_part (x / 20) + 1)%Z).
    destruct (base_Int_part (x / 20)) as [Hle Hgt].
    rewrite plus_IZR. unfold Rdiv in *. lra.
  - intros idx ch note k Hch Hin. apply onStep_grid.
    pose proof (proj1 (Forall_lookup _ _) Hdrawn idx ch Hch) as Hnotes.
    destruct (drawn_grid _ Hnotes) as [Hgrid _].
    apply list_elem_of_In in Hin.
    exact (proj1 (Forall_forall _ _) Hgrid note Hin).
Qed.

Lemma notes_past_the_first_bar_are_silent_witness :
  ~ Sequencer.onStep (DAW.currentStep freshEngine) (freshNote 60 16)
  /\ 16 <= Canvas.stepAt 320.
Proof.
  destruct (notes_past_the_first_bar_are_silent freshEngine (Session.reach_init _ _ _))
    as (Hsilent & Hbar & _).
  split; [apply Hsilent; simpl; lra | apply Hbar; lra].
Defined.

(** X19: the notes of an initialised engine are the ones the roll makes.
    Whatever tasks ran, every piano-roll note of every channel is one step
    long with velocity 1, its start and its pitch are whole numbers, and no
    two notes of a channel sit on the same cell: notes at two positions of
    the list differ in pitch or in start. *)
Theorem roll_holds_one_note_per_cell (d : DAW.t) idx ch :
  Session.reachable d ->
  DAW.channels d !! idx = Some ch ->
  (forall i note,
     Channel.pianoRollNotes ch !! i = Some note ->
     Note.duration note = 1 /\ Note.velocity note = 1
     /\ exists pitch step : Z,
          Note.pitch note = IZR pitch /\ Note.start note = IZR step)
  /\ (forall i j note note',
        Channel.pianoRollNotes ch !! i = Some note ->
        Channel.pianoRollNotes ch !! j = Some note' ->
        Note.pitch note = Note.pitch note' ->
        Note.start note = Note.start note' ->
        i = j).
Proof.
  intros Hreach Hch.
  destruct (reachable_wellFormed d Hreach) as (_ & _ & _ & _ & _ & Hdrawn).
  pose proof (proj1 (Forall_lookup _ _) Hdrawn idx ch Hch) as Hnotes.
  destruct (drawn_grid _ Hnotes) as [Hgrid Hnodup].
  split.
  - intros i note Hi.
    destruct (proj1 (Forall_lookup _ _) Hgrid i note Hi) as (pitch & step & ->).
    simpl. split; [reflexivity |]. split; [lra |]. now exists pitch, step.
  - intros i j note note' Hi Hj Hp Hs.
    destruct (proj1 (Forall_lookup _ _) Hgrid i note Hi) as (p & s & ->).
    destruct (proj1 (Forall_lookup _ _) Hgrid j note' Hj) as (p' & s' & ->).
    simpl in Hp, Hs. rewrite Hp, Hs in Hi.
    exact (NoDup_lookup _ i j _ Hnodup Hi Hj).
Qed.

Lemma roll_holds_one_note_per_cell_witness :
  let d := PianoRoll.handleInput 50 490 freshEngine in
  exists ch note,
    DAW.channels d !! 0%nat = Some ch
    /\ Channel.pianoRollNotes ch !! 0%nat = Some note
    /\ Note.duration note = 1 /\ Note.velocity note = 1.
Proof.
  intros d.
  assert (Hreach : Session.reachable d).
  { apply (Session.reach_react freshEngine (Session.PianoClick 50 490) 0 d []);
      [apply Session.reach_init | reflexivity]. }
  eexists _, _. split; [reflexivity |]. split; [reflexivity |].
  destruct (proj1 (roll_holds_one_note_per_cell d 0 _ Hreach eq_refl) 0%nat _ eq_refl)
    as (H1 & H2 & _).
  now split.
Defined.

(** ** Generated samples *)

Lemma exp_decay (x : R) : x <= 0 -> 0 < exp x <= 1.
Proof.
  intros Hx. split; [apply exp_pos |].
  destruct Hx as [Hlt | ->]; [| rewrite exp_0; lra].
  left. rewrite <- exp_0. now apply exp_increasing.
Qed.

Lemma damped (x e : R) : -1 <= x <= 1 -> 0 < e <= 1 -> -1 <= x * e <= 1.
Proof. intros Hx He. split; nra. Qed.

Lemma frame_time (sampleRate : R) (i : nat) :
  0 < sampleRate -> 0 <= INR i / sampleRate.
Proof.
  intros Hrate. unfold Rdiv. apply Rmult_le_pos; [apply pos_INR |].
  left. now apply Rinv_0_lt_compat.
Qed.

Lemma sin_unit (x : R) : -1 <= sin x <= 1.
Proof. apply SIN_bound. Qed.

Lemma kickSample_unit sampleRate i :
  0 < sampleRate -> -1 <= ProceduralAudio.kickSample sampleRate i <= 1.
Proof.
  intros Hrate. unfold ProceduralAudio.kickSample.
  pose proof (frame_time sampleRate i Hrate) as Ht.
  apply damped; [apply sin_unit | apply exp_decay; lra].
Qed.

Lemma snareSample_unit random sampleRate i :
  0 < sampleRate -> unitDraws random ->
  -1 <= ProceduralAudio.snareSample random sampleRate i <= 1.
Proof.
  intros Hrate Hdraw. unfold ProceduralAudio.snareSample.
  pose proof (frame_time sampleRate i Hrate) as Ht.
  pose proof (Hdraw i) as Hr.
  pose proof (sin_unit (2 * PI * 200 * (INR i / sampleRate))) as Hs.
  apply damped; [lra | apply exp_decay; lra].
Qed.

Lemma hatSample_unit random sampleRate i :
  0 < sampleRate -> unitDraws random ->
  -1 <= ProceduralAudio.hatSample random sampleRate i <= 1.
Proof.
  intros Hrate Hdraw. unfold ProceduralAudio.hatSample.
  pose proof (frame_time sampleRate i Hrate) as Ht.
  pose proof (Hdraw i) as Hr.
  apply damped; [lra | apply exp_decay; lra].
Qed.

Lemma fill_unit len sample data (j : nat) (v : R) :
  (forall i, -1 <= sample i <= 1) ->
  (forall i x, data !! i = Some x -> -1 <= x <= 1) ->
  ProceduralAudio.fill len sample data !! j = Some v ->
  -1 <= v <= 1.
Proof.
  intros Hsample Hdata Hj.
  assert (Hlt : (j < length data)%nat).
  { rewrite <- (fill_length len sample data). now apply lookup_lt_Some in Hj. }
  rewrite fill_lookup in Hj by exact Hlt.
  destruct (Rlt_dec (INR j) len).
  - injection Hj as <-. apply Hsample.
  - exact (Hdata j v Hj).
Qed.

Lemma createBuffer_silent len sampleRate (i : nat) (x : R) :
  AudioBuffer.data (ProceduralAudio.createBuffer len sampleRate) !! i = Some x ->
  x = 0.
Proof.
  unfold ProceduralAudio.createBuffer. simpl. intros Hi.
  now apply lookup_replicate in Hi as [-> _].
Qed.

(** X20: the generated drums never clip.  At a positive sample rate, with
    the draws of [Math.random()] in [0, 1), every sample of the buffer
    [generate] returns lies in [-1, 1], whatever the preset asked for; for a
    name that is none of kick, snare and hat the buffer is half a second of
    silence. *)
Theorem generated_samples_do_not_clip
    (random : nat -> R) (sampleRate : R) (type : string) (i : nat) (v : R) :
  0 < sampleRate ->
  unitDraws random ->
  AudioBuffer.data (ProceduralAudio.generate random sampleRate type) !! i = Some v ->
  -1 <= v <= 1
  /\ (type <> "kick" -> type <> "snare" -> type <> "hat" -> v = 0).
Proof.
  intros Hrate Hdraw Hv.
  assert (Hzero : forall j x,
             AudioBuffer.data
               (ProceduralAudio.createBuffer (sampleRate * 0.5) sampleRate) !! j
             = Some x -> -1 <= x <= 1).
  { intros j x Hx. apply createBuffer_silent in Hx. lra. }
  unfold ProceduralAudio.generate in Hv.
  destruct (String.eqb_spec type "kick") as [-> | Hkick].
  { split; [| congruence]. simpl in Hv.
    eapply fill_unit; [| | exact Hv].
    - intros j. now apply kickSample_unit.
    - intros j x Hx. apply lookup_replicate in Hx as [-> _]. lra. }
  destruct (String.eqb_spec type "snare") as [-> | Hsnare].
  { split; [| congruence]. simpl in Hv.
    eapply fill_unit; [| | exact Hv].
    - intros j. now apply snareSample_unit.
    - intros j x Hx. apply lookup_replicate in Hx as [-> _]. lra. }
  destruct (String.eqb_spec type "hat") as [-> | Hhat].
  { split; [| congruence]. simpl in Hv.
    eapply fill_unit; [| | exact Hv].
    - intros j. now apply hatSample_unit.
    - intros j x Hx. apply lookup_replicate in Hx as [-> _]. lra. }
  apply createBuffer_silent in Hv. split; [lra | now intros].
Qed.

Lemma generated_samples_do_not_clip_witness :
  exists v,
    AudioBuffer.data (ProceduralAudio.generate (fun _ => 0.5) 44100 "snare") !! 7%nat
    = Some v
    /\ -1 <= v <= 1.
Proof.
  assert (Hlen : (7 < length (AudioBuffer.data
                              (ProceduralAudio.generate (fun _ => 0.5%R) 44100%R
                                                        "snare")))%nat).
  { unfold ProceduralAudio.generate. simpl (String.eqb _ _). cbv iota.
    cbn [AudioBuffer.data]. rewrite fill_length.
    pose proof (createBuffer_frames (44100 * 0.5) 44100 (Z.to_nat 22050)) as Hframes.
    unfold AudioBuffer.frames in Hframes. rewrite Hframes; [lia |].
    rewrite INR_IZR_INZ, Z2Nat.id by lia. lra. }
  apply lookup_lt_is_Some_2 in Hlen as [v Hv].
  exists v. split; [exact Hv |].
  refine (proj1 (generated_samples_do_not_clip (fun _ => 0.5) 44100 "snare" 7 v _ _ Hv)).
  - lra.
  - intros i. lra.
Defined.

(** ** The transport buttons *)

Lemma clearTimeout_twice (id : option nat) (w : Window.t) :
  Window.clearTimeout id (Window.clearTimeout id w) = Window.clearTimeout id w.
Proof.
  destruct id as [i |]; [| reflexivity].
  unfold Window.clearTimeout. simpl. f_equal.
  apply leibniz_equiv. intros x.
  rewrite !elem_of_difference. tauto.
Qed.

(** X21: the transport buttons are idempotent.  A second press of Play
    while the transport runs schedules nothing and changes nothing, so the
    cursor is not rewound and no second timer is armed; a second press of
    Stop changes nothing either, and Stop never moves the cursor or the time
    of the next step. *)
Theorem transport_buttons_are_idempotent (fuel fuel' : nat) (d d1 : DAW.t) evs :
  Sequencer.start fuel d = Some (d1, evs) ->
  Sequencer.start fuel' d1 = Some (d1, [])
  /\ Sequencer.stop (Sequencer.stop d) = Sequencer.stop d
  /\ DAW.currentStep (Sequencer.stop d1) = DAW.currentStep d1
  /\ DAW.nextNoteTime (Sequencer.stop d1) = DAW.nextNoteTime d1.
Proof.
  intros Hstart.
  assert (Hplaying : DAW.isPlaying d1 = true).
  { unfold Sequencer.start in Hstart.
    destruct (DAW.isPlaying d) eqn:Hp.
    - now injection Hstart as <- _.
    - apply scheduler_fields in Hstart.
      destruct Hstart as (_ & _ & _ & _ & Hplay & _). rewrite Hplay.
      apply startReset_fields. }
  split; [| split; [| split]].
  - unfold Sequencer.start. now rewrite Hplaying.
  - unfold Sequencer.stop. destruct d. simpl. now rewrite clearTimeout_twice.
  - reflexivity.
  - reflexivity.
Qed.

Lemma transport_buttons_are_idempotent_witness :
  exists fuel d1 evs,
    Sequencer.start fuel freshEngine = Some (d1, evs)
    /\ Sequencer.start fuel d1 = Some (d1, []).
Proof.
  destruct (scheduler_terminates (Sequencer.startReset freshEngine))
    as (fuel & [d1 evs] & Hs); [simpl; lra |].
  exists fuel, d1, evs.
  assert (Hstart : Sequencer.start fuel freshEngine = Some (d1, evs)) by exact Hs.
  split; [exact Hstart |].
  exact (proj1 (transport_buttons_are_idempotent fuel fuel freshEngine d1 evs Hstart)).
Defined.

(** ** MIDI input *)

(** X22: what a MIDI message does.  Only a note-on (status 144) with a
    positive velocity and a selected channel has an effect; any other
    message, a note-off among them, leaves the whole engine as it is, so a
    held note is never cut short.  On an initialised engine such a note-on
    adds exactly one voice, starting at the current time of the audio clock
    and entering the mixer at the insert of the selected channel, and
    touches nothing but the audio graph. *)
Theorem midi_note_on_plays_selected_channel
    (d : DAW.t) (cmd : nat) (note vel : R) :
  Session.reachable d ->
  let d' := Midi.onmidimessage cmd note vel d in
  (cmd <> 144%nat \/ vel <= 0
   \/ DAW.channels d !! DAW.selectedChannelIndex d = None -> d' = d)
  /\ (forall ch,
        cmd = 144%nat -> 0 < vel ->
        DAW.channels d !! DAW.selectedChannelIndex d = Some ch ->
        (exists v,
           AudioContext.voices (DAW.ctx d') = AudioContext.voices (DAW.ctx d) ++ [v]
           /\ startAt v = AudioContext.currentTime (DAW.ctx d)
           /\ dest v = TrackInput (Channel.targetMixerTrack ch))
        /\ DAW.channels d' = DAW.channels d
        /\ DAW.mixerTracks d' = DAW.mixerTracks d
        /\ sameTransport d d').
Proof.
  intros Hreach d'. subst d'. unfold Midi.onmidimessage. split.
  - intros Hcase.
    destruct (decide (cmd = 144%nat)) as [Hcmd |]; [| reflexivity].
    destruct (Rlt_dec 0 vel) as [Hvel |]; [| reflexivity].
    destruct (DAW.channels d !! DAW.selectedChannelIndex d) eqn:Hch; [| reflexivity].
    destruct Hcase as [Hc | [Hv | Hn]]; [contradiction | lra | discriminate].
  - intros ch Hcmd Hvel Hch.
    destruct (decide (cmd = 144%nat)); [| contradiction].
    destruct (Rlt_dec 0 vel); [| contradiction].
    rewrite Hch.
    pose proof (reachable_sounding d Hreach) as Hsound.
    pose proof (proj1 (Forall_lookup _ _) Hsound _ ch Hch) as Hs.
    destruct (playNote_one_voice (DAW.mixerTracks d) (DAW.ctx d) ch
                (AudioContext.currentTime (DAW.ctx d)) 0.5 note (vel / 127) Hs)
      as (v & -> & Hdest & Hstart).
    split; [| split; [| split]]; try reflexivity.
    + exists v. simpl. split; [reflexivity |]. split; [exact Hstart |].
      rewrite Hdest. exact (reachable_route d _ ch Hreach Hch).
    + unfold sameTransport. simpl. tauto.
Qed.

Lemma midi_note_on_plays_selected_channel_witness :
  Midi.onmidimessage 128 60 64 freshEngine = freshEngine
  /\ exists v,
       AudioContext.voices (DAW.ctx (Midi.onmidimessage 144 60 64 freshEngine)) =
       AudioContext.voices (DAW.ctx freshEngine) ++ [v]
       /\ dest v = TrackInput 1.
Proof.
  destruct (midi_note_on_plays_selected_channel freshEngine 128 60 64
              (Session.reach_init _ _ _)) as [Hoff _].
  destruct (midi_note_on_plays_selected_channel freshEngine 144 60 64
              (Session.reach_init _ _ _)) as [_ Hon].
  split; [apply Hoff; left; lia |].
  destruct (Hon _ eq_refl ltac:(lra) eq_refl) as ((v & Hv & _ & Hdest) & _).
  exists v. now split.
Defined.

(** * The scheduler over a whole session *)

Lemma start_armed fuel d d' evs :
  DAW.isPlaying d = false ->
  Sequencer.start fuel d = Some (d', evs) ->
  DAW.isPlaying d' = true /\ armed d'.
Proof.
  intros Hstopped Hstart. unfold Sequencer.start in Hstart.
  rewrite Hstopped in Hstart.
  destruct (startReset_fields d) as (_ & _ & Hplay & _).
  apply scheduler_fields in Hstart as (_ & _ & _ & _ & Hp & Hon & _).
  destruct (Hon Hplay) as [Hid Htimers].
  split; [now rewrite Hp |].
  exists (Window.nextTimer (DAW.window (Sequencer.startReset d))).
  split; [exact Hid |]. rewrite Htimers.
  apply elem_of_union_l, elem_of_singleton. reflexivity.
Qed.

(** While the transport plays, no task but Stop disarms the loop: the tick
    that fires arms the next one. *)
Lemma react_armed fuel a d d' evs :
  keepsTempo a ->
  DAW.isPlaying d = true ->
  armed d ->
  Session.react fuel a d = Some (d', evs) ->
  DAW.isPlaying d' = true /\ armed d'.
Proof.
  intros Hkeeps Hplay Harmed Hreact.
  assert (Hsame : sameTransport d d' -> DAW.isPlaying d' = true /\ armed d').
  { intros (_ & _ & _ & _ & Hp & _ & Hid & Hwin).
    unfold armed. rewrite Hp, Hid, Hwin. now split. }
  destruct a; try contradiction;
    try (apply Hsame; eapply react_sameTransport; [| exact Hreact]; exact I);
    simpl in Hreact; unfold Session.quiet in Hreact.
  - unfold Sequencer.start in Hreact. rewrite Hplay in Hreact.
    injection Hreact as <- <-. now split.
  - destruct (decide _) as [Hin | Hgone]; [| injection Hreact as <- <-; now split].
    unfold Sequencer.timeout in Hreact.
    apply scheduler_fields in Hreact as (_ & _ & _ & _ & Hp & Hon & _).
    destruct (Hon Hplay) as [Hid Htimers].
    split; [now rewrite Hp |].
    eexists. split; [exact Hid |]. rewrite Htimers.
    apply elem_of_union_l, elem_of_singleton. reflexivity.
Qed.

Lemma run_armed fuel actions : forall d d' evs,
  Forall keepsTempo actions ->
  DAW.isPlaying d = true ->
  armed d ->
  Session.run fuel actions d = Some (d', evs) ->
  DAW.isPlaying d' = true /\ armed d'.
Proof.
  induction actions as [| a rest IH]; intros d d' evs Hall Hplay Harmed Hrun;
    simpl in Hrun.
  - injection Hrun as <- <-. now split.
  - apply Forall_cons in Hall as [Ha Hrest].
    destruct (Session.react fuel a d) as [[d1 evs1] |] eqn:Hreact; [| discriminate].
    destruct (Session.run fuel rest d1) as [[d2 evs2] |] eqn:Hrest'; [| discriminate].
    injection Hrun as <- <-.
    destruct (react_armed _ _ _ _ _ Ha Hplay Harmed Hreact) as [Hplay1 Harmed1].
    exact (IH _ _ _ Hrest Hplay1 Harmed1 Hrest').
Qed.

Lemma run_constants fuel actions : forall d d' evs,
  Session.run fuel actions d = Some (d', evs) ->
  DAW.stepCount d' = DAW.stepCount d
  /\ DAW.scheduleAheadTime d' = DAW.scheduleAheadTime d.
Proof.
  induction actions as [| a rest IH]; intros d d' evs Hrun; simpl in Hrun.
  - injection Hrun as <- <-. now split.
  - destruct (Session.react fuel a d) as [[d1 evs1] |] eqn:Hreact; [| discriminate].
    destruct (Session.run fuel rest d1) as [[d2 evs2] |] eqn:Hrest; [| discriminate].
    injection Hrun as <- <-.
    destruct (react_constants _ _ _ _ _ Hreact) as [Hc1 Ha1].
    destruct (IH _ _ _ Hrest) as [Hc2 Ha2]. split; congruence.
Qed.

Lemma run_app fuel actions : forall rest d d1 evs1 d2 evs2,
  Session.run fuel actions d = Some (d1, evs1) ->
  Session.run fuel rest d1 = Some (d2, evs2) ->
  Session.run fuel (actions ++ rest) d = Some (d2, evs1 ++ evs2).
Proof.
  induction actions as [| a actions IH]; intros rest d d1 evs1 d2 evs2 Hrun Hrest;
    simpl in *.
  - injection Hrun as <- <-. now rewrite Hrest.
  - destruct (Session.react fuel a d) as [[d' evs'] |] eqn:Hreact; [| discriminate].
    destruct (Session.run fuel actions d') as [[d'' evs''] |] eqn:Hrun'; [| discriminate].
    injection Hrun as <- <-.
    rewrite (IH _ _ _ _ _ _ Hrun' Hrest). now rewrite app_assoc.
Qed.

(** The pending tick fires at clock time [now]: the pass emits the events of
    the run that are due by then and not yet emitted, and only these. *)
Lemma tick_onGrid count tempo t0 n d id now :
  (0 < count)%nat ->
  0 < tempo ->
  onGrid count tempo t0 n d ->
  id ∈ Window.timers (DAW.window d) ->
  exists fuel d' evs,
    Session.run fuel [Session.Clock now; Session.Tick id] d = Some (d', evs)
    /\ evs = map (eventAt count t0 (0.25 * (60 / tempo))) (seq n (length evs))
    /\ onGrid count tempo t0 (n + length evs) d'
    /\ Forall (fun ev => snd ev < now + DAW.scheduleAheadTime d) evs
    /\ now + DAW.scheduleAheadTime d <= DAW.nextNoteTime d'.
Proof.
  intros Hpos Htempo Hgrid Hin.
  destruct (run_onGrid count tempo t0 [Session.Clock now; Session.Tick id] n d)
    as (fuel & d' & evs & Hrun & Hevs & Hgrid'); try assumption.
  { repeat constructor. }
  exists fuel, d', evs. split; [exact Hrun |]. split; [exact Hevs |].
  split; [exact Hgrid' |].
  simpl in Hrun. unfold Session.quiet in Hrun.
  cbn [DAW.window DAW.set_ctx] in Hrun.
  rewrite decide_True in Hrun by exact Hin.
  destruct (Sequencer.timeout fuel id _) as [[d1 evs1] |] eqn:Htick; [| discriminate].
  injection Hrun as <- <-.
  unfold Sequencer.timeout in Htick.
  apply scheduler_inv in Htick as (d2 & Hloop & ->).
  destruct (schedulerLoop_window _ _ _ _ Hloop) as (Hall & Hstop & _).
  destruct (rearm_transport d2) as (_ & _ & _ & Hnext & _).
  rewrite Hnext. cbn in Hall, Hstop. rewrite app_nil_r.
  split; [exact Hall | lra].
Qed.

(** C1: start a stopped transport with tempo [T > 0] and [S > 0] steps, then
    let any tasks follow, ticks of the look-ahead timer at any clock
    readings among them, the tempo being left alone and the transport not
    stopped.  The run goes through, and the events it emits are, in order,
    the steps [0, 1, ..., S - 1, 0, ...] at the times [t0 + k * 0.25 * 60/T]:
    two consecutive events are exactly one step duration apart, later ones
    strictly later, and the step of the second is the step of the first plus
    one modulo [S].  The cursor and the next timestamp left in the engine
    are those of the event that comes next.

    The loop goes on for any length of the run: at the end of the run the
    transport still plays and the timer of [DAW.timerID] is pending, and
    when it fires at any clock reading [now] the run continues on the same
    grid with exactly the events that are due by then, those with a
    timestamp below [now + scheduleAheadTime], none left out: the timestamp
    that comes next is at or past that horizon.  So a run that lasts [N]
    step durations has emitted the first [N] steps at least. *)
Theorem scheduler_one_event_per_step (d : DAW.t) (actions : list Session.Action) :
  DAW.isPlaying d = false ->
  0 < DAW.tempo d ->
  (0 < DAW.stepCount d)%nat ->
  Forall keepsTempo actions ->
  let count := DAW.stepCount d in
  let t0 := AudioContext.currentTime (DAW.ctx d) in
  let stepDuration := 0.25 * (60 / DAW.tempo d) in
  let ahead := DAW.scheduleAheadTime d in
  exists fuel d' evs,
    (forall fuel', (fuel <= fuel')%nat ->
       Session.run fuel' (Session.Start :: actions) d = Some (d', evs))
    /\ (forall k, (k < length evs)%nat ->
          evs !! k = Some ((k mod count)%nat, t0 + INR k * stepDuration))
    /\ (forall k step1 time1 step2 time2,
          evs !! k = Some (step1, time1) ->
          evs !! S k = Some (step2, time2) ->
          time2 - time1 = stepDuration
          /\ time1 < time2
          /\ step2 = ((step1 + 1) mod count)%nat)
    /\ (0 < ahead -> (1 <= length evs)%nat)
    /\ DAW.currentStep d' = (length evs mod count)%nat
    /\ DAW.nextNoteTime d' = t0 + INR (length evs) * stepDuration
    /\ DAW.isPlaying d' = true
    /\ exists id,
         DAW.timerID d' = Some id
         /\ id ∈ Window.timers (DAW.window d')
         /\ forall now, exists fuel2 d2 evs2,
              (forall fuel', (fuel2 <= fuel')%nat ->
                 Session.run fuel'
                   (Session.Start :: actions ++ [Session.Clock now; Session.Tick id]) d
                 = Some (d2, evs ++ evs2))
              /\ (forall k, (k < length (evs ++ evs2))%nat ->
                    (evs ++ evs2) !! k =
                    Some ((k mod count)%nat, t0 + INR k * stepDuration))
              /\ Forall (fun ev => snd ev < now + ahead) evs2
              /\ now + ahead <= t0 + INR (length (evs ++ evs2)) * stepDuration
              /\ DAW.nextNoteTime d2 = t0 + INR (length (evs ++ evs2)) * stepDuration
              /\ (forall N : nat,
                    0 <= ahead ->
                    t0 + INR N * stepDuration <= now ->
                    (N <= length (evs ++ evs2))%nat).
Proof.
  intros Hstopped Htempo Hpos Hkeep count t0 stepDuration ahead.
  destruct (start_onGrid d Hstopped Htempo Hpos)
    as (fuel1 & d1 & evs1 & Hstart & Hevs1 & Hgrid1 & Hfirst).
  destruct (run_onGrid count (DAW.tempo d) t0 actions (length evs1) d1
              Hkeep Hpos Htempo Hgrid1)
    as (fuel2 & d2 & evs2 & Hrun & Hevs2 & Hgrid2).
  assert (Hsd : 0 < stepDuration).
  { subst stepDuration. apply Rmult_lt_0_compat; [lra |].
    apply Rdiv_lt_0_compat; lra. }
  assert (Hall : evs1 ++ evs2 =
                 map (eventAt count t0 stepDuration) (seq 0 (length (evs1 ++ evs2)))).
  { rewrite length_app, seq_app, map_app, Nat.add_0_l.
    subst count t0 stepDuration. now rewrite <- Hevs1, <- Hevs2. }
  assert (Hlookup : forall k, (k < length (evs1 ++ evs2))%nat ->
            (evs1 ++ evs2) !! k = Some ((k mod count)%nat, t0 + INR k * stepDuration)).
  { intros k Hk. rewrite Hall at 1. now rewrite lookup_map_seq. }
  assert (Hwhole : forall fuel', (Nat.max fuel1 fuel2 <= fuel')%nat ->
            Session.run fuel' (Session.Start :: actions) d = Some (d2, evs1 ++ evs2)).
  { intros fuel' Hle. simpl.
    assert (Hstart' : Sequencer.start fuel' d = Some (d1, evs1)).
    { apply (react_mono fuel1 fuel' Session.Start d); [exact Hstart | lia]. }
    rewrite Hstart'.
    now rewrite (run_mono fuel2 fuel' _ _ _ Hrun) by lia. }
  destruct (start_armed _ _ _ _ Hstopped Hstart) as [Hplay1 Harmed1].
  destruct (run_armed _ _ _ _ _ Hkeep Hplay1 Harmed1 Hrun) as [Hplay2 (id & Hid & Hin)].
  assert (Hahead : DAW.scheduleAheadTime d2 = ahead).
  { exact (proj2 (run_constants _ _ _ _ _ (Hwhole _ (Nat.le_refl _)))). }
  exists (Nat.max fuel1 fuel2), d2, (evs1 ++ evs2).
  split; [exact Hwhole |]. split; [exact Hlookup |].
  split; [| split; [| split; [| split; [| split]]]].
  - intros k step1 time1 step2 time2 H1 H2.
    pose proof (lookup_lt_Some _ _ _ H2) as Hk.
    rewrite Hlookup in H1, H2 by lia. rewrite S_INR in H2.
    injection H1 as <- <-. injection H2 as <- <-.
    split; [lra |]. split; [lra |].
    rewrite Nat.Div0.add_mod_idemp_l. f_equal. lia.
  - intros Hwindow. rewrite length_app. specialize (Hfirst Hwindow). lia.
  - rewrite length_app. exact (proj1 (proj2 (proj2 Hgrid2))).
  - rewrite length_app. exact (proj1 (proj2 (proj2 (proj2 Hgrid2)))).
  - exact Hplay2.
  - exists id. split; [exact Hid |]. split; [exact Hin |].
    intros now.
    destruct (tick_onGrid count (DAW.tempo d) t0 (length evs1 + length evs2) d2 id now
                Hpos Htempo Hgrid2 Hin)
      as (fuel3 & d3 & evs3 & Htick & Hevs3 & Hgrid3 & Hdue & Hdone).
    rewrite Hahead in Hdue, Hdone.
    assert (Hnext3 : DAW.nextNoteTime d3 =
                     t0 + INR (length ((evs1 ++ evs2) ++ evs3)) * stepDuration).
    { rewrite !length_app. exact (proj1 (proj2 (proj2 (proj2 Hgrid3)))). }
    exists (Nat.max (Nat.max fuel1 fuel2) fuel3), d3, evs3.
    split; [| split; [| split; [exact Hdue | split; [| split; [exact Hnext3 |]]]]].
    + intros fuel' Hle.
      change (Session.Start :: actions ++ [Session.Clock now; Session.Tick id])
        with ((Session.Start :: actions) ++ [Session.Clock now; Session.Tick id]).
      apply (run_app _ _ _ _ d2).
      * apply Hwhole. lia.
      * apply (run_mono fuel3); [exact Htick | lia].
    + intros k Hk.
      assert (Hall3 : (evs1 ++ evs2) ++ evs3 =
                      map (eventAt count t0 stepDuration)
                          (seq 0 (length ((evs1 ++ evs2) ++ evs3)))).
      { rewrite (length_app (evs1 ++ evs2)), seq_app, map_app, Nat.add_0_l.
        rewrite <- Hall. f_equal. rewrite length_app.
        subst count t0 stepDuration. exact Hevs3. }
      rewrite Hall3 at 1. now rewrite lookup_map_seq.
    + rewrite <- Hnext3. exact Hdone.
    + intros N Hwindow HN.
      assert (Hle : INR N * stepDuration
                    <= INR (length ((evs1 ++ evs2) ++ evs3)) * stepDuration)
        by (rewrite Hnext3 in Hdone; lra).
      apply INR_le. apply Rmult_le_reg_r with stepDuration; assumption.
Qed.

Lemma scheduler_one_event_per_step_witness :
  let d := UIManager.stepClick 0 0 freshEngine in
  exists id fuel d' evs,
    Session.run fuel
      [Session.Start; Session.Clock 0.2; Session.Tick 1; Session.Clock 1;
       Session.Tick id]
      d = Some (d', evs)
    /\ (8 <= length evs)%nat
    /\ evs !! 0%nat = Some (0%nat, 0 + INR 0 * (0.25 * (60 / 130)))
    /\ DAW.nextNoteTime d' = 0 + INR (length evs) * (0.25 * (60 / 130)).
Proof.
  intros d.
  destruct (scheduler_one_event_per_step d [Session.Clock 0.2; Session.Tick 1])
    as (fuel & d' & evs & _ & _ & _ & _ & _ & _ & _ & id & _ & _ & Hnext).
  - reflexivity.
  - simpl. lra.
  - simpl. lia.
  - repeat constructor.
  - destruct (Hnext 1) as (fuel2 & d2 & evs2 & Hrun & Hlookup & _ & _ & Hstamp & Hmany).
    assert (Hlen : (8 <= length (evs ++ evs2))%nat).
    { apply Hmany; simpl; lra. }
    exists id, fuel2, d2, (evs ++ evs2).
    split; [exact (Hrun fuel2 (Nat.le_refl _)) |].
    split; [exact Hlen |]. split; [| exact Hstamp].
    apply (Hlookup 0%nat). lia.
Defined.

(** * The piano roll on the engine *)

Lemma set_pianoRollNotes_same ch :
  Channel.set_pianoRollNotes (Channel.pianoRollNotes ch) ch = ch.
Proof. now destruct ch. Qed.

(** On a list of the roll a cell holds at most one note, and it is the note
    the toggle would push there. *)
Lemma drawn_only_match notes (pitch step : Z) (i : nat) (n : Note.t) :
  drawn notes ->
  notes !! i = Some n ->
  PianoRoll.sameNote (IZR pitch) (IZR step) n ->
  n = freshNote (IZR pitch) (IZR step)
  /\ forall j m,
       notes !! j = Some m -> PianoRoll.sameNote (IZR pitch) (IZR step) m -> j = i.
Proof.
  intros Hdrawn Hi Hsame. destruct (drawn_grid notes Hdrawn) as [Hgrid Hnodup].
  assert (Hn : n = freshNote (IZR pitch) (IZR step)).
  { apply sameNote_grid; [| exact Hsame].
    exact (proj1 (Forall_lookup _ _) Hgrid i n Hi). }
  split; [exact Hn |]. subst n. intros j m Hj Hm.
  assert (m = freshNote (IZR pitch) (IZR step)).
  { apply sameNote_grid; [| exact Hm].
    exact (proj1 (Forall_lookup _ _) Hgrid j m Hj). }
  subst m. exact (NoDup_lookup notes j i _ Hnodup Hj Hi).
Qed.

(** C5: on an initialised engine, whatever tasks ran before, two clicks on
    the same point of the piano roll give the selected channel its notes
    back: as many as before and the same ones.  The first click takes out
    the note of the cell, the one with that pitch and a start within the
    tolerance, or, when the cell is free, puts in a note at that start, one
    step long, with velocity 1; the second click undoes it.  When the cell
    was free the whole engine is exactly as before; when it held a note,
    that note is the one a click makes, and it comes back at the end of the
    list, the other notes keeping their order. *)
Theorem toggle_twice (d : DAW.t) (x y : R) (ch : Channel.t) :
  Session.reachable d ->
  DAW.channels d !! DAW.selectedChannelIndex d = Some ch ->
  let step := IZR (Int_part (x / PianoRoll.zoomX)) in
  let pitch := 84 - IZR (Int_part (y / PianoRoll.zoomY)) in
  let notes := Channel.pianoRollNotes ch in
  let once := PianoRoll.toggle pitch step notes in
  let twice := PianoRoll.toggle pitch step once in
  PianoRoll.handleInput x y d =
    DAW.set_channels
      (<[DAW.selectedChannelIndex d := Channel.set_pianoRollNotes once ch]>
         (DAW.channels d)) d
  /\ PianoRoll.handleInput x y (PianoRoll.handleInput x y d) =
       DAW.set_channels
         (<[DAW.selectedChannelIndex d := Channel.set_pianoRollNotes twice ch]>
            (DAW.channels d)) d
  /\ length twice = length notes
  /\ Permutation twice notes
  /\ (forall n, n ∈ twice <-> n ∈ notes)
  /\ ((forall n, n ∈ notes -> ~ PianoRoll.sameNote pitch step n) ->
      once = notes ++ [Note.mk step 1 pitch 1.0]
      /\ twice = notes
      /\ PianoRoll.handleInput x y (PianoRoll.handleInput x y d) = d)
  /\ (forall i n,
        notes !! i = Some n ->
        PianoRoll.sameNote pitch step n ->
        n = Note.mk step 1 pitch 1.0
        /\ once = delete i notes
        /\ twice = delete i notes ++ [n]).
Proof.
  intros Hreach Hch step pitch notes once twice.
  destruct (reachable_wellFormed d Hreach) as (_ & _ & _ & _ & _ & Hdrawn).
  pose proof (proj1 (Forall_lookup _ _) Hdrawn _ ch Hch) as Hnotes.
  pose proof (lookup_lt_Some _ _ _ Hch) as Hlt.
  assert (Hpitch : pitch = IZR (84 - Int_part (y / PianoRoll.zoomY)))
    by (subst pitch; now rewrite minus_IZR).
  assert (Hfirst : PianoRoll.handleInput x y d =
            DAW.set_channels
              (<[DAW.selectedChannelIndex d := Channel.set_pianoRollNotes once ch]>
                 (DAW.channels d)) d).
  { unfold PianoRoll.handleInput. now rewrite Hch. }
  assert (Hsecond : PianoRoll.handleInput x y (PianoRoll.handleInput x y d) =
            DAW.set_channels
              (<[DAW.selectedChannelIndex d := Channel.set_pianoRollNotes twice ch]>
                 (DAW.channels d)) d).
  { rewrite Hfirst. unfold PianoRoll.handleInput.
    cbn [DAW.channels DAW.set_channels DAW.selectedChannelIndex].
    rewrite list_lookup_insert_eq by exact Hlt.
    cbn [DAW.channels DAW.set_channels].
    now rewrite list_insert_insert_eq. }
  assert (Hperm : Permutation twice notes).
  { subst twice once. rewrite Hpitch. now apply drawn_twice_permutation. }
  split; [exact Hfirst |]. split; [exact Hsecond |].
  split; [now apply Permutation_length |]. split; [exact Hperm |].
  split; [intros n; now rewrite Hperm |]. split.
  - intros Hfree.
    assert (Hnone : Forall (fun n => ~ PianoRoll.sameNote pitch step n) notes)
      by (apply Forall_forall; exact Hfree).
    assert (Htwice : twice = notes) by (now apply twice_on_free_position).
    split; [now apply toggle_absent |]. split; [exact Htwice |].
    rewrite Hsecond, Htwice. subst notes.
    rewrite set_pianoRollNotes_same, list_insert_id by exact Hch.
    apply set_channels_same.
  - intros i n Hi Hsame. rewrite Hpitch in Hsame.
    destruct (drawn_only_match _ _ _ i n Hnotes Hi Hsame) as [Hn Honly].
    rewrite <- Hpitch in Hn, Honly. subst n.
    split; [reflexivity |]. split.
    + subst once. rewrite Hpitch. apply drawn_first_match; [exact Hnotes |].
      now rewrite <- Hpitch.
    + now apply twice_on_fresh_note.
Qed.

Lemma toggle_twice_witness :
  PianoRoll.handleInput 50 490 (PianoRoll.handleInput 50 490 freshEngine) = freshEngine
  /\ exists ch ch',
       let d := PianoRoll.handleInput 50 490 freshEngine in
       DAW.channels d !! DAW.selectedChannelIndex d = Some ch
       /\ DAW.channels (PianoRoll.handleInput 50 490 (PianoRoll.handleInput 50 490 d))
            !! DAW.selectedChannelIndex d = Some ch'
       /\ length (Channel.pianoRollNotes ch) = 1%nat
       /\ Channel.pianoRollNotes ch' = Channel.pianoRollNotes ch.
Proof.
  split.
  - destruct (toggle_twice freshEngine 50 490 _ (Session.reach_init _ _ _) eq_refl)
      as (_ & _ & _ & _ & _ & Hfree & _).
    apply Hfree. intros n Hn. simpl in Hn. now apply not_elem_of_nil in Hn.
  - set (d := PianoRoll.handleInput 50 490 freshEngine).
    set (pitch := 84 - IZR (Int_part (490 / PianoRoll.zoomY))).
    set (step := IZR (Int_part (50 / PianoRoll.zoomX))).
    assert (Hreach : Session.reachable d).
    { apply (Session.reach_react freshEngine (Session.PianoClick 50 490) 0 d []);
        [apply Session.reach_init | reflexivity]. }
    assert (Hsel : exists ch,
               DAW.channels d !! DAW.selectedChannelIndex d = Some ch
               /\ Channel.pianoRollNotes ch = [freshNote pitch step])
      by (eexists; split; reflexivity).
    destruct Hsel as (ch & Hch & Hnotes).
    destruct (toggle_twice d 50 490 ch Hreach Hch)
      as (_ & Hsecond & _ & _ & _ & _ & Hheld).
    destruct (Hheld 0%nat (freshNote pitch step)) as (_ & _ & Htwice).
    { now rewrite Hnotes. }
    { apply freshNote_same. }
    exists ch.
    exists (Channel.set_pianoRollNotes
              (PianoRoll.toggle pitch step
                 (PianoRoll.toggle pitch step (Channel.pianoRollNotes ch))) ch).
    cbv zeta. split; [exact Hch |]. split.
    + rewrite Hsecond. cbn [DAW.channels DAW.set_channels].
      apply list_lookup_insert_eq. eapply lookup_lt_Some. exact Hch.
    + split; [now rewrite Hnotes |].
      cbn [Channel.pianoRollNotes Channel.set_pianoRollNotes].
      fold pitch step in Htwice. rewrite Htwice, Hnotes. reflexivity.
Defined.
